(** * network_config_backup: the backup-and-commit pipeline of [backup.py]

    A shallow embedding of [backup.py].  Python [str] values are
    [string]s (one [ascii] per character, code points below 256); the
    interaction of the script with its environment (the netmiko session,
    the file system, the git subprocesses, the logging module, the
    process current directory, the asyncio semaphore) is a list of
    [Event]s that the code emits, in program order; the answers of the
    environment are read from an [Env] record, one per attempt. *)

From Stdlib Require Import ZArith Ascii.
From stdpp Require Import gmap strings list pretty.

Local Open Scope Z_scope.

(** * Part I: the program *)

(** ** Python string operations used by the script *)

Module Str.

(** The characters [str.isspace] accepts, for code points below 256:
    TAB, LF, VT, FF, CR, FS, GS, RS, US, SPACE, NEL and NBSP. *)
Definition isspace (c : ascii) : bool :=
  match c with
  | "009" | "010" | "011" | "012" | "013"
  | "028" | "029" | "030" | "031" | " "
  | "133" | "160" => true
  | _ => false
  end%char.

Definition newline : ascii := "010"%char.

Definition comma : ascii := ","%char.

Definition slash : ascii := "/"%char.

(** The double quote character, for f-strings that contain one. *)
Definition dquote : string := String "034"%char EmptyString.

Definition is_empty (s : string) : bool :=
  match s with EmptyString => true | String _ _ => false end.

(** [s.lstrip()] *)
Fixpoint lstrip (s : string) : string :=
  match s with
  | EmptyString => EmptyString
  | String c s' => if isspace c then lstrip s' else s
  end.

(** [s.rstrip()] *)
Fixpoint rstrip (s : string) : string :=
  match s with
  | EmptyString => EmptyString
  | String c s' =>
      let r := rstrip s' in
      if isspace c && is_empty r then EmptyString else String c r
  end.

(** [s.strip()] *)
Definition strip (s : string) : string := rstrip (lstrip s).

Definition starts_with_newline (s : string) : bool :=
  match s with
  | String c _ => if Ascii.eqb c newline then true else false
  | EmptyString => false
  end.

(** [re.sub(r'\n+', ',', s)]: every maximal run of line feeds becomes
    one comma. *)
Fixpoint sub_newlines (s : string) : string :=
  match s with
  | EmptyString => EmptyString
  | String c s' =>
      if Ascii.eqb c newline then
        if starts_with_newline s' then sub_newlines s'
        else String comma (sub_newlines s')
      else String c (sub_newlines s')
  end.

(** [s.startswith(p)] *)
Fixpoint startswith (p s : string) : bool :=
  match p, s with
  | EmptyString, _ => true
  | String _ _, EmptyString => false
  | String a p', String b s' => Ascii.eqb a b && startswith p' s'
  end.

(** [needle in s] *)
Fixpoint contains (needle s : string) : bool :=
  startswith needle s ||
  match s with
  | EmptyString => false
  | String _ s' => contains needle s'
  end.

(** [needle] occurs in [s] as a contiguous substring. *)
Definition Infix (needle s : string) : Prop :=
  exists pre suf, s = pre +:+ needle +:+ suf.

(** Every character of [s] satisfies [p]. *)
Fixpoint all_chars (p : ascii -> bool) (s : string) : bool :=
  match s with
  | EmptyString => true
  | String c s' => p c && all_chars p s'
  end.

Definition first_char (s : string) : option ascii :=
  match s with String c _ => Some c | EmptyString => None end.

Fixpoint last_char (s : string) : option ascii :=
  match s with
  | EmptyString => None
  | String c EmptyString => Some c
  | String _ s' => last_char s'
  end.

Definition not_newline (c : ascii) : bool := negb (Ascii.eqb c newline).

Definition not_comma (c : ascii) : bool := negb (Ascii.eqb c comma).

(** A word that the normalisation [sub_newlines (strip _)] can neither
    break nor create: no line feed, no comma, and neither its first
    nor its last character is white space. *)
Definition plain_word (n : string) : bool :=
  all_chars not_newline n && all_chars not_comma n
  && match first_char n with Some c => negb (isspace c) | None => false end
  && match last_char n with Some c => negb (isspace c) | None => false end.

End Str.

(** ** Exceptions, results and events *)

(** Python exceptions, by what [except Exception] catches: instances of
    [Exception] (netmiko, OSError, ValueError, ...) and the others
    ([KeyboardInterrupt], [SystemExit], [asyncio.CancelledError]).  The
    string is [str(e)]. *)
Inductive exn : Type :=
  | Exception (msg : string)
  | BaseException (msg : string).

Inductive result (A : Type) : Type :=
  | Ok (a : A)
  | Raise (e : exn).

Arguments Ok {A} a.

Arguments Raise {A} e.

(** Levels of the [logging] module used by the script. *)
Inductive Level : Type := INFO | WARNING | ERROR.

(** [subprocess.CompletedProcess], with [capture_output=True, text=True]. *)
Record CompletedProcess : Type := {
  returncode : Z;
  stdout : string;
  stderr : string
}.

(** The [device] dictionary handed to [ConnectHandler]. *)
Record Device : Type := {
  device_type : string;
  ip : string;
  username : string;
  password : string;
  session_log : string
}.

(** What the script does to its environment, in program order. *)
Inductive Event : Type :=
  | SemAcquire                      (* [async with semaphore], entry *)
  | SemRelease                      (* [async with semaphore], exit *)
  | EConnect (device : Device) (established : bool)
                                    (* the call of [ConnectHandler] *)
  | EDisconnect                     (* exit of the [with] block of the session *)
  | EFindPrompt                     (* [conn.find_prompt()] *)
  | ESendCommandExpect (command expect_string : string)
  | ESendCommand (command : string) (read_timeout : Z)
  | EOpen (path : string)           (* [open(path, 'w+')] succeeded *)
  | EWrite (path content : string)  (* [f.write(content)] succeeded *)
  | EChdir (path : string)          (* [os.chdir(path)] succeeded *)
  | ESubprocess (command : string)  (* [subprocess.run(command, shell=True)] *)
  | ELog (level : Level) (msg : string).

(** The answers of the environment during one attempt.  Within one
    attempt every call has its own arguments, so a function of the
    arguments describes any behaviour of the device, of the file system
    and of git. *)
Record Env : Type := {
  env_connect : Device -> result unit;
  env_find_prompt : result string;
  env_send_command_expect : string -> string -> result string;
  env_send_command : string -> Z -> result string;
  env_open : string -> result unit;
  env_write : string -> string -> result unit;
  env_now : string;                 (* [str(datetime.datetime.now())] *)
  env_chdir : string -> result unit;
  env_run : string -> result CompletedProcess
}.

(** ** The monad of the embedding: read the environment, emit events,
    return or raise *)

Definition M (A : Type) : Type := Env -> list Event * result A.

Definition ret {A} (a : A) : M A := fun _ => ([], Ok a).

Definition bind {A B} (m : M A) (f : A -> M B) : M B := fun env =>
  match m env with
  | (evs, Ok a) => let '(evs', r) := f a env in (evs ++ evs', r)
  | (evs, Raise e) => (evs, Raise e)
  end.

Notation "x <- m ;; k" := (bind m (fun x => k))
  (at level 100, m at next level, right associativity).

Notation "m ;; k" := (bind m (fun _ => k))
  (at level 100, right associativity).

Definition emit (e : Event) : M unit := fun _ => ([e], Ok tt).

(** An environment call: the event is emitted, then the call returns or
    raises what the environment says. *)
Definition call {A} (e : Event) (answer : Env -> result A) : M A :=
  fun env => ([e], answer env).

(** A system call whose event records success only. *)
Definition syscall (e : Event) (answer : Env -> result unit) : M unit :=
  fun env =>
    match answer env with
    | Ok _ => ([e], Ok tt)
    | Raise x => ([], Raise x)
    end.

(** [try: body / except Exception as e: handler e] *)
Definition try_except {A} (body : M A) (handler : string -> M A) : M A :=
  fun env =>
    match body env with
    | (evs, Raise (Exception msg)) =>
        let '(evs', r) := handler msg env in (evs ++ evs', r)
    | other => other
    end.

(** [try: body / finally: final] *)
Definition try_finally {A} (body : M A) (final : M unit) : M A :=
  fun env =>
    let '(evs, r) := body env in
    match final env with
    | (evs', Ok _) => (evs ++ evs', r)
    | (evs', Raise e) => (evs ++ evs', Raise e)
    end.

Definition logging_info (msg : string) : M unit := emit (ELog INFO msg).

Definition logging_warning (msg : string) : M unit := emit (ELog WARNING msg).

Definition logging_error (msg : string) : M unit := emit (ELog ERROR msg).

Definition os_chdir (path : string) : M unit :=
  syscall (EChdir path) (fun env => env_chdir env path).

Definition subprocess_run (command : string) : M CompletedProcess :=
  call (ESubprocess command) (fun env => env_run env command).

Definition datetime_now : M string := fun env => ([], Ok (env_now env)).

(** [with ConnectHandler] on the device dictionary, [as conn: body];
    netmiko's [__exit__]
    disconnects and lets the exception of the body through. *)
Definition with_ConnectHandler {A} (device : Device) (body : M A) : M A :=
  fun env =>
    match env_connect env device with
    | Raise e => ([EConnect device false], Raise e)
    | Ok _ =>
        let '(evs, r) := body env in
        (EConnect device true :: evs ++ [EDisconnect], r)
    end.

Definition find_prompt : M string := call EFindPrompt env_find_prompt.

Definition send_command_expect (command expect_string : string) : M string :=
  call (ESendCommandExpect command expect_string)
       (fun env => env_send_command_expect env command expect_string).

Definition send_command (command : string) (read_timeout : Z) : M string :=
  call (ESendCommand command read_timeout)
       (fun env => env_send_command env command read_timeout).

(** [with open(path, 'w+') as f: f.write(content)] *)
Definition open_and_write (path content : string) : M unit :=
  syscall (EOpen path) (fun env => env_open env path) ;;
  syscall (EWrite path content) (fun env => env_write env path content).

(** [os.path.join(a, b)] of [posixpath]. *)
Definition os_path_join (a b : string) : string :=
  if Str.startswith "/" b then b
  else if Str.is_empty a then b
  else match Str.last_char a with
       | Some "/"%char => a +:+ b
       | _ => a +:+ "/" +:+ b
       end.

(** ** [git_commit_and_push] (lines 95-128) *)

(** The outcome of the commit step. *)
Inductive CommitOutcome : Type := Committed | NoChange | Failed.

(** Line 109: [re.sub(r'\n+', ',', commit_process.stdout.strip())]. *)
Definition commit_result (commit_stdout : string) : string :=
  Str.sub_newlines (Str.strip commit_stdout).

(** Lines 110-117: the [if]/[elif]/[else] on [commit_result]. *)
Definition classify (filename commit_result : string) : CommitOutcome :=
  if Str.contains "nothing to commit" commit_result then NoChange
  else if Str.contains ("backup " +:+ filename) commit_result then Committed
  else Failed.

(** The one logging call of each branch of lines 110-117. *)
Definition log_outcome (filename : string) (o : CommitOutcome) : Event :=
  match o with
  | NoChange =>
      ELog WARNING ("Nothing to commit in the repository," +:+ filename
                    +:+ " is Already exists.")
  | Committed => ELog INFO (filename +:+ " Submitted successfully")
  | Failed => ELog ERROR (filename +:+ " Submission Failed")
  end.

Definition git_error_message (command : string) (p : CompletedProcess)
  : string :=
  "Error executing Git command '" +:+ command +:+ "'. Return code: "
  +:+ pretty (returncode p) +:+ ", Error: " +:+ Str.strip (stderr p).

Definition add_command (filename : string) : string :=
  "git add " +:+ filename.

Definition commit_command (filename now : string) : string :=
  "git commit -m " +:+ Str.dquote +:+ "backup " +:+ filename +:+ " "
  +:+ now +:+ Str.dquote.

Definition push_command : string := "git push".

(** The body of the [try] block, lines 98-123. *)
Definition git_steps (filename : string) : M unit :=
  now <- datetime_now ;;
  add_process <- subprocess_run (add_command filename) ;;
  (if returncode add_process =? 0 then ret tt
   else logging_error
          (git_error_message (add_command filename) add_process)) ;;
  commit_process <- subprocess_run (commit_command filename now) ;;
  emit (log_outcome filename
          (classify filename (commit_result (stdout commit_process)))) ;;
  push_process <- subprocess_run push_command ;;
  (if returncode push_process =? 0 then ret tt
   else logging_error (git_error_message push_command push_process)).

Definition git_commit_and_push (filename pro_dir : string) : M unit :=
  os_chdir pro_dir ;;
  try_finally
    (try_except
       (git_steps filename)
       (fun e => logging_error ("Error committing and pushing: " +:+ e)))
    (os_chdir "..").

(** ** [backup_config] (lines 51-93) *)

Definition max_retries : nat := 5.

Definition config_filename (platform role ip : string) : string :=
  platform +:+ "-" +:+ role +:+ "-" +:+ ip +:+ "-config.txt".

(** Lines 65-73: the confirmation and the pagination commands. *)
Definition negotiate (platform : string) : M unit :=
  prompt <- find_prompt ;;
  if Str.contains "Y/N" prompt then
    send_command_expect "N" ">" ;;
    if String.eqb platform "hp_comware" then
      send_command_expect "screen-length disable" ">" ;; ret tt
    else if String.eqb platform "huawei" then
      send_command_expect "screen-length 0 temporary" ">" ;; ret tt
    else if String.eqb platform "ruijie_os" then
      send_command_expect "terminal width 256" "#" ;;
      send_command_expect "terminal length 0" "#" ;; ret tt
    else ret tt
  else ret tt.

(** Lines 75-78: the fetch command. *)
Definition fetch (platform : string) : M string :=
  if String.eqb platform "ruijie_os" then
    send_command "show running-config" 1800
  else
    send_command "display current" 1800.

(** Lines 56-62: the [device] dictionary. *)
Definition device_dict
    (ip username password platform role script_dir : string) : Device := {|
  device_type := platform;
  ip := ip;
  username := username;
  password := password;
  session_log := script_dir +:+ "/logs/" +:+ platform +:+ "-" +:+ role
                 +:+ "-" +:+ ip +:+ "-session.log"
|}.

(** Lines 64-78: the session with the device, which yields [output]. *)
Definition session (device : Device) (platform : string) : M string :=
  with_ConnectHandler device (negotiate platform ;; fetch platform).

(** The body of the [try] block of one iteration, lines 56-84. *)
Definition attempt
    (ip username password platform role script_dir pro_dir : string)
  : M unit :=
  let device := device_dict ip username password platform role script_dir in
  output <- session device platform ;;
  let filename := config_filename platform role ip in
  open_and_write (os_path_join pro_dir filename) output ;;
  logging_info ("Config saved to " +:+ filename) ;;
  git_commit_and_push filename pro_dir.

(** Lines 86-93: the handler of [except Exception as e]. *)
Definition retry_handler (ip : string) (retry_count : nat) (e : string)
  : list Event :=
  [ ELog ERROR ("Error backing up " +:+ ip +:+ ": " +:+ e);
    if (retry_count <? max_retries - 1)%nat then
      ELog WARNING ("Retrying backup for " +:+ ip +:+ " ("
                    +:+ pretty (retry_count + 1)%nat +:+ "/"
                    +:+ pretty max_retries +:+ ")")
    else
      ELog ERROR ("Max retries reached for " +:+ ip +:+ ", backup failed.") ].

(** [for retry_count in retry_counts: try: body; break / except ...]:
    the environment of iteration [retry_count] is [envs retry_count]. *)
Fixpoint retry_loop (body : M unit) (ip : string) (envs : nat -> Env)
    (retry_counts : list nat) : list Event * result unit :=
  match retry_counts with
  | [] => ([], Ok tt)
  | retry_count :: rest =>
      match body (envs retry_count) with
      | (evs, Ok _) => (evs, Ok tt)
      | (evs, Raise (Exception e)) =>
          let '(evs', r) := retry_loop body ip envs rest in
          (evs ++ retry_handler ip retry_count e ++ evs', r)
      | (evs, Raise (BaseException e)) => (evs, Raise (BaseException e))
      end
  end.

(** [backup_config]: the loop inside [async with semaphore]. *)
Definition backup_config
    (ip username password platform role script_dir pro_dir : string)
    (envs : nat -> Env) : list Event * result unit :=
  let '(evs, r) :=
    retry_loop (attempt ip username password platform role script_dir pro_dir)
               ip envs (seq 0 max_retries) in
  (SemAcquire :: evs ++ [SemRelease], r).

(** ** The environment the events act on *)

Module Path.

(** [p[:p.rfind('/') + 1]] *)
Fixpoint head (p : string) : string :=
  match p with
  | EmptyString => EmptyString
  | String c p' =>
      let h := head p' in
      if Str.is_empty h then
        if Ascii.eqb c Str.slash then "/" else EmptyString
      else String c h
  end.

Definition is_slash (c : ascii) : bool := Ascii.eqb c Str.slash.

(** [s.rstrip('/')] *)
Fixpoint rstrip_slash (s : string) : string :=
  match s with
  | EmptyString => EmptyString
  | String c s' =>
      let r := rstrip_slash s' in
      if is_slash c && Str.is_empty r then EmptyString else String c r
  end.

(** [os.path.dirname(p)] of [posixpath]; on a normalised absolute path
    it is the parent directory, which is what [os.chdir('..')] moves to
    when the last component is a directory and not a symbolic link. *)
Definition dirname (p : string) : string :=
  let h := head p in
  if Str.is_empty h || Str.all_chars is_slash h then h
  else rstrip_slash h.

End Path.

(** The part of the process and of the machine the script acts on.
    [files] holds what the script itself writes with [open] and
    [write], the configuration files; what the git processes, the
    session log of netmiko and the handler of [logging] write is not
    part of it.  [log] holds the records of the script's own [logging]
    calls, not those of the libraries. *)
Record World : Type := {
  cwd : string;                          (* the process current directory *)
  files : gmap string string;            (* path to content *)
  sessions : nat;                        (* device sessions now open *)
  log : list (Level * string);           (* records handed to [logging] *)
  shell : list (string * string)         (* (cwd, command) of each subprocess *)
}.

(** Where [os.chdir(path)] leaves the process: [..] is the parent of the
    current directory, an absolute path replaces it, a relative one is
    appended.  Names are taken as they are written: this is where the
    kernel leaves the process when the current directory and the path
    are normalised and no component of them is a symbolic link. *)
Definition chdir_target (cwd path : string) : string :=
  if String.eqb path ".." then Path.dirname cwd
  else os_path_join cwd path.

Definition file_content (w : World) (path : string) : string :=
  default EmptyString (files w !! path).

Definition apply_event (w : World) (e : Event) : World :=
  match e with
  | SemAcquire | SemRelease | EFindPrompt
  | ESendCommandExpect _ _ | ESendCommand _ _ => w
  | EConnect _ established =>
      if established then
        {| cwd := cwd w; files := files w; sessions := S (sessions w);
           log := log w; shell := shell w |}
      else w
  | EDisconnect =>
      {| cwd := cwd w; files := files w; sessions := pred (sessions w);
         log := log w; shell := shell w |}
  | EOpen path =>
      {| cwd := cwd w; files := <[path := EmptyString]> (files w);
         sessions := sessions w; log := log w; shell := shell w |}
  | EWrite path content =>
      {| cwd := cwd w;
         files := <[path := file_content w path +:+ content]> (files w);
         sessions := sessions w; log := log w; shell := shell w |}
  | EChdir path =>
      {| cwd := chdir_target (cwd w) path; files := files w;
         sessions := sessions w; log := log w; shell := shell w |}
  | ESubprocess command =>
      {| cwd := cwd w; files := files w; sessions := sessions w;
         log := log w; shell := shell w ++ [(cwd w, command)] |}
  | ELog level msg =>
      {| cwd := cwd w; files := files w; sessions := sessions w;
         log := log w ++ [(level, msg)]; shell := shell w |}
  end.

Definition exec (w : World) (evs : list Event) : World :=
  fold_left apply_event evs w.

(** ** [main] (lines 130-148): the tasks under the event loop

    [asyncio.gather] makes one task of each [backup_config] coroutine.
    A task runs on the single thread of the loop until it suspends or
    ends.  The only [await] of [backup_config] that can suspend is the
    entry of [async with semaphore], when the counter is [0]:
    [ConnectHandler], [send_command], [open], [subprocess.run] and
    [logging] are blocking calls, and [await git_commit_and_push(...)]
    runs a coroutine without [await] inside. *)

Definition MAX_CONCURRENT_BACKUPS : nat := 10.

(** One row of [devices.csv]. *)
Record Row : Type := {
  row_ip : string;
  row_username : string;
  row_password : string;
  row_platform : string;
  row_role : string
}.

(** The coroutines [main] hands to [asyncio.gather]: the events and the
    result of [backup_config] on each row, given the answers of the
    environment to that device. *)
Definition main_tasks (script_dir pro_dir : string)
    (rows : list (Row * (nat -> Env))) : list (list Event * result unit) :=
  map (fun '(row, envs) =>
         backup_config (row_ip row) (row_username row) (row_password row)
           (row_platform row) (row_role row) script_dir pro_dir envs)
      rows.

(** Where a task is in [backup_config]: before [async with semaphore],
    inside it with [open] sessions of its own, or past it. *)
Inductive Phase : Type :=
  | Pending
  | Inside (open : nat)
  | Done.

Definition advance (ph : Phase) (e : Event) : Phase :=
  match ph, e with
  | Pending, SemAcquire => Inside 0
  | Inside _, SemRelease => Done
  | Inside n, EConnect _ true => Inside (S n)
  | Inside n, EDisconnect => Inside (pred n)
  | _, _ => ph
  end.

Record Task : Type := {
  phase : Phase;
  todo : list Event;               (* the events still to come *)
  outcome : result unit            (* how the coroutine ends *)
}.

Record Loop : Type := {
  sem_value : nat;                 (* the counter of the semaphore *)
  tasks : list Task;
  running : option nat;            (* the task that holds the thread *)
  world : World;
  history : list (nat * Event);    (* (task, event), oldest first *)
  gather_exception : bool;         (* a task ended with an exception *)
  cancelled : bool                 (* [asyncio.run] cancelled the rest *)
}.

Definition is_sem (e : Event) : bool :=
  match e with SemAcquire | SemRelease => true | _ => false end.

Definition is_raise {A} (r : result A) : bool :=
  match r with Raise _ => true | Ok _ => false end.

(** The loop hands the thread to task [i], or takes it back. *)
Definition schedule (s : Loop) (i : option nat) : Loop := {|
  sem_value := sem_value s; tasks := tasks s; running := i;
  world := world s; history := history s;
  gather_exception := gather_exception s; cancelled := cancelled s
|}.

(** Task [i], in state [t], performs [e] and has [rest] left; the
    counter of the semaphore becomes [v].  A task with nothing left
    ends: it gives the thread back and its result goes to [gather]. *)
Definition perform (s : Loop) (i : nat) (t : Task) (e : Event)
    (rest : list Event) (v : nat) : Loop := {|
  sem_value := v;
  tasks := <[i := {| phase := advance (phase t) e; todo := rest;
                     outcome := outcome t |}]> (tasks s);
  running := match rest with [] => None | _ :: _ => Some i end;
  world := apply_event (world s) e;
  history := history s ++ [(i, e)];
  gather_exception :=
    match rest with
    | [] => gather_exception s || is_raise (outcome t)
    | _ :: _ => gather_exception s
    end;
  cancelled := cancelled s
|}.

Definition cancel (s : Loop) : Loop := {|
  sem_value := sem_value s; tasks := tasks s; running := None;
  world := world s; history := history s;
  gather_exception := gather_exception s; cancelled := true
|}.

(** One step of the event loop.  With [preemptive = false] this is
    asyncio: a task keeps the thread until it ends or waits for the
    semaphore.  With [preemptive = true] the thread may be taken from a
    task between any two events, as if every call could suspend. *)
Inductive step (preemptive : bool) : Loop -> Loop -> Prop :=
  | step_dispatch s i t e rest :
      cancelled s = false -> running s = None ->
      tasks s !! i = Some t -> todo t = e :: rest ->
      step preemptive s (schedule s (Some i))
  | step_acquire s i t rest v :
      cancelled s = false -> running s = Some i ->
      tasks s !! i = Some t -> todo t = SemAcquire :: rest ->
      sem_value s = S v ->
      step preemptive s (perform s i t SemAcquire rest v)
  | step_wait s i t rest :
      cancelled s = false -> running s = Some i ->
      tasks s !! i = Some t -> todo t = SemAcquire :: rest ->
      sem_value s = 0%nat ->
      step preemptive s (schedule s None)
  | step_release s i t rest :
      cancelled s = false -> running s = Some i ->
      tasks s !! i = Some t -> todo t = SemRelease :: rest ->
      step preemptive s (perform s i t SemRelease rest (S (sem_value s)))
  | step_event s i t e rest :
      cancelled s = false -> running s = Some i ->
      tasks s !! i = Some t -> todo t = e :: rest -> is_sem e = false ->
      step preemptive s (perform s i t e rest (sem_value s))
  | step_preempt s i :
      preemptive = true -> cancelled s = false -> running s = Some i ->
      step preemptive s (schedule s None)
  | step_cancel s :
      gather_exception s = true -> cancelled s = false ->
      step preemptive s (cancel s).

Definition task_of (run : list Event * result unit) : Task :=
  {| phase := Pending; todo := fst run; outcome := snd run |}.

(** The process when [asyncio.gather] starts: [clone_repo] has changed
    into the script directory (line 33), no session is open. *)
Definition boot (script_dir : string) (fs : gmap string string) : World :=
  {| cwd := script_dir; files := fs; sessions := 0; log := []; shell := [] |}.

Definition start (capacity : nat) (runs : list (list Event * result unit))
    (w : World) : Loop := {|
  sem_value := capacity; tasks := map task_of runs; running := None;
  world := w; history := []; gather_exception := false; cancelled := false
|}.

(** The states the loop can be in when it runs [runs] from world [w]. *)
Definition reachable (preemptive : bool) (capacity : nat)
    (runs : list (list Event * result unit)) (w : World) (s : Loop) : Prop :=
  rtc (step preemptive) (start capacity runs w) s.

(** The events task [j] has performed, in order. *)
Definition events_of (j : nat) (h : list (nat * Event)) : list Event :=
  map snd (List.filter (fun x => Nat.eqb (fst x) j) h).

(** ** The rest of the script: [setup_logging], [clone_repo] and the
    beginning of [main] *)

(** *** [setup_logging] (lines 16-30) *)

(** A [TimedRotatingFileHandler] as [setup_logging] configures it. *)
Record Handler : Type := {
  handler_filename : string;
  handler_when : string;
  handler_interval : Z;
  handler_backupCount : Z;
  handler_level : Level;
  handler_suffix : string;
  handler_format : string
}.

(** The root logger: its level and its handlers, in the order added. *)
Record Logging : Type := {
  root_level : Level;
  root_handlers : list Handler
}.

(** [logging.INFO], [logging.WARNING], [logging.ERROR]. *)
Definition levelno (l : Level) : Z :=
  match l with INFO => 20 | WARNING => 30 | ERROR => 40 end.

(** The root logger of a fresh interpreter: level WARNING, no handler. *)
Definition fresh_logging : Logging :=
  {| root_level := WARNING; root_handlers := [] |}.

(** Lines 20-28: the handler [setup_logging] builds. *)
Definition error_handler (log_file : string) : Handler := {|
  handler_filename := log_file;
  handler_when := "midnight";
  handler_interval := 1;
  handler_backupCount := 7;
  handler_level := WARNING;
  handler_suffix := "%Y%m%d.log";
  handler_format := "%(asctime)s - %(levelname)s - %(message)s"
|}.

(** [setup_logging(log_file)]: [setLevel(logging.INFO)] on the root
    logger and [addHandler] of a new handler of level WARNING.  The
    constructor of the handler opens [log_file]; [opened] is what that
    gives, and an exception of it ([FileNotFoundError] when the
    directory is missing) leaves [setup_logging]. *)
Definition setup_logging (log_file : string) (opened : result unit)
    (cfg : Logging) : result Logging :=
  match opened with
  | Raise e => Raise e
  | Ok _ =>
      Ok {| root_level := INFO;
            root_handlers := root_handlers cfg ++ [error_handler log_file] |}
  end.

(** [Logger.handle] and [callHandlers] for a record logged on the root
    logger: a record the logger is enabled for goes to every handler
    whose level it reaches.  The result names the file of each handler
    that writes the record. *)
Definition deliver (cfg : Logging) (record : Level * string)
  : list (string * (Level * string)) :=
  if levelno (root_level cfg) <=? levelno (fst record) then
    flat_map (fun h =>
                if levelno (handler_level h) <=? levelno (fst record)
                then [(handler_filename h, record)]
                else [])
             (root_handlers cfg)
  else [].

(** What the handlers write of the given records, in order.  The
    handlers sit on the root logger, so the records of the libraries
    come to them as well as those of the script; which records the
    libraries log is not modelled. *)
Definition written (cfg : Logging) (records : list (Level * string))
  : list (string * (Level * string)) :=
  flat_map (deliver cfg) records.

(** *** [clone_repo] (lines 32-49) *)

(** [sys.exit(code)]: raises [SystemExit], which [except Exception] does
    not catch. *)
Definition sys_exit {A} (code : Z) : M A :=
  fun _ => ([], Raise (BaseException (pretty code))).

(** [asyncio.create_subprocess_shell(command)] followed by
    [process.communicate()]: the command runs in the current directory;
    the answer holds the return code and the decoded output. *)
Definition create_subprocess_shell (command : string) : M CompletedProcess :=
  call (ESubprocess command) (fun env => env_run env command).

(** [clone_repo]; [path_exists] is what [os.path.exists] answers. *)
Definition clone_repo (path_exists : string -> bool)
    (gitlab_url script_dir pro_dir : string) : M unit :=
  os_chdir script_dir ;;
  if negb (path_exists pro_dir) then
    try_except
      (process <- create_subprocess_shell ("git clone " +:+ gitlab_url) ;;
       if negb (returncode process =? 0) then
         logging_error ("Error cloning repository: " +:+ stderr process) ;;
         sys_exit 1
       else
         logging_info "Repository cloned successfully")
      (fun e =>
         logging_error ("Error cloning repository: " +:+ e) ;;
         sys_exit 1)
  else ret tt.

(** *** [main] up to [asyncio.gather] (lines 131-146) *)

(** [s.split(sep)] for a separator of one character. *)
Fixpoint split (sep : ascii) (s : string) : list string :=
  match s with
  | EmptyString => [EmptyString]
  | String c s' =>
      if Ascii.eqb c sep then EmptyString :: split sep s'
      else match split sep s' with
           | piece :: pieces => String c piece :: pieces
           | [] => [String c EmptyString]
           end
  end.

(** [sep.join(pieces)] *)
Fixpoint join (sep : ascii) (pieces : list string) : string :=
  match pieces with
  | [] => EmptyString
  | [piece] => piece
  | piece :: rest => piece +:+ String sep (join sep rest)
  end.

(** Lines 133-134: [path.split('/')[-1].split('.')[0]], on the path of
    the parsed URL. *)
Definition pdir_of (url_path : string) : string :=
  hd EmptyString
     (split "." (List.last (split "/" url_path) EmptyString)).

(** Line 142, [csv.DictReader]: the first line of the table holds the
    field names; a line gives the dictionary of the field names and
    its values, [dict(zip(fieldnames, line))], in which the last of
    two fields of one name wins; a field the line has no value for is
    [None]; the values the header has no field for go under the key
    [None], which the script never reads. *)
Definition dict_row (fieldnames values : list string)
  : gmap string (option string) :=
  foldr (fun key d => <[key := None]> d)
        (list_to_map (reverse (zip fieldnames (map Some values))))
        (drop (length values) fieldnames).

(** A line without any value, which [csv.DictReader] skips. *)
Definition blank (line : list string) : bool :=
  match line with [] => true | _ :: _ => false end.

(** The rows of [csv.DictReader] on the lines the csv reader gives. *)
Definition DictReader (table : list (list string))
  : list (gmap string (option string)) :=
  match table with
  | [] => []
  | fieldnames :: lines =>
      map (dict_row fieldnames) (List.filter (fun l => negb (blank l)) lines)
  end.

(** [str(v)], as the f-strings of [backup_config] show a value. *)
Definition text_of (v : option string) : string := default "None" v.

(** Line 145: the five fields of a row, looked up from left to right; a
    missing key raises [KeyError].  A value [None] is kept as the text
    an f-string shows for it.  The role is used in f-strings only (the
    names of the backup file and of the session log); the other four
    fields also go into the dictionary of [ConnectHandler], where the
    script has [None] itself and this model its text: the facts below
    on the arguments of a backup are about lines that have these four
    values. *)
Definition key_error {A} (key : string) : result A :=
  Raise (Exception ("'" +:+ key +:+ "'")).

Definition row_fields (row : gmap string (option string)) : result Row :=
  match row !! "ip" with
  | None => key_error "ip"
  | Some ip =>
  match row !! "username" with
  | None => key_error "username"
  | Some username =>
  match row !! "password" with
  | None => key_error "password"
  | Some password =>
  match row !! "platform" with
  | None => key_error "platform"
  | Some platform =>
  match row !! "role" with
  | None => key_error "role"
  | Some role =>
      Ok {| row_ip := text_of ip; row_username := text_of username;
            row_password := text_of password;
            row_platform := text_of platform;
            row_role := text_of role |}
  end end end end end.

(** Lines 143-146: the loop over the rows; the first row with a missing
    key ends it with [KeyError]. *)
Fixpoint read_rows (rows : list (gmap string (option string)))
  : result (list Row) :=
  match rows with
  | [] => Ok []
  | row :: rest =>
      match row_fields row with
      | Raise e => Raise e
      | Ok r =>
          match read_rows rest with
          | Raise e => Raise e
          | Ok rs => Ok (r :: rs)
          end
      end
  end.

(** What [main] has when it calls [asyncio.gather]. *)
Record Gathered : Type := {
  gathered_logging : Logging;
  gathered_pro_dir : string;
  gathered_runs : list (list Event * result unit)
}.

(** A value or an exception that the environment hands over. *)
Definition lift {A} (r : result A) : M A := fun _ => ([], r).

(** [main] up to [asyncio.gather]: [url_path] is the path of the parsed
    URL, [script_dir] the directory of the script, [log_opened] what
    opening the log file gives, [devices] what opening [devices.csv]
    and reading its lines gives, and [device_envs i] the answers of
    the environment to the device of row [i].  The script makes the
    coroutine of a row before it reads the next row; a coroutine does
    nothing before [asyncio.gather] runs it, so an exception among the
    rows leaves [main] with no backup started. *)
Definition main (gitlab_url url_path script_dir : string)
    (path_exists : string -> bool) (log_opened : result unit)
    (devices : result (list (list string)))
    (device_envs : nat -> nat -> Env) : M Gathered :=
  let pdir := pdir_of url_path in
  let pro_dir := os_path_join script_dir pdir in
  (cfg <- lift (setup_logging (script_dir +:+ "/logs/backup-err.log")
                  log_opened fresh_logging) ;;
   clone_repo path_exists gitlab_url script_dir pro_dir ;;
   table <- lift devices ;;
   rows <- lift (read_rows (DictReader table)) ;;
   ret {| gathered_logging := cfg;
          gathered_pro_dir := pro_dir;
          gathered_runs :=
            main_tasks script_dir pro_dir
              (imap (fun i row => (row, device_envs i)) rows) |}).

(** * Part II: the words of the properties

    Predicates on events and states, the invariants of the event loop,
    schedules as functions, and sample environments. *)

(** ** Concrete environments, for examples *)

Module Sample.

Definition proc (rc : Z) (out err : string) : CompletedProcess :=
  {| returncode := rc; stdout := out; stderr := err |}.

(** A device that answers every command, a disk that accepts every
    write, and git processes that all exit with [0]. *)
Definition fine (prompt commit_stdout : string) : Env := {|
  env_connect := fun _ => Ok tt;
  env_find_prompt := Ok prompt;
  env_send_command_expect := fun _ _ => Ok ">";
  env_send_command := fun _ _ => Ok "sysname R1";
  env_open := fun _ => Ok tt;
  env_write := fun _ _ => Ok tt;
  env_now := "2024-01-01 00:00:00.000000";
  env_chdir := fun _ => Ok tt;
  env_run := fun command =>
    if Str.startswith "git commit" command
    then Ok (proc 0 commit_stdout EmptyString)
    else Ok (proc 0 EmptyString EmptyString)
|}.

(** The same, with the answer of [subprocess.run] replaced. *)
Definition with_run (env : Env) (run : string -> result CompletedProcess)
  : Env := {|
  env_connect := env_connect env;
  env_find_prompt := env_find_prompt env;
  env_send_command_expect := env_send_command_expect env;
  env_send_command := env_send_command env;
  env_open := env_open env;
  env_write := env_write env;
  env_now := env_now env;
  env_chdir := env_chdir env;
  env_run := run
|}.

(** A device that refuses every connection. *)
Definition unreachable : Env := {|
  env_connect := fun _ => Raise (Exception "TCP connection to device failed");
  env_find_prompt := Ok ">";
  env_send_command_expect := fun _ _ => Ok ">";
  env_send_command := fun _ _ => Ok EmptyString;
  env_open := fun _ => Ok tt;
  env_write := fun _ _ => Ok tt;
  env_now := "2024-01-01 00:00:00.000000";
  env_chdir := fun _ => Ok tt;
  env_run := fun _ => Ok (proc 0 EmptyString EmptyString)
|}.

Definition world (dir : string) : World :=
  {| cwd := dir; files := ∅; sessions := 0; log := []; shell := [] |}.

End Sample.

(** ** Shape of the events of the git pipeline *)

Definition is_chdir (e : Event) : bool :=
  match e with EChdir _ => true | _ => false end.

Definition is_log (e : Event) : bool :=
  match e with ELog _ _ => true | _ => false end.

Definition is_subprocess (e : Event) : bool :=
  match e with ESubprocess _ => true | _ => false end.

(** What [except Exception as e] of the pipeline makes of the result of
    the [try] block: the logging call of line 126 and the new result. *)
Definition handled (r : result unit) : list Event * result unit :=
  match r with
  | Raise (Exception e) =>
      ([ELog ERROR ("Error committing and pushing: " +:+ e)], Ok tt)
  | _ => ([], r)
  end.

(** The log record of a process that did not exit with [0]. *)
Definition exit_log (command : string) (p : CompletedProcess) : list Event :=
  if returncode p =? 0 then []
  else [ELog ERROR (git_error_message command p)].

(** ** How events act on the world *)

(** The event is an [open] or a [write] of the script itself. *)
Definition touches_files (e : Event) : bool :=
  match e with EOpen _ | EWrite _ _ => true | _ => false end.

(** The subprocesses the events start, in order. *)
Definition commands (evs : list Event) : list string :=
  omap (fun e => match e with ESubprocess c => Some c | _ => None end) evs.

(** ** Leniency of the git pipeline *)

(** A transaction in which [git add] exits with 128 and the commit
    prints nothing: both later steps are still run. *)
Definition failing_git : Env :=
  Sample.with_run (Sample.fine "<R1>" EmptyString)
    (fun command =>
       if Str.startswith "git add" command
       then Ok (Sample.proc 128 EmptyString "fatal: not a git repository")
       else if Str.startswith "git commit" command
       then Ok (Sample.proc 1 EmptyString "error: commit failed")
       else Ok (Sample.proc 1 EmptyString "fatal: no upstream")).

(** *** [os.path.dirname(os.path.join(script_dir, pdir))] *)

Definition not_slash (c : ascii) : bool := negb (Path.is_slash c).

(** A directory path that does not end with a slash. *)
Definition clean_dir (dir : string) : bool :=
  match Str.last_char dir with
  | Some c => not_slash c
  | None => false
  end.

(** A file or directory name: not empty, no slash. *)
Definition clean_name (name : string) : bool :=
  negb (Str.is_empty name) && Str.all_chars not_slash name.

(** An environment in which starting a subprocess raises [OSError]. *)
Definition no_subprocess : Env :=
  Sample.with_run (Sample.fine "<R1>" EmptyString)
    (fun _ => Raise (Exception "[Errno 12] Cannot allocate memory")).

(** ** Shape of the events of one attempt *)

(** What the script sends to the device and reads from it. *)
Definition is_io (e : Event) : bool :=
  match e with
  | EFindPrompt | ESendCommandExpect _ _ | ESendCommand _ _ => true
  | _ => false
  end.

(** What an attempt does after the session: the write, the log records
    and the git pipeline. *)
Definition is_post (e : Event) : bool :=
  match e with
  | EOpen _ | EWrite _ _ | EChdir _ | ESubprocess _ | ELog _ _ => true
  | _ => false
  end.

(** ** The configuration writer (lines 80-82) *)

Definition written_path (e : Event) : option string :=
  match e with
  | EOpen path | EWrite path _ => Some path
  | _ => None
  end.

(** ** Pagination and fetch commands (lines 64-78) *)

Definition is_send (e : Event) : bool :=
  match e with
  | ESendCommandExpect _ _ | ESendCommand _ _ => true
  | _ => false
  end.

(** The commands sent to the device, in order. *)
Definition sent (evs : list Event) : list Event := List.filter is_send evs.

Definition confirm_no : Event := ESendCommandExpect "N" ">".

(** The pagination commands of lines 67-73. *)
Definition pagination (platform : string) : list Event :=
  if String.eqb platform "hp_comware" then
    [ESendCommandExpect "screen-length disable" ">"]
  else if String.eqb platform "huawei" then
    [ESendCommandExpect "screen-length 0 temporary" ">"]
  else if String.eqb platform "ruijie_os" then
    [ESendCommandExpect "terminal width 256" "#";
     ESendCommandExpect "terminal length 0" "#"]
  else [].

(** The fetch command of lines 75-78. *)
Definition fetch_command (platform : string) : Event :=
  if String.eqb platform "ruijie_os"
  then ESendCommand "show running-config" 1800
  else ESendCommand "display current" 1800.

(** What a session sends when every command is answered. *)
Definition dialogue (platform prompt : string) : list Event :=
  if Str.contains "Y/N" prompt
  then confirm_no :: pagination platform ++ [fetch_command platform]
  else [fetch_command platform].

(** ** The retry loop (lines 54-93) *)

Definition is_connect (e : Event) : bool :=
  match e with EConnect _ _ => true | _ => false end.

(** The number of attempts a trace holds: every attempt starts with one
    call of [ConnectHandler], and nothing else calls it. *)
Definition attempts (evs : list Event) : nat :=
  length (List.filter is_connect evs).

(** [str(e)] of the exception a result carries. *)
Definition message {A} (r : result A) : string :=
  match r with
  | Raise (Exception msg) | Raise (BaseException msg) => msg
  | Ok _ => EmptyString
  end.

(** The result is an exception that [except Exception] catches. *)
Definition caught {A} (r : result A) : Prop :=
  exists msg, r = Raise (Exception msg).

(** The events of one failed iteration: the attempt, then the handler. *)
Definition failed_iteration (body : M unit) (ip : string) (envs : nat -> Env)
    (retry_count : nat) : list Event :=
  fst (body (envs retry_count))
  ++ retry_handler ip retry_count (message (snd (body (envs retry_count)))).

(** *** Well-formed tasks *)

(** [e] can be the next event of a task in phase [ph]. *)
Definition legal (ph : Phase) (e : Event) : bool :=
  match ph, e with
  | Pending, SemAcquire => true
  | Pending, _ => false
  | Inside _, SemAcquire => false
  | Inside 0, SemRelease => true
  | Inside _, SemRelease => false
  | Inside 0, EConnect _ true => true
  | Inside _, EConnect _ true => false
  | Inside 1, EDisconnect => true
  | Inside _, EDisconnect => false
  | Inside _, _ => true
  | Done, _ => false
  end.

(** The events to come take a task in phase [ph] to the end of
    [backup_config]: the semaphore is entered once and left once, a
    session is opened only inside and when the task has none open, and
    closed before the semaphore is left. *)
Fixpoint wf (ph : Phase) (evs : list Event) : bool :=
  match evs with
  | [] => match ph with Done => true | _ => false end
  | e :: rest => legal ph e && wf (advance ph e) rest
  end.

Definition holding (t : Task) : nat :=
  match phase t with Inside _ => 1 | _ => 0 end.

Definition open_sessions (t : Task) : nat :=
  match phase t with Inside n => n | _ => 0 end.

(** The tasks inside [async with semaphore]. *)
Definition holders (ts : list Task) : nat := sum_list_with holding ts.

(** The sessions the tasks have open. *)
Definition in_flight (ts : list Task) : nat := sum_list_with open_sessions ts.

(** *** The semaphore bounds the sessions *)

(** The state of the loop agrees with where its tasks are: every task
    is well formed, the counter of the semaphore and the tasks inside
    it add up to the capacity, and the sessions open in the world are
    those of the tasks. *)
Record Inv (capacity : nat) (s : Loop) : Prop := {
  inv_wf : Forall (fun t => wf (phase t) (todo t) = true) (tasks s);
  inv_sem : (sem_value s + holders (tasks s) = capacity)%nat;
  inv_sessions : sessions (world s) = in_flight (tasks s)
}.

(** *** The tasks of [main] are well formed *)

(** Events that neither touch the semaphore nor open or close a
    session. *)
Definition neutral (e : Event) : bool :=
  match e with
  | SemAcquire | SemRelease | EDisconnect => false
  | EConnect _ established => negb established
  | _ => true
  end.

(** Inside the semaphore and with no session open, the events leave
    the task as they found it. *)
Definition transparent (evs : list Event) : Prop :=
  forall rest, wf (Inside 0) (evs ++ rest) = wf (Inside 0) rest.

(** *** A schedule, as a function: task [i] performs its next event *)

Definition fire (s : Loop) (i : nat) : Loop :=
  if cancelled s then s
  else if match running s with
          | None => true
          | Some j => Nat.eqb j i
          end
  then
    match tasks s !! i with
    | Some t =>
        match todo t with
        | [] => s
        | SemAcquire :: rest =>
            match sem_value s with
            | S v => perform s i t SemAcquire rest v
            | O => s
            end
        | SemRelease :: rest =>
            perform s i t SemRelease rest (S (sem_value s))
        | e :: rest => perform s i t e rest (sem_value s)
        end
    | None => s
    end
  else s.

Definition fire_all (order : list nat) (s : Loop) : Loop :=
  fold_left fire order s.

(** With preemption the thread can be taken from the running task. *)
Definition yield (s : Loop) : Loop :=
  if cancelled s then s
  else match running s with
       | Some _ => schedule s None
       | None => s
       end.

(** A schedule with preemption: [Some i] lets task [i] perform its next
    event, [None] takes the thread from the running task. *)
Definition play (moves : list (option nat)) (s : Loop) : Loop :=
  fold_left (fun s move =>
               match move with
               | Some i => fire s i
               | None => yield s
               end) moves s.

(** Two devices: one that refuses every connection and one that answers
    and asks for a confirmation. *)
Definition sample_rows : list (Row * (nat -> Env)) :=
  [ ({| row_ip := "10.0.0.1"; row_username := "admin"; row_password := "pw";
        row_platform := "huawei"; row_role := "core" |},
     fun _ => Sample.unreachable);
    ({| row_ip := "10.0.0.2"; row_username := "admin"; row_password := "pw";
        row_platform := "ruijie_os"; row_role := "edge" |},
     fun _ => Sample.fine "Change now? [Y/N]:"
                "nothing to commit, working tree clean") ].

Definition sample_start : Loop :=
  start MAX_CONCURRENT_BACKUPS
        (main_tasks "/opt/backup" "/opt/backup/xxx" sample_rows)
        (boot "/opt/backup" ∅).

(** With preemption: the second task has entered the semaphore,
    connected and read the prompt; then the first has entered the
    semaphore and failed to connect. *)
Definition sample_moves : list (option nat) :=
  [Some 1; Some 1; Some 1; None; Some 0; Some 0]%nat.

(** *** Under asyncio's scheduling the tasks run one after the other *)

(** Task numbers, most recent first, in which a task that has been
    followed by another never comes back. *)
Inductive serial : list nat -> Prop :=
  | serial_nil : serial []
  | serial_cons i l :
      serial l -> (i ∈ l -> head l = Some i) -> serial (i :: l).

Definition ids (s : Loop) : list nat := map fst (history s).

(** What asyncio's scheduling keeps true: a task that does not hold the
    thread is before or past its [async with] block; a task before it
    has performed nothing; the task that holds the thread has something
    to do and, if it has performed anything, performed the last event;
    and the history is serial. *)
Record Coop (s : Loop) : Prop := {
  coop_idle : cancelled s = false ->
    forall j t, tasks s !! j = Some t -> running s <> Some j ->
                phase t = Pending \/ phase t = Done;
  coop_fresh :
    forall j t, tasks s !! j = Some t -> phase t = Pending -> j ∉ ids s;
  coop_running : cancelled s = false ->
    forall i, running s = Some i ->
              (exists t, tasks s !! i = Some t /\ todo t <> [])
              /\ (i ∈ ids s -> head (rev (ids s)) = Some i);
  coop_serial : serial (rev (ids s))
}.

(** Both sample tasks run to their end, the first and then the second. *)
Definition sample_order : list nat :=
  replicate 17 0%nat ++ replicate 19 1%nat.

(** Two devices that answer at once. *)
Definition quick_rows : list (Row * (nat -> Env)) :=
  [ ({| row_ip := "10.0.0.1"; row_username := "admin"; row_password := "pw";
        row_platform := "huawei"; row_role := "core" |},
     fun _ => Sample.fine "<R1>" "nothing to commit, working tree clean");
    ({| row_ip := "10.0.0.2"; row_username := "admin"; row_password := "pw";
        row_platform := "huawei"; row_role := "edge" |},
     fun _ => Sample.fine "<R2>" "nothing to commit, working tree clean") ].

(** *** Every task performs its own events, and none is abandoned *)

(** Every task is at some point of the events of its own coroutine. *)
Record Settled (runs : list (list Event * result unit)) (s : Loop) : Prop := {
  settled_length : length (tasks s) = length runs;
  settled_trace :
    forall j t run,
      tasks s !! j = Some t -> runs !! j = Some run ->
      events_of j (history s) ++ todo t = fst run /\ outcome t = snd run
}.

(** The coroutine was interrupted by an exception that [except
    Exception] does not catch. *)
Definition interrupted {A} (r : result A) : bool :=
  match r with Raise (BaseException _) => true | _ => false end.

(** ** The current directory, as the kernel resolves it *)

(** The directories of the machine: [resolve fs d path] is the name the
    kernel has for the current directory (what [os.getcwd()] returns)
    after [os.chdir(path)] succeeded in a process whose current
    directory was [d].  It follows symbolic links and resolves [.],
    [..] and repeated or trailing slashes. *)
Record FileSystem : Type := {
  resolve : string -> string -> string
}.

(** The current directory after the events, for a process that starts
    in [d]. *)
Fixpoint cwd_after (fs : FileSystem) (d : string) (evs : list Event)
  : string :=
  match evs with
  | [] => d
  | EChdir path :: rest => cwd_after fs (resolve fs d path) rest
  | _ :: rest => cwd_after fs d rest
  end.

(** The resolution that takes every name as it is written, the one of
    [World]: right where the names are normalised and no component of
    them is a symbolic link. *)
Definition lexical : FileSystem := {| resolve := chdir_target |}.

(** The kernel knows the directory under the name [dir] itself: the
    path is absolute and normalised and no component of it is a
    symbolic link; and the parent of the directory is the lexical one. *)
Definition physical (fs : FileSystem) (dir : string) : Prop :=
  (forall d, resolve fs d dir = dir)
  /\ resolve fs dir ".." = Path.dirname dir.

(** ** Words for the properties of the rest of the script *)

(** A character other than [sep]. *)
Definition differs (sep : ascii) (c : ascii) : bool := negb (Ascii.eqb c sep).

(** The number of occurrences of [sep] in [s]. *)
Fixpoint occurrences (sep : ascii) (s : string) : nat :=
  match s with
  | EmptyString => 0
  | String c s' => ((if Ascii.eqb c sep then 1 else 0) + occurrences sep s')%nat
  end.

(** Every subprocess of [evs], when the events start in directory [d],
    runs in [pro_dir]. *)
Fixpoint in_repo (pro_dir d : string) (evs : list Event) : bool :=
  match evs with
  | [] => true
  | EChdir path :: rest => in_repo pro_dir (chdir_target d path) rest
  | ESubprocess _ :: rest => String.eqb d pro_dir && in_repo pro_dir d rest
  | _ :: rest => in_repo pro_dir d rest
  end.

(** Neither a change of directory nor a subprocess. *)
Definition stays (e : Event) : bool := negb (is_chdir e || is_subprocess e).

(** What asyncio's scheduling keeps true of the directory of git: every
    subprocess so far ran in [pro_dir]; a task that has not started
    will run its own in [pro_dir] wherever it starts; the task that
    holds the thread will run the ones it has left in [pro_dir]. *)
Record Repo (pro_dir : string) (s : Loop) : Prop := {
  repo_shell : Forall (fun dc => fst dc = pro_dir) (shell (world s));
  repo_pending :
    forall j t, tasks s !! j = Some t -> phase t = Pending ->
                forall d, in_repo pro_dir d (todo t) = true;
  repo_running : cancelled s = false ->
    forall i t, running s = Some i -> tasks s !! i = Some t ->
                in_repo pro_dir (cwd (world s)) (todo t) = true
}.

(** The current directory of the process in state [s], as the kernel
    names it, when it was [home] at the start of [asyncio.gather]. *)
Definition here (fs : FileSystem) (home : string) (s : Loop) : string :=
  cwd_after fs home (map snd (history s)).

(** What asyncio's scheduling keeps true of the current directory,
    when every [os.chdir('..')] succeeds: a task that has not started
    will end in [home] if it starts there, the task that holds the
    thread will end there, and the process is there whenever no task
    holds the thread or the task that holds it has not started. *)
Record Home (fs : FileSystem) (home : string) (s : Loop) : Prop := {
  home_pending :
    forall j t, tasks s !! j = Some t -> phase t = Pending ->
                cwd_after fs home (todo t) = home;
  home_running : cancelled s = false ->
    forall i t, running s = Some i -> tasks s !! i = Some t ->
                cwd_after fs (here fs home s) (todo t) = home;
  home_free : cancelled s = false -> running s = None ->
              here fs home s = home;
  home_fresh : cancelled s = false ->
    forall i t, running s = Some i -> tasks s !! i = Some t ->
                phase t = Pending -> here fs home s = home
}.

(** A device that refuses the first connection and answers the second. *)
Definition second_time (k : nat) : Env :=
  match k with
  | O => Sample.unreachable
  | _ => Sample.fine "<R1>" "nothing to commit, working tree clean"
  end.

(** A disk that accepts [open] and refuses the write. *)
Definition disk_full : Env := {|
  env_connect := fun _ => Ok tt;
  env_find_prompt := Ok "<R1>";
  env_send_command_expect := fun _ _ => Ok ">";
  env_send_command := fun _ _ => Ok "sysname R1";
  env_open := fun _ => Ok tt;
  env_write := fun _ _ => Raise (Exception "[Errno 28] No space left on device");
  env_now := "2024-01-01 00:00:00.000000";
  env_chdir := fun _ => Ok tt;
  env_run := fun _ => Ok (Sample.proc 0 EmptyString EmptyString)
|}.

(** The names of the columns [main] reads from a row. *)
Definition fields : list string :=
  ["ip"; "username"; "password"; "platform"; "role"].

(** The records of the script among the events, as [logging] receives
    them. *)
Definition records (evs : list Event) : list (Level * string) :=
  omap (fun e => match e with ELog l m => Some (l, m) | _ => None end) evs.

(** The record is a warning or an error. *)
Definition serious (record : Level * string) : bool :=
  match fst record with INFO => false | _ => true end.

(** A git that clones and commits, and a device that answers. *)
Definition committing : Env :=
  Sample.fine "<R1>"
    ("[master 1a2b3c4] backup huawei-core-10.0.0.1-config.txt 2024-01-01"
     +:+ String Str.newline " 1 file changed, 2 insertions(+)").

(** A git whose clone fails. *)
Definition no_remote : Env :=
  Sample.with_run (Sample.fine "<R1>" EmptyString)
    (fun _ => Ok (Sample.proc 128 EmptyString
                    "fatal: repository not found")).

(** The lines of a table whose second device has no role, and those of
    a table without the [role] column. *)
Definition short_line : list (list string) :=
  [ ["ip"; "username"; "password"; "platform"; "role"];
    ["10.0.0.1"; "admin"; "pw"; "huawei"; "core"];
    [];
    ["10.0.0.2"; "admin"; "pw"; "huawei"] ].

Definition no_role_column : list (list string) :=
  [ ["ip"; "username"; "password"; "platform"];
    ["10.0.0.1"; "admin"; "pw"; "huawei"];
    ["10.0.0.2"; "admin"; "pw"; "huawei"] ].

(** A [git commit] that prints the acknowledgment and exits with 1. *)
Definition rejected_but_acknowledged (command : string)
  : result CompletedProcess :=
  if Str.startswith "git commit" command then
    Ok (Sample.proc 1
          ("[master 1a2b3c4] backup huawei-core-10.0.0.1-config.txt 2024-01-01"
           +:+ String Str.newline " 1 file changed, 2 insertions(+)")
          "error: hook declined")
  else Ok (Sample.proc 0 EmptyString EmptyString).

(** * Part III: facts *)

(** ** Python string operations used by the script *)

Example strip_example :
  Str.strip (String Str.newline "  ab c " +:+ String Str.newline EmptyString)
  = "ab c".
Proof. reflexivity. Qed.

Example sub_newlines_example :
  Str.sub_newlines
    ("a" +:+ String Str.newline (String Str.newline "b")
         +:+ String Str.newline "c")
  = "a,b,c".
Proof. reflexivity. Qed.

Example contains_example :
  Str.contains "to commit" "nothing to commit, working tree clean" = true
  /\ Str.contains "xyz" "nothing to commit" = false
  /\ Str.contains EmptyString EmptyString = true.
Proof. repeat split. Qed.

(** ** Facts about the string operations *)

Module StrFacts.

Import Str.

Lemma app_cons c s t : String c s +:+ t = String c (s +:+ t).
Proof. reflexivity. Qed.

Lemma app_nil_r s : s +:+ EmptyString = s.
Proof. induction s as [|c s IH]; [reflexivity|]. rewrite app_cons, IH. reflexivity. Qed.

Lemma app_assoc s t u : (s +:+ t) +:+ u = s +:+ t +:+ u.
Proof.
  induction s as [|c s IH]; [reflexivity|].
  rewrite !app_cons, IH. reflexivity.
Qed.

Lemma app_is_empty s t : is_empty (s +:+ t) = is_empty s && is_empty t.
Proof. destruct s; reflexivity. Qed.

Lemma Infix_refl s : Infix s s.
Proof. exists EmptyString, EmptyString. rewrite app_nil_r. reflexivity. Qed.

Lemma Infix_empty s : Infix EmptyString s.
Proof. exists EmptyString, s. reflexivity. Qed.

Lemma Infix_cons n c s : Infix n s -> Infix n (String c s).
Proof. intros (pre & suf & ->). exists (String c pre), suf. reflexivity. Qed.

Lemma Infix_app_l n a s : Infix n s -> Infix n (a +:+ s).
Proof.
  intros H. induction a as [|c a IH]; [exact H|].
  rewrite app_cons. apply Infix_cons, IH.
Qed.

Lemma Infix_app_r n s b : Infix n s -> Infix n (s +:+ b).
Proof.
  intros (pre & suf & ->). exists pre, (suf +:+ b).
  rewrite !app_assoc. reflexivity.
Qed.

Lemma startswith_spec p s :
  startswith p s = true <-> exists suf, s = p +:+ suf.
Proof.
  revert s. induction p as [|a p IH]; intros s; simpl.
  - split; [intros _; exists s; reflexivity | reflexivity].
  - destruct s as [|b s].
    + split; [discriminate | intros [suf H]; discriminate H].
    + rewrite andb_true_iff, IH. split.
      * intros [Hab [suf ->]]. apply Ascii.eqb_eq in Hab as ->.
        exists suf. reflexivity.
      * intros [suf H]. rewrite app_cons in H. injection H as -> ->.
        split; [apply Ascii.eqb_refl | exists suf; reflexivity].
Qed.

(** The [in] operator of Python decides substring occurrence. *)
Lemma contains_Infix needle s :
  contains needle s = true <-> Infix needle s.
Proof.
  split.
  - induction s as [|c s IH]; simpl; rewrite orb_true_iff.
    + intros [H | H]; [|discriminate].
      apply startswith_spec in H as [suf ->].
      exists EmptyString, suf. reflexivity.
    + intros [H | H].
      * apply startswith_spec in H as [suf ->].
        exists EmptyString, suf. reflexivity.
      * apply Infix_cons, IH, H.
  - intros (pre & suf & ->).
    induction pre as [|c pre IH].
    + assert (startswith needle (needle +:+ suf) = true) as H
        by (apply startswith_spec; exists suf; reflexivity).
      destruct (needle +:+ suf); simpl in *; rewrite H; reflexivity.
    + rewrite app_cons. simpl. rewrite IH. apply orb_true_r.
Qed.

Lemma contains_false_Infix needle s :
  contains needle s = false <-> ~ Infix needle s.
Proof.
  rewrite <- contains_Infix. destruct (contains needle s); split; easy.
Qed.

(** *** [strip] keeps every occurrence of a word that neither begins
    nor ends with white space *)

Lemma lstrip_suffix s : exists ws, s = ws +:+ lstrip s.
Proof.
  induction s as [|c s [ws IH]]; [exists EmptyString; reflexivity|].
  simpl. destruct (isspace c).
  - exists (String c ws). rewrite app_cons, <- IH. reflexivity.
  - exists EmptyString. reflexivity.
Qed.

Lemma rstrip_prefix s : exists ws, s = rstrip s +:+ ws.
Proof.
  induction s as [|c s [ws IH]]; [exists EmptyString; reflexivity|].
  simpl. destruct (isspace c && is_empty (rstrip s)).
  - exists (String c s). reflexivity.
  - exists ws. rewrite app_cons, <- IH. reflexivity.
Qed.

Lemma strip_Infix_inv n s : Infix n (strip s) -> Infix n s.
Proof.
  unfold strip. intros H.
  destruct (lstrip_suffix s) as [ws1 E1].
  destruct (rstrip_prefix (lstrip s)) as [ws2 E2].
  rewrite E1, E2. apply Infix_app_l, Infix_app_r, H.
Qed.

Lemma lstrip_app_word pre n suf c :
  first_char n = Some c -> isspace c = false ->
  exists pre', lstrip (pre +:+ n +:+ suf) = pre' +:+ n +:+ suf.
Proof.
  intros Hc Hsp. induction pre as [|a pre [pre' IH]].
  - exists EmptyString. destruct n as [|c' n]; [discriminate|].
    injection Hc as ->. simpl. rewrite !app_cons. simpl. rewrite Hsp.
    reflexivity.
  - rewrite app_cons. simpl. destruct (isspace a).
    + exists pre'. exact IH.
    + exists (String a pre). reflexivity.
Qed.

Lemma rstrip_word_app n suf c :
  last_char n = Some c -> isspace c = false ->
  rstrip (n +:+ suf) = n +:+ rstrip suf.
Proof.
  intros Hc Hsp. induction n as [|a n IH]; [discriminate|].
  rewrite !app_cons. simpl. destruct n as [|b n].
  - injection Hc as ->. rewrite Hsp. reflexivity.
  - rewrite IH by exact Hc. rewrite app_cons. simpl.
    rewrite andb_false_r. reflexivity.
Qed.

Lemma rstrip_app_nonempty pre x :
  is_empty (rstrip x) = false -> rstrip (pre +:+ x) = pre +:+ rstrip x.
Proof.
  intros Hx. induction pre as [|a pre IH]; [reflexivity|].
  rewrite !app_cons. simpl. rewrite IH, app_is_empty, Hx.
  rewrite !andb_false_r. reflexivity.
Qed.

Lemma strip_Infix n s c d :
  first_char n = Some c -> isspace c = false ->
  last_char n = Some d -> isspace d = false ->
  Infix n s -> Infix n (strip s).
Proof.
  intros Hc Hcs Hd Hds (pre & suf & ->). unfold strip.
  destruct (lstrip_app_word pre n suf c Hc Hcs) as [pre' ->].
  assert (is_empty (rstrip (n +:+ suf)) = false) as Hne.
  { rewrite (rstrip_word_app n suf d Hd Hds), app_is_empty.
    destruct n; [discriminate|reflexivity]. }
  rewrite (rstrip_app_nonempty pre' _ Hne).
  rewrite (rstrip_word_app n suf d Hd Hds).
  exists pre', (rstrip suf). reflexivity.
Qed.

(** *** [sub_newlines] keeps every occurrence of a word without line
    feed, and creates no occurrence of a word without comma *)

Lemma sub_newlines_word_app n b :
  all_chars not_newline n = true ->
  sub_newlines (n +:+ b) = n +:+ sub_newlines b.
Proof.
  induction n as [|a n IH]; [reflexivity|]. simpl.
  intros [Ha Hn]%andb_true_iff. rewrite !app_cons. simpl.
  unfold not_newline in Ha. apply negb_true_iff in Ha. rewrite Ha.
  rewrite IH by exact Hn. reflexivity.
Qed.

Lemma starts_with_newline_app pre x :
  starts_with_newline x = false ->
  starts_with_newline (pre +:+ x) = starts_with_newline pre.
Proof. intros Hx. destruct pre; [exact Hx | reflexivity]. Qed.

Lemma sub_newlines_app pre x :
  starts_with_newline x = false ->
  sub_newlines (pre +:+ x) = sub_newlines pre +:+ sub_newlines x.
Proof.
  intros Hx. induction pre as [|a pre IH]; [reflexivity|].
  rewrite app_cons. simpl. rewrite starts_with_newline_app by exact Hx.
  rewrite IH.
  destruct (Ascii.eqb a newline), (starts_with_newline pre); reflexivity.
Qed.

Lemma sub_newlines_Infix n s :
  all_chars not_newline n = true -> Infix n s -> Infix n (sub_newlines s).
Proof.
  intros Hn (pre & suf & ->).
  destruct n as [|a n]; [apply Infix_empty|].
  rewrite sub_newlines_app.
  - rewrite sub_newlines_word_app by exact Hn.
    exists (sub_newlines pre), (sub_newlines suf). reflexivity.
  - simpl in Hn. apply andb_true_iff in Hn as [Ha _].
    unfold not_newline in Ha. apply negb_true_iff in Ha.
    rewrite app_cons. simpl. rewrite Ha. reflexivity.
Qed.

Lemma sub_newlines_newline s :
  exists t, sub_newlines (String newline s) = String comma t.
Proof.
  induction s as [|c s [t IH]]; [exists EmptyString; reflexivity|].
  change (sub_newlines (String newline (String c s)))
    with (if starts_with_newline (String c s)
          then sub_newlines (String c s)
          else String comma (sub_newlines (String c s))).
  simpl starts_with_newline.
  destruct (Ascii.eqb_spec c newline) as [->|Hc].
  - exists t. exact IH.
  - eexists. reflexivity.
Qed.

Lemma sub_newlines_prefix_inv n s suf :
  all_chars not_comma n = true ->
  sub_newlines s = n +:+ suf -> exists suf', s = n +:+ suf'.
Proof.
  revert s. induction n as [|a n IH]; intros s Hn H.
  - exists s. reflexivity.
  - simpl in Hn. apply andb_true_iff in Hn as [Ha Hn].
    unfold not_comma in Ha. apply negb_true_iff, Ascii.eqb_neq in Ha.
    rewrite app_cons in H.
    destruct s as [|c s]; [discriminate H|].
    destruct (Ascii.eqb_spec c newline) as [->|Hc].
    + destruct (sub_newlines_newline s) as [t Ht].
      rewrite Ht in H. injection H as E _. congruence.
    + simpl in H. apply Ascii.eqb_neq in Hc. rewrite Hc in H.
      injection H as -> H.
      destruct (IH s Hn H) as [suf' ->]. exists suf'. reflexivity.
Qed.

Lemma sub_newlines_Infix_inv n s :
  all_chars not_comma n = true -> Infix n (sub_newlines s) -> Infix n s.
Proof.
  intros Hn (pre & suf & H). revert pre H.
  induction s as [|c s IH]; intros pre H.
  - destruct pre; [|discriminate H].
    destruct n; [apply Infix_empty | discriminate H].
  - assert (forall pre', sub_newlines s = pre' +:+ n +:+ suf ->
                         Infix n (String c s)) as Hrec
      by (intros pre' E; apply Infix_cons, (IH pre' E)).
    destruct pre as [|p pre].
    + destruct (sub_newlines_prefix_inv n (String c s) suf Hn H)
        as [suf' ->].
      exists EmptyString, suf'. reflexivity.
    + simpl in H. rewrite app_cons in H.
      destruct (Ascii.eqb c newline).
      * destruct (starts_with_newline s).
        -- apply (Hrec (String p pre)). exact H.
        -- injection H as _ H. apply (Hrec pre H).
      * injection H as _ H. apply (Hrec pre H).
Qed.

Lemma normalise_Infix n s :
  plain_word n = true ->
  Infix n (sub_newlines (strip s)) <-> Infix n s.
Proof.
  unfold plain_word. rewrite !andb_true_iff.
  intros [[[Hnl Hco] Hf] Hl].
  destruct (first_char n) as [c|] eqn:Ec; [|discriminate].
  destruct (last_char n) as [d|] eqn:Ed; [|discriminate].
  apply negb_true_iff in Hf, Hl. split.
  - intros H. apply strip_Infix_inv, (sub_newlines_Infix_inv n _ Hco H).
  - intros H. apply (sub_newlines_Infix n _ Hnl).
    apply (strip_Infix n s c d Ec Hf Ed Hl H).
Qed.

End StrFacts.

(** ** The environment the events act on *)

Example dirname_examples :
  Path.dirname "/opt/backup/xxx" = "/opt/backup"
  /\ Path.dirname "/xxx" = "/"
  /\ Path.dirname "/" = "/".
Proof. repeat split. Qed.

(** ** Shape of the events of the git pipeline *)

Lemma git_commit_and_push_unfold filename pro_dir env :
  git_commit_and_push filename pro_dir env =
  match env_chdir env pro_dir with
  | Raise e => ([], Raise e)
  | Ok _ =>
      let '(es, rs) := git_steps filename env in
      let '(hl, rh) := handled rs in
      match env_chdir env ".." with
      | Ok _ => (EChdir pro_dir :: es ++ hl ++ [EChdir ".."], rh)
      | Raise e => (EChdir pro_dir :: es ++ hl, Raise e)
      end
  end.
Proof.
  unfold git_commit_and_push, bind, os_chdir, syscall, try_finally,
    try_except, logging_error, emit.
  destruct (env_chdir env pro_dir) as [[]|e]; [|reflexivity].
  destruct (git_steps filename env) as [es [[]|[msg|msg]]]; simpl;
    destruct (env_chdir env "..") as [[]|e']; simpl;
    rewrite ?app_nil_r, <- ?app_assoc; reflexivity.
Qed.

(** The [try] block when the stage and the commit processes complete,
    whatever their exit codes and output. *)
Lemma git_steps_completed filename env pa pc :
  env_run env (add_command filename) = Ok pa ->
  env_run env (commit_command filename (env_now env)) = Ok pc ->
  git_steps filename env =
  ( ESubprocess (add_command filename)
      :: exit_log (add_command filename) pa
      ++ ESubprocess (commit_command filename (env_now env))
      :: log_outcome filename (classify filename (commit_result (stdout pc)))
      :: ESubprocess push_command
      :: match env_run env push_command with
         | Ok pp => exit_log push_command pp
         | Raise _ => []
         end,
    match env_run env push_command with
    | Ok _ => Ok tt
    | Raise e => Raise e
    end ).
Proof.
  intros Ha Hc.
  unfold git_steps, bind, datetime_now, subprocess_run, call, logging_error,
    emit, ret, exit_log.
  rewrite Ha, Hc.
  destruct (env_run env push_command) as [pp|e];
    destruct (returncode pa =? 0); simpl;
    try destruct (returncode pp =? 0); reflexivity.
Qed.

(** Every event of the [try] block is a subprocess or a log record. *)
Lemma git_steps_events filename env :
  Forall (fun e => is_subprocess e || is_log e = true)
         (fst (git_steps filename env)).
Proof.
  unfold git_steps, bind, datetime_now, subprocess_run, call, logging_error,
    emit, ret.
  destruct (env_run env (add_command filename)) as [pa|e];
    [|repeat constructor].
  destruct (env_run env (commit_command filename (env_now env))) as [pc|e];
    [|destruct (returncode pa =? 0); repeat constructor].
  destruct (env_run env push_command) as [pp|e];
    destruct (returncode pa =? 0); simpl;
    try destruct (returncode pp =? 0); simpl;
    repeat constructor;
    destruct (classify _ _); reflexivity.
Qed.

(** ** How events act on the world *)

Lemma exec_app w evs1 evs2 : exec w (evs1 ++ evs2) = exec (exec w evs1) evs2.
Proof. apply fold_left_app. Qed.

Lemma exec_cons w e evs : exec w (e :: evs) = exec (apply_event w e) evs.
Proof. reflexivity. Qed.

Lemma exec_cwd w evs :
  Forall (fun e => is_chdir e = false) evs -> cwd (exec w evs) = cwd w.
Proof.
  intros H. revert w. induction H as [|e evs He _ IH]; intros w.
  - reflexivity.
  - rewrite exec_cons, IH. destruct e; try discriminate He; try reflexivity.
    simpl. destruct established; reflexivity.
Qed.

Lemma exec_files w evs :
  Forall (fun e => touches_files e = false) evs -> files (exec w evs) = files w.
Proof.
  intros H. revert w. induction H as [|e evs He _ IH]; intros w.
  - reflexivity.
  - rewrite exec_cons, IH. destruct e; try discriminate He; try reflexivity.
    simpl. destruct established; reflexivity.
Qed.

Lemma exec_shell_no_chdir w evs :
  Forall (fun e => is_chdir e = false) evs ->
  shell (exec w evs) = shell w ++ map (fun c => (cwd w, c)) (commands evs).
Proof.
  intros H. revert w. induction H as [|e evs He _ IH]; intros w.
  - simpl. rewrite app_nil_r. reflexivity.
  - rewrite exec_cons, IH.
    destruct e; try discriminate He; simpl;
      try reflexivity.
    + destruct established; reflexivity.
    + rewrite <- app_assoc. reflexivity.
Qed.

Lemma absolute_not_dotdot path :
  Str.startswith "/" path = true -> String.eqb path ".." = false.
Proof.
  destruct path as [|c path]; [discriminate|]. intros H.
  change (Ascii.eqb "/" c && Str.startswith EmptyString path = true) in H.
  apply andb_true_iff in H as [H _]. apply Ascii.eqb_eq in H as <-.
  reflexivity.
Qed.

Lemma chdir_target_absolute dir path :
  Str.startswith "/" path = true -> chdir_target dir path = path.
Proof.
  intros H. unfold chdir_target, os_path_join.
  rewrite (absolute_not_dotdot path H), H. reflexivity.
Qed.

Lemma steps_and_handler_no_chdir filename env :
  Forall (fun e => is_chdir e = false)
         (fst (git_steps filename env)
          ++ fst (handled (snd (git_steps filename env)))).
Proof.
  apply Forall_app. split.
  - eapply Forall_impl; [apply git_steps_events|].
    intros [] H; try discriminate H; reflexivity.
  - destruct (snd (git_steps filename env)) as [|[e|e]]; repeat constructor.
Qed.

(** Every event of the pipeline is a change of directory, a subprocess
    or a log record. *)
Lemma git_commit_and_push_kinds filename pro_dir env :
  Forall (fun e => is_chdir e || is_subprocess e || is_log e = true)
         (fst (git_commit_and_push filename pro_dir env)).
Proof.
  rewrite git_commit_and_push_unfold.
  destruct (env_chdir env pro_dir) as [[]|e]; [|constructor].
  pose proof (git_steps_events filename env) as Hs.
  destruct (git_steps filename env) as [es rs]. simpl in Hs.
  assert (Forall (fun e => is_chdir e || is_subprocess e || is_log e = true)
                 es) as Hes.
  { eapply Forall_impl; [exact Hs|].
    intros [] Hx; try discriminate Hx; reflexivity. }
  assert (Forall (fun e => is_chdir e || is_subprocess e || is_log e = true)
                 (fst (handled rs))) as Hh.
  { destruct rs as [|[e|e]]; repeat constructor. }
  destruct (handled rs) as [hl rh]. simpl in Hh.
  destruct (env_chdir env "..") as [[]|e]; simpl;
    (constructor; [reflexivity|]); rewrite ?Forall_app; repeat split;
    try assumption; repeat constructor.
Qed.

Lemma git_commit_and_push_files filename pro_dir env w :
  files (exec w (fst (git_commit_and_push filename pro_dir env))) = files w.
Proof.
  apply exec_files. eapply Forall_impl; [apply git_commit_and_push_kinds|].
  intros [] H; try discriminate H; reflexivity.
Qed.

(** ** The commit step's classification *)

Lemma classify_NoChange filename text :
  classify filename text = NoChange <-> Str.Infix "nothing to commit" text.
Proof.
  unfold classify. rewrite <- StrFacts.contains_Infix.
  destruct (Str.contains "nothing to commit" text); [easy|].
  destruct (Str.contains ("backup " +:+ filename) text); easy.
Qed.

Lemma classify_Committed filename text :
  classify filename text = Committed <->
  ~ Str.Infix "nothing to commit" text
  /\ Str.Infix ("backup " +:+ filename) text.
Proof.
  unfold classify.
  rewrite <- StrFacts.contains_false_Infix, <- StrFacts.contains_Infix.
  destruct (Str.contains "nothing to commit" text); [easy|].
  destruct (Str.contains ("backup " +:+ filename) text); easy.
Qed.

Lemma classify_Failed filename text :
  classify filename text = Failed <->
  ~ Str.Infix "nothing to commit" text
  /\ ~ Str.Infix ("backup " +:+ filename) text.
Proof.
  unfold classify. rewrite <- !StrFacts.contains_false_Infix.
  destruct (Str.contains "nothing to commit" text); [easy|].
  destruct (Str.contains ("backup " +:+ filename) text); easy.
Qed.

(** C4. The commit step classifies the text of the commit process, as
    line 109 normalises it ([commit_result]): [NoChange] exactly when the
    text contains the words nothing to commit; otherwise [Committed]
    exactly when it contains [backup] followed by the file name;
    otherwise [Failed].  The three cases exclude each other and cover
    every text, and the pipeline logs the one record of that outcome
    right after the commit process.  The normalisation neither hides nor
    creates the words nothing to commit, and the same holds of the
    acknowledgment when the file name has no comma and no line feed. *)
Theorem commit_classification (filename commit_stdout : string) :
  let text := commit_result commit_stdout in
  (classify filename text = NoChange <-> Str.Infix "nothing to commit" text)
  /\ (classify filename text = Committed <->
      ~ Str.Infix "nothing to commit" text
      /\ Str.Infix ("backup " +:+ filename) text)
  /\ (classify filename text = Failed <->
      ~ Str.Infix "nothing to commit" text
      /\ ~ Str.Infix ("backup " +:+ filename) text)
  /\ (Str.Infix "nothing to commit" text <->
      Str.Infix "nothing to commit" commit_stdout)
  /\ (Str.plain_word ("backup " +:+ filename) = true ->
      (Str.Infix ("backup " +:+ filename) text <->
       Str.Infix ("backup " +:+ filename) commit_stdout))
  /\ (forall env pa pc,
        env_run env (add_command filename) = Ok pa ->
        env_run env (commit_command filename (env_now env)) = Ok pc ->
        stdout pc = commit_stdout ->
        exists before after,
          fst (git_steps filename env) =
          before
          ++ ESubprocess (commit_command filename (env_now env))
          :: log_outcome filename (classify filename text)
          :: ESubprocess push_command :: after).
Proof.
  cbv zeta.
  split; [apply classify_NoChange|].
  split; [apply classify_Committed|].
  split; [apply classify_Failed|].
  split; [apply StrFacts.normalise_Infix; reflexivity|].
  split; [apply StrFacts.normalise_Infix|].
  - intros env pa pc Ha Hc <-.
    rewrite (git_steps_completed filename env pa pc Ha Hc). simpl.
    exists (ESubprocess (add_command filename)
              :: exit_log (add_command filename) pa).
    eexists. rewrite <- app_comm_cons. reflexivity.
Qed.

Example classify_examples :
  let f := "huawei-core-10.0.0.1-config.txt" in
  classify f (commit_result
                ("On branch master" +:+ String Str.newline
                   "nothing to commit, working tree clean"
                 +:+ String Str.newline EmptyString)) = NoChange
  /\ classify f (commit_result
                   ("[master 1a2b3c4] backup huawei-core-10.0.0.1-config.txt 2024-01-01"
                    +:+ String Str.newline " 1 file changed, 2 insertions(+)"))
     = Committed
  /\ classify f (commit_result EmptyString) = Failed.
Proof. repeat split. Qed.

(** ** Leniency of the git pipeline *)

(** C5. When the stage process completes, with any exit code, the commit
    process is run next (after the error record of a non-zero exit); when
    the commit process completes, with any output and so any outcome,
    [Failed] included, the push process is run right after the outcome
    is logged.  Nothing is run after the push: what follows is the
    record of what the push answered and the change to the parent
    directory.  So the commands of the pipeline are exactly [git add],
    [git commit] and [git push], whatever they answer, and the script
    opens, writes and removes no file in it. *)
Theorem git_pipeline_lenient (filename pro_dir : string) (env : Env)
    (pa pc : CompletedProcess) :
  env_chdir env pro_dir = Ok tt ->
  env_run env (add_command filename) = Ok pa ->
  env_run env (commit_command filename (env_now env)) = Ok pc ->
  let evs := fst (git_commit_and_push filename pro_dir env) in
  evs =
  EChdir pro_dir
  :: ESubprocess (add_command filename)
  :: exit_log (add_command filename) pa
  ++ ESubprocess (commit_command filename (env_now env))
  :: log_outcome filename (classify filename (commit_result (stdout pc)))
  :: ESubprocess push_command
  :: match env_run env push_command with
     | Ok pp => exit_log push_command pp
     | Raise (Exception e) =>
         [ELog ERROR ("Error committing and pushing: " +:+ e)]
     | Raise (BaseException _) => []
     end
  ++ match env_chdir env ".." with
     | Ok _ => [EChdir ".."]
     | Raise _ => []
     end
  /\ commands evs = [add_command filename;
                     commit_command filename (env_now env);
                     push_command]
  /\ (returncode pa <> 0 ->
      exit_log (add_command filename) pa
      = [ELog ERROR (git_error_message (add_command filename) pa)])
  /\ Forall (fun e => touches_files e = false) evs.
Proof.
  intros Hcd Ha Hc evs.
  assert (evs =
          EChdir pro_dir
          :: ESubprocess (add_command filename)
          :: exit_log (add_command filename) pa
          ++ ESubprocess (commit_command filename (env_now env))
          :: log_outcome filename
               (classify filename (commit_result (stdout pc)))
          :: ESubprocess push_command
          :: match env_run env push_command with
             | Ok pp => exit_log push_command pp
             | Raise (Exception e) =>
                 [ELog ERROR ("Error committing and pushing: " +:+ e)]
             | Raise (BaseException _) => []
             end
          ++ match env_chdir env ".." with
             | Ok _ => [EChdir ".."]
             | Raise _ => []
             end) as Hevs.
  { subst evs. rewrite git_commit_and_push_unfold, Hcd.
    rewrite (git_steps_completed filename env pa pc Ha Hc).
    destruct (env_run env push_command) as [pp|[e|e]];
      destruct (env_chdir env "..") as [[]|e'];
      cbn [handled fst snd app];
      rewrite <- ?app_assoc, <- ?app_comm_cons, ?app_nil_r; reflexivity. }
  split; [exact Hevs|]. split; [|split].
  - rewrite Hevs. unfold exit_log.
    destruct (classify filename (commit_result (stdout pc)));
      destruct (returncode pa =? 0);
      destruct (env_run env push_command) as [pp|[e|e]];
      try destruct (returncode pp =? 0);
      destruct (env_chdir env "..") as [[]|e']; reflexivity.
  - intros Hrc. unfold exit_log.
    destruct (Z.eqb_spec (returncode pa) 0); [contradiction | reflexivity].
  - subst evs. eapply Forall_impl; [apply git_commit_and_push_kinds|].
    intros e He. now destruct e.
Qed.

Lemma git_pipeline_lenient_witness :
  let env := failing_git in
  let pa := Sample.proc 128 EmptyString "fatal: not a git repository" in
  let evs := fst (git_commit_and_push "f.txt" "/opt/backup/xxx" env) in
  evs =
  EChdir "/opt/backup/xxx"
  :: ESubprocess (add_command "f.txt")
  :: exit_log (add_command "f.txt") pa
  ++ ESubprocess (commit_command "f.txt" (env_now env))
  :: log_outcome "f.txt"
       (classify "f.txt" (commit_result EmptyString))
  :: ESubprocess push_command
  :: match env_run env push_command with
     | Ok pp => exit_log push_command pp
     | Raise (Exception e) =>
         [ELog ERROR ("Error committing and pushing: " +:+ e)]
     | Raise (BaseException _) => []
     end
  ++ match env_chdir env ".." with
     | Ok _ => [EChdir ".."]
     | Raise _ => []
     end
  /\ commands evs = [add_command "f.txt";
                     commit_command "f.txt" (env_now env);
                     push_command]
  /\ (returncode pa <> 0 ->
      exit_log (add_command "f.txt") pa
      = [ELog ERROR (git_error_message (add_command "f.txt") pa)])
  /\ Forall (fun e => touches_files e = false) evs.
Proof.
  exact (git_pipeline_lenient "f.txt" "/opt/backup/xxx" failing_git
           (Sample.proc 128 EmptyString "fatal: not a git repository")
           (Sample.proc 1 EmptyString "error: commit failed")
           eq_refl eq_refl eq_refl).
Defined.

(** The pipeline with a stage, a commit and a push that all fail: the
    three commands and nothing else. *)
Example failing_git_runs_three_commands :
  git_commit_and_push "f.txt" "/opt/backup/xxx" failing_git
  = ([EChdir "/opt/backup/xxx";
      ESubprocess "git add f.txt";
      ELog ERROR
        (git_error_message "git add f.txt"
           (Sample.proc 128 EmptyString "fatal: not a git repository"));
      ESubprocess (commit_command "f.txt" (env_now failing_git));
      ELog ERROR "f.txt Submission Failed";
      ESubprocess "git push";
      ELog ERROR
        (git_error_message "git push"
           (Sample.proc 1 EmptyString "fatal: no upstream"));
      EChdir ".."],
     Ok tt).
Proof. reflexivity. Qed.

(** ** The current directory around the git pipeline *)

Lemma commands_app evs1 evs2 :
  commands (evs1 ++ evs2) = commands evs1 ++ commands evs2.
Proof. apply omap_app. Qed.

Lemma commands_handled r : commands (fst (handled r)) = [].
Proof. destruct r as [|[e|e]]; reflexivity. Qed.

(** The pipeline starts at most the three git commands, in order. *)
Lemma git_steps_commands filename env :
  commands (fst (git_steps filename env))
  `prefix_of` [add_command filename;
               commit_command filename (env_now env);
               push_command].
Proof.
  unfold git_steps, bind, datetime_now, subprocess_run, call, logging_error,
    emit, ret.
  destruct (env_run env (add_command filename)) as [pa|e];
    [|eexists; reflexivity].
  destruct (env_run env (commit_command filename (env_now env))) as [pc|e];
    [|destruct (returncode pa =? 0); eexists; reflexivity].
  destruct (env_run env push_command) as [pp|e];
    destruct (returncode pa =? 0); simpl;
    try destruct (returncode pp =? 0); simpl;
    destruct (classify _ _); exists []; reflexivity.
Qed.

(** The events of the pipeline once [os.chdir(pro_dir)] succeeded: the
    change into the repository, a body that never changes directory,
    and the change to the parent when line 128 succeeds. *)
Lemma git_commit_and_push_body filename pro_dir env :
  env_chdir env pro_dir = Ok tt ->
  exists body,
    Forall (fun e => is_chdir e = false) body
    /\ commands body = commands (fst (git_steps filename env))
    /\ fst (git_commit_and_push filename pro_dir env) =
       EChdir pro_dir :: body
       ++ match env_chdir env ".." with
          | Ok _ => [EChdir ".."]
          | Raise _ => []
          end.
Proof.
  intros Hcd. rewrite git_commit_and_push_unfold, Hcd.
  pose proof (steps_and_handler_no_chdir filename env) as H.
  pose proof (commands_handled (snd (git_steps filename env))) as Hh.
  destruct (git_steps filename env) as [es rs]. simpl in H, Hh.
  destruct (handled rs) as [hl rh]. simpl in H, Hh.
  exists (es ++ hl). split; [exact H|]. split.
  - rewrite commands_app, Hh, app_nil_r. reflexivity.
  - destruct (env_chdir env "..") as [[]|e]; simpl.
    + rewrite <- app_assoc. reflexivity.
    + rewrite app_nil_r. reflexivity.
Qed.

Lemma git_commit_and_push_cwd filename pro_dir env w :
  Str.startswith "/" pro_dir = true ->
  env_chdir env pro_dir = Ok tt ->
  env_chdir env ".." = Ok tt ->
  cwd (exec w (fst (git_commit_and_push filename pro_dir env)))
  = Path.dirname pro_dir.
Proof.
  intros Habs Hcd Hup.
  destruct (git_commit_and_push_body filename pro_dir env Hcd)
    as (body & Hbody & _ & ->).
  rewrite Hup, exec_cons, exec_app. simpl.
  rewrite (exec_cwd _ body Hbody). simpl.
  rewrite (chdir_target_absolute _ _ Habs). reflexivity.
Qed.

(** When [os.chdir(pro_dir)] raises, nothing else happens: the function
    raises what [os.chdir] raised. *)
Lemma git_commit_and_push_no_repository filename pro_dir env e :
  env_chdir env pro_dir = Raise e ->
  git_commit_and_push filename pro_dir env = ([], Raise e).
Proof. intros H. rewrite git_commit_and_push_unfold, H. reflexivity. Qed.

(** *** [os.path.dirname(os.path.join(script_dir, pdir))] *)

Lemma head_no_slash s : Str.all_chars not_slash s = true -> Path.head s = EmptyString.
Proof.
  induction s as [|c s IH]; [reflexivity|]. simpl.
  intros [Hc Hs]%andb_true_iff. rewrite (IH Hs). simpl.
  unfold not_slash, Path.is_slash in Hc. apply negb_true_iff in Hc.
  rewrite Hc. reflexivity.
Qed.

Lemma head_app a x :
  Str.is_empty (Path.head x) = false -> Path.head (a +:+ x) = a +:+ Path.head x.
Proof.
  intros Hx. induction a as [|c a IH]; [reflexivity|].
  rewrite !StrFacts.app_cons. simpl. rewrite IH, StrFacts.app_is_empty, Hx.
  rewrite andb_false_r. reflexivity.
Qed.

Lemma rstrip_slash_clean dir suffix :
  clean_dir dir = true ->
  Path.rstrip_slash suffix = EmptyString ->
  Path.rstrip_slash (dir +:+ suffix) = dir.
Proof.
  unfold clean_dir. intros Hd Hs.
  induction dir as [|c dir IH]; [discriminate|].
  rewrite StrFacts.app_cons. simpl. destruct dir as [|c' dir].
  - simpl in Hd. change (EmptyString +:+ suffix) with suffix. rewrite Hs.
    unfold not_slash in Hd. apply negb_true_iff in Hd. rewrite Hd.
    reflexivity.
  - rewrite IH by exact Hd. simpl. rewrite andb_false_r. reflexivity.
Qed.

Lemma all_slash_clean dir suffix :
  clean_dir dir = true -> Str.all_chars Path.is_slash (dir +:+ suffix) = false.
Proof.
  unfold clean_dir. intros Hd.
  induction dir as [|c dir IH]; [discriminate|].
  rewrite StrFacts.app_cons. simpl. destruct dir as [|c' dir].
  - simpl in Hd. unfold not_slash in Hd. apply negb_true_iff in Hd.
    rewrite Hd. reflexivity.
  - rewrite IH by exact Hd. apply andb_false_r.
Qed.

Lemma join_clean script_dir pdir :
  clean_dir script_dir = true -> clean_name pdir = true ->
  os_path_join script_dir pdir = script_dir +:+ "/" +:+ pdir.
Proof.
  unfold clean_dir, clean_name, os_path_join.
  intros Hd [Hne Hp]%andb_true_iff.
  destruct pdir as [|p pdir]; [discriminate|].
  simpl in Hp. apply andb_true_iff in Hp as [Hp _].
  unfold not_slash, Path.is_slash, Str.slash in Hp.
  apply negb_true_iff in Hp.
  change (Str.startswith "/" (String p pdir))
    with (Ascii.eqb "/" p && true).
  rewrite Ascii.eqb_sym, Hp. simpl.
  destruct script_dir as [|c d]; [discriminate|]. simpl Str.is_empty. cbv iota.
  destruct (Str.last_char (String c d)) as [l|]; [|discriminate].
  unfold not_slash, Path.is_slash, Str.slash in Hd.
  apply negb_true_iff, Ascii.eqb_neq in Hd.
  destruct l as [[] [] [] [] [] [] [] []]; try reflexivity.
  contradiction Hd. reflexivity.
Qed.

(** The parent of the repository directory is the script directory. *)
Lemma dirname_join script_dir pdir :
  clean_dir script_dir = true -> clean_name pdir = true ->
  Path.dirname (os_path_join script_dir pdir) = script_dir.
Proof.
  intros Hd Hp. rewrite (join_clean _ _ Hd Hp).
  pose proof Hp as [_ Hns]%andb_true_iff.
  assert (Path.head ("/" +:+ pdir) = "/") as Hh.
  { change ("/" +:+ pdir) with (String "/" pdir). simpl.
    rewrite (head_no_slash _ Hns). reflexivity. }
  unfold Path.dirname. rewrite head_app by (rewrite Hh; reflexivity).
  rewrite Hh, StrFacts.app_is_empty, andb_false_r. simpl.
  rewrite (all_slash_clean _ _ Hd).
  apply (rstrip_slash_clean _ _ Hd). reflexivity.
Qed.

(** *** The current directory as the kernel resolves it *)

Lemma cwd_after_app fs d evs1 evs2 :
  cwd_after fs d (evs1 ++ evs2) = cwd_after fs (cwd_after fs d evs1) evs2.
Proof.
  revert d. induction evs1 as [|e evs1 IH]; intros d; [reflexivity|].
  destruct e; simpl; apply IH.
Qed.

Lemma cwd_after_no_chdir fs d evs :
  Forall (fun e => is_chdir e = false) evs -> cwd_after fs d evs = d.
Proof.
  induction 1 as [|e evs He _ IH]; [reflexivity|].
  destruct e; simpl in *; try discriminate He; exact IH.
Qed.

(** With the names taken as they are written, it is the current
    directory of [World]. *)
Lemma exec_cwd_after w evs : cwd (exec w evs) = cwd_after lexical (cwd w) evs.
Proof.
  revert w. induction evs as [|e evs IH]; intros w; [reflexivity|].
  rewrite exec_cons, IH. destruct e as [| |dev [|]| | | | | | | | |];
    reflexivity.
Qed.

(** The pipeline ends in the parent of the directory it changed into,
    as the kernel resolves both. *)
Lemma git_commit_and_push_cwd_after fs filename pro_dir env d :
  env_chdir env pro_dir = Ok tt ->
  env_chdir env ".." = Ok tt ->
  cwd_after fs d (fst (git_commit_and_push filename pro_dir env))
  = resolve fs (resolve fs d pro_dir) "..".
Proof.
  intros Hcd Hup.
  destruct (git_commit_and_push_body filename pro_dir env Hcd)
    as (body & Hbody & _ & ->).
  rewrite Hup. cbn [cwd_after]. rewrite cwd_after_app.
  rewrite (cwd_after_no_chdir _ _ body Hbody). reflexivity.
Qed.

Lemma git_commit_and_push_returns filename pro_dir env :
  snd (git_commit_and_push filename pro_dir env) = Ok tt ->
  env_chdir env pro_dir = Ok tt /\ env_chdir env ".." = Ok tt.
Proof.
  rewrite git_commit_and_push_unfold.
  destruct (env_chdir env pro_dir) as [[]|e]; [|discriminate].
  destruct (git_steps filename env) as [es rs].
  destruct (handled rs) as [hl rh].
  destruct (env_chdir env "..") as [[]|e]; [auto|discriminate].
Qed.

(** C10. A call of the pipeline first changes into the repository
    directory and, as its last action, changes to [..]; in between the
    directory is never changed.  So whenever the call returns, and more
    generally whenever the two [os.chdir] calls succeed, whether the
    [try] block completes, raises an exception that line 125 catches,
    or raises one that passes through [finally], the current directory
    ends at the parent of the repository directory, as the kernel
    resolves it.  For the repository path joined from the script
    directory, and a repository directory that the kernel knows under
    that path (no symbolic link, nothing to normalise), the parent is
    the script directory. *)
Theorem git_pipeline_ends_in_parent (fs : FileSystem)
    (filename script_dir pdir : string) (env : Env) (d : string) :
  let pro_dir := os_path_join script_dir pdir in
  clean_dir script_dir = true -> clean_name pdir = true ->
  physical fs pro_dir ->
  let evs := fst (git_commit_and_push filename pro_dir env) in
  let r := snd (git_commit_and_push filename pro_dir env) in
  (r = Ok tt -> cwd_after fs d evs = script_dir)
  /\ (env_chdir env pro_dir = Ok tt -> env_chdir env ".." = Ok tt ->
      cwd_after fs d evs = script_dir
      /\ (exists body,
            evs = EChdir pro_dir :: body ++ [EChdir ".."]
            /\ Forall (fun e => is_chdir e = false) body)
      /\ (r = Ok tt
          \/ exists msg,
               snd (git_steps filename env) = Raise (BaseException msg)
               /\ r = Raise (BaseException msg)))
  /\ Path.dirname pro_dir = script_dir
  /\ (forall fs' d',
        r = Ok tt
        \/ (env_chdir env pro_dir = Ok tt /\ env_chdir env ".." = Ok tt) ->
        cwd_after fs' d' evs = resolve fs' (resolve fs' d' pro_dir) "..").
Proof.
  intros pro_dir Hd Hp [Hname Hparent] evs r. subst evs r.
  pose proof (dirname_join script_dir pdir Hd Hp) as Hdir. fold pro_dir in Hdir.
  assert (forall fs' d',
            env_chdir env pro_dir = Ok tt -> env_chdir env ".." = Ok tt ->
            cwd_after fs' d' (fst (git_commit_and_push filename pro_dir env))
            = resolve fs' (resolve fs' d' pro_dir) "..") as Hgen
    by (intros; now apply git_commit_and_push_cwd_after).
  assert (env_chdir env pro_dir = Ok tt -> env_chdir env ".." = Ok tt ->
          cwd_after fs d (fst (git_commit_and_push filename pro_dir env))
          = script_dir) as Hhere.
  { intros Hcd Hup. now rewrite Hgen, Hname, Hparent. }
  split; [|split; [|split]].
  - intros Hr. apply git_commit_and_push_returns in Hr as [Hcd Hup]. auto.
  - intros Hcd Hup. split; [|split].
    + auto.
    + destruct (git_commit_and_push_body filename pro_dir env Hcd)
        as (body & Hbody & _ & E).
      rewrite Hup in E. exists body. split; assumption.
    + rewrite git_commit_and_push_unfold, Hcd, Hup.
      destruct (git_steps filename env) as [es [[]|[msg|msg]]]; simpl.
      * left. reflexivity.
      * left. reflexivity.
      * right. exists msg. split; reflexivity.
  - exact Hdir.
  - intros fs' d' [Hr|[Hcd Hup]]; [|auto].
    apply git_commit_and_push_returns in Hr as [Hcd Hup]. auto.
Qed.

Example pipeline_returns_after_exception :
  git_commit_and_push "f.txt" "/opt/backup/xxx" no_subprocess
  = ([EChdir "/opt/backup/xxx"; ESubprocess "git add f.txt";
      ELog ERROR
        "Error committing and pushing: [Errno 12] Cannot allocate memory";
      EChdir ".."],
     Ok tt).
Proof. reflexivity. Qed.

Lemma git_pipeline_ends_in_parent_witness :
  let fs := lexical in
  let env := no_subprocess in
  let script_dir := "/opt/backup" in
  let pro_dir := "/opt/backup/xxx" in
  let d := "/opt/backup" in
  let evs := fst (git_commit_and_push "f.txt" pro_dir env) in
  let r := snd (git_commit_and_push "f.txt" pro_dir env) in
  (r = Ok tt -> cwd_after fs d evs = script_dir)
  /\ (env_chdir env pro_dir = Ok tt -> env_chdir env ".." = Ok tt ->
      cwd_after fs d evs = script_dir
      /\ (exists body,
            evs = EChdir pro_dir :: body ++ [EChdir ".."]
            /\ Forall (fun e => is_chdir e = false) body)
      /\ (r = Ok tt
          \/ exists msg,
               snd (git_steps "f.txt" env) = Raise (BaseException msg)
               /\ r = Raise (BaseException msg)))
  /\ Path.dirname pro_dir = script_dir
  /\ (forall fs' d',
        r = Ok tt
        \/ (env_chdir env pro_dir = Ok tt /\ env_chdir env ".." = Ok tt) ->
        cwd_after fs' d' evs = resolve fs' (resolve fs' d' pro_dir) "..").
Proof.
  apply (git_pipeline_ends_in_parent lexical "f.txt" "/opt/backup" "xxx"
           no_subprocess "/opt/backup").
  - reflexivity.
  - reflexivity.
  - split; [intros d; reflexivity | reflexivity].
Defined.

(** A file system in which the repository directory is a symbolic link
    to [/opt/store/xxx]: the pipeline leaves the process in [/opt/store],
    the parent of the repository directory, which is not the script
    directory. *)
Example pipeline_through_a_symbolic_link :
  let fs := {| resolve := fun d path =>
                 if String.eqb path "/opt/backup/xxx" then "/opt/store/xxx"
                 else chdir_target d path |} in
  let evs := fst (git_commit_and_push "f.txt" "/opt/backup/xxx"
                    no_subprocess) in
  cwd_after fs "/opt/backup" evs = "/opt/store"
  /\ resolve fs "/opt/backup" "/opt/backup/xxx" = "/opt/store/xxx".
Proof. split; reflexivity. Qed.

(** ** The git commands and the ambient current directory *)

(** The pipeline on a repository at [/opt/backup/xxx], called with the
    current directory at [/opt/backup] and at [/tmp]: its three commands
    name no repository; they run in the current directory, which
    the pipeline has set to the repository; and on return the current
    directory is the parent of the repository, not the directory of the
    caller. *)
Lemma git_pipeline_changes_directory :
  let env := Sample.fine "<R1>" "nothing to commit, working tree clean" in
  let evs := fst (git_commit_and_push "f.txt" "/opt/backup/xxx" env) in
  evs = [EChdir "/opt/backup/xxx";
         ESubprocess "git add f.txt";
         ESubprocess (commit_command "f.txt" (env_now env));
         ELog WARNING
           "Nothing to commit in the repository,f.txt is Already exists.";
         ESubprocess "git push";
         EChdir ".."]
  /\ forallb (fun c => negb (Str.contains "/opt/backup" c)) (commands evs)
     = true
  /\ cwd (Sample.world "/opt/backup") = "/opt/backup"
  /\ shell (exec (Sample.world "/opt/backup") evs)
     = [("/opt/backup/xxx", "git add f.txt");
        ("/opt/backup/xxx", commit_command "f.txt" (env_now env));
        ("/opt/backup/xxx", "git push")]
  /\ cwd (Sample.world "/tmp") = "/tmp"
  /\ cwd (exec (Sample.world "/tmp") evs) = "/opt/backup".
Proof. cbv zeta. repeat split. Qed.

(** C6, as the code has it.  No git invocation of the pipeline names the
    repository: the commands are, in order and at most, [git add] of the
    file, [git commit -m] with the backup message, and [git push]; each
    runs in the process current directory, which the pipeline has set
    to the repository with [os.chdir] as its first action.  When the two
    [os.chdir] calls succeed, the kernel knows the repository directory
    under the path given (no symbolic link, nothing to normalise) and
    the current directory at entry is its parent, as [clone_repo]
    leaves it, the pipeline leaves the current directory as it found
    it. *)
Theorem git_pipeline_runs_in_cwd (filename pro_dir : string) (env : Env)
    (w : World) :
  Str.startswith "/" pro_dir = true ->
  let evs := fst (git_commit_and_push filename pro_dir env) in
  commands evs `prefix_of` [add_command filename;
                            commit_command filename (env_now env);
                            push_command]
  /\ shell (exec w evs) = shell w ++ map (fun c => (pro_dir, c)) (commands evs)
  /\ (env_chdir env pro_dir = Ok tt -> exists rest, evs = EChdir pro_dir :: rest)
  /\ (env_chdir env pro_dir = Ok tt -> env_chdir env ".." = Ok tt ->
      forall fs, physical fs pro_dir ->
                 cwd_after fs (Path.dirname pro_dir) evs
                 = Path.dirname pro_dir).
Proof.
  intros Habs evs. subst evs.
  destruct (env_chdir env pro_dir) as [[]|e] eqn:Hcd.
  - destruct (git_commit_and_push_body filename pro_dir env Hcd)
      as (body & Hbody & Hcmd & E).
    assert (commands (fst (git_commit_and_push filename pro_dir env))
            = commands body) as Hc.
    { rewrite E. change (commands (EChdir pro_dir :: ?l)) with (commands l).
      rewrite commands_app.
      destruct (env_chdir env "..") as [[]|]; simpl; apply app_nil_r. }
    split; [|split; [|split]].
    + rewrite Hc, Hcmd. apply git_steps_commands.
    + rewrite Hc, E, exec_cons, exec_app.
      assert (forall w', shell (exec w' match env_chdir env ".." with
                                        | Ok _ => [EChdir ".."]
                                        | Raise _ => []
                                        end) = shell w') as ->
        by (intros w'; destruct (env_chdir env "..") as [[]|]; reflexivity).
      rewrite (exec_shell_no_chdir _ body Hbody). simpl.
      rewrite (chdir_target_absolute _ _ Habs). reflexivity.
    + intros _. eexists. exact E.
    + intros _ Hup fs [Hname Hparent].
      rewrite (git_commit_and_push_cwd_after fs _ _ _ _ Hcd Hup).
      now rewrite Hname, Hparent.
  - rewrite (git_commit_and_push_no_repository _ _ _ _ Hcd). simpl.
    split; [apply prefix_nil|]. split; [symmetry; apply app_nil_r|].
    split; discriminate.
Qed.

Lemma git_pipeline_runs_in_cwd_witness :
  let env := Sample.fine "<R1>" "nothing to commit, working tree clean" in
  let pro_dir := "/opt/backup/xxx" in
  let w := Sample.world "/opt/backup" in
  let evs := fst (git_commit_and_push "f.txt" pro_dir env) in
  commands evs `prefix_of` [add_command "f.txt";
                            commit_command "f.txt" (env_now env);
                            push_command]
  /\ shell (exec w evs) = shell w ++ map (fun c => (pro_dir, c)) (commands evs)
  /\ (env_chdir env pro_dir = Ok tt -> exists rest, evs = EChdir pro_dir :: rest)
  /\ (env_chdir env pro_dir = Ok tt -> env_chdir env ".." = Ok tt ->
      forall fs, physical fs pro_dir ->
                 cwd_after fs (Path.dirname pro_dir) evs
                 = Path.dirname pro_dir).
Proof.
  exact (git_pipeline_runs_in_cwd "f.txt" "/opt/backup/xxx"
           (Sample.fine "<R1>" "nothing to commit, working tree clean")
           (Sample.world "/opt/backup") eq_refl).
Defined.

(** ** Shape of the events of one attempt *)

Lemma negotiate_events platform env :
  Forall (fun e => is_io e = true) (fst (negotiate platform env)).
Proof.
  unfold negotiate, bind, find_prompt, send_command_expect, call, ret.
  destruct (env_find_prompt env) as [prompt|e]; [|repeat constructor].
  destruct (Str.contains "Y/N" prompt); [|repeat constructor].
  destruct (env_send_command_expect env "N" ">"); [|repeat constructor].
  destruct (String.eqb platform "hp_comware").
  { destruct (env_send_command_expect env _ _); repeat constructor. }
  destruct (String.eqb platform "huawei").
  { destruct (env_send_command_expect env _ _); repeat constructor. }
  destruct (String.eqb platform "ruijie_os"); [|repeat constructor].
  destruct (env_send_command_expect env "terminal width 256" "#");
    [|repeat constructor].
  destruct (env_send_command_expect env "terminal length 0" "#");
    repeat constructor.
Qed.

Lemma fetch_events platform env :
  Forall (fun e => is_io e = true) (fst (fetch platform env)).
Proof.
  unfold fetch, send_command, call.
  destruct (String.eqb platform "ruijie_os"); repeat constructor.
Qed.

Lemma bind_events {A B} (P : Event -> Prop) (m : M A) (f : A -> M B) env :
  Forall P (fst (m env)) -> (forall a, Forall P (fst (f a env))) ->
  Forall P (fst (bind m f env)).
Proof.
  intros Hm Hf. unfold bind.
  destruct (m env) as [evs [a|e]]; [|exact Hm].
  specialize (Hf a). destruct (f a env) as [evs' r]. simpl in *.
  apply Forall_app. split; assumption.
Qed.

Lemma session_unfold device platform env :
  session device platform env =
  match env_connect env device with
  | Raise e => ([EConnect device false], Raise e)
  | Ok _ =>
      (EConnect device true
         :: fst ((negotiate platform ;; fetch platform) env) ++ [EDisconnect],
       snd ((negotiate platform ;; fetch platform) env))
  end.
Proof.
  unfold session, with_ConnectHandler.
  destruct (env_connect env device); [|reflexivity].
  destruct ((negotiate platform;; fetch platform) env). reflexivity.
Qed.

Lemma session_io platform env :
  Forall (fun e => is_io e = true)
         (fst ((negotiate platform ;; fetch platform) env)).
Proof.
  apply bind_events; [apply negotiate_events | intros _; apply fetch_events].
Qed.

Lemma attempt_unfold ip username password platform role script_dir pro_dir env :
  let device := device_dict ip username password platform role script_dir in
  let filename := config_filename platform role ip in
  let path := os_path_join pro_dir filename in
  attempt ip username password platform role script_dir pro_dir env =
  match session device platform env with
  | (se, Raise e) => (se, Raise e)
  | (se, Ok output) =>
      match env_open env path with
      | Raise e => (se, Raise e)
      | Ok _ =>
          match env_write env path output with
          | Raise e => (se ++ [EOpen path], Raise e)
          | Ok _ =>
              (se ++ EOpen path :: EWrite path output
                  :: ELog INFO ("Config saved to " +:+ filename)
                  :: fst (git_commit_and_push filename pro_dir env),
               snd (git_commit_and_push filename pro_dir env))
          end
      end
  end.
Proof.
  cbv zeta. unfold attempt, open_and_write, bind, syscall, logging_info, emit.
  destruct (session _ platform env) as [se [output|e]]; [|reflexivity].
  destruct (env_open env _) as [[]|e]; simpl;
    [|rewrite app_nil_r; reflexivity].
  destruct (env_write env _ output) as [[]|e]; simpl; [|reflexivity].
  destruct (git_commit_and_push _ pro_dir env) as [ge gr]. reflexivity.
Qed.

(** The events of an attempt: the call of [ConnectHandler]; when the
    session is established, the exchange with the device, the
    disconnection and what follows the session. *)
Lemma attempt_events ip username password platform role script_dir pro_dir env :
  let device := device_dict ip username password platform role script_dir in
  exists post,
    Forall (fun e => is_post e = true) post
    /\ fst (attempt ip username password platform role script_dir pro_dir env)
       = match env_connect env device with
         | Raise _ => [EConnect device false]
         | Ok _ =>
             EConnect device true
             :: fst ((negotiate platform ;; fetch platform) env)
             ++ EDisconnect :: post
         end.
Proof.
  cbv zeta. rewrite attempt_unfold. cbv zeta. rewrite session_unfold.
  destruct (env_connect env _) as [[]|e].
  2:{ exists []. split; constructor. }
  destruct ((negotiate platform;; fetch platform) env) as [io r].
  assert (Forall (fun e => is_post e = true)
            (fst (git_commit_and_push (config_filename platform role ip)
                    pro_dir env))) as Hg.
  { eapply Forall_impl; [apply git_commit_and_push_kinds|].
    intros [] H; try discriminate H; reflexivity. }
  destruct r as [output|e]; simpl.
  2:{ exists []. split; [constructor|reflexivity]. }
  destruct (env_open env _) as [[]|e].
  2:{ exists []. split; [constructor|reflexivity]. }
  destruct (env_write env _ output) as [[]|e]; simpl.
  - eexists. split.
    2:{ rewrite <- app_assoc. reflexivity. }
    repeat (constructor; [reflexivity|]). exact Hg.
  - exists [EOpen (os_path_join pro_dir (config_filename platform role ip))].
    split; [repeat constructor|].
    rewrite <- app_assoc. reflexivity.
Qed.

(** ** The configuration writer (lines 80-82) *)

Lemma session_files device platform env :
  Forall (fun e => touches_files e = false) (fst (session device platform env)).
Proof.
  rewrite session_unfold. pose proof (session_io platform env) as Hio.
  destruct (env_connect env device) as [[]|e]; [|repeat constructor].
  simpl. constructor; [reflexivity|]. apply Forall_app. split.
  - eapply Forall_impl; [exact Hio|].
    intros [] H; try discriminate H; reflexivity.
  - repeat constructor.
Qed.

(** The only file an attempt touches is the configuration file. *)
Lemma attempt_written_path
    ip username password platform role script_dir pro_dir env e :
  e ∈ fst (attempt ip username password platform role script_dir pro_dir env) ->
  touches_files e = true ->
  written_path e = Some (os_path_join pro_dir (config_filename platform role ip)).
Proof.
  rewrite attempt_unfold. cbv zeta.
  pose proof (session_files
                (device_dict ip username password platform role script_dir)
                platform env) as Hs.
  pose proof (git_commit_and_push_kinds (config_filename platform role ip)
                pro_dir env) as Hg.
  rewrite Forall_forall in Hs, Hg.
  assert (forall x, x ∈ fst (git_commit_and_push
                               (config_filename platform role ip) pro_dir env)
                    -> touches_files x = false) as Hg'.
  { intros x Hx. specialize (Hg x Hx).
    destruct x; try discriminate Hg; reflexivity. }
  destruct (session _ platform env) as [se [output|x]]; simpl in Hs.
  2:{ simpl. intros He Ht. rewrite (Hs e He) in Ht. discriminate. }
  destruct (env_open env _) as [[]|x].
  2:{ simpl. intros He Ht. rewrite (Hs e He) in Ht. discriminate. }
  destruct (env_write env _ output) as [[]|x]; simpl; intros He Ht.
  - apply elem_of_app in He as [He|He];
      [rewrite (Hs e He) in Ht; discriminate|].
    apply elem_of_cons in He as [->|He]; [reflexivity|].
    apply elem_of_cons in He as [->|He]; [reflexivity|].
    apply elem_of_cons in He as [->|He]; [discriminate|].
    rewrite (Hg' e He) in Ht. discriminate.
  - apply elem_of_app in He as [He|He];
      [rewrite (Hs e He) in Ht; discriminate|].
    apply list_elem_of_singleton in He as ->. reflexivity.
Qed.

(** C8. The attempt writes the fetched text to
    [os.path.join(pro_dir, platform-role-ip-config.txt)] and touches no
    other file: the path depends on (platform, role, ip) and the
    repository directory only, so two attempts with the same three
    values, whatever their credentials, script directory, environment
    or run, write the same path; it lies in the repository directory
    (the platform names of netmiko are relative names); and when the
    session, [open] and [write] succeed, the file holds exactly the
    fetched text afterwards, whatever it held before, and every other
    file is as it was. *)
Theorem config_writer
    (ip username password platform role script_dir pro_dir : string)
    (env : Env) :
  let filename := config_filename platform role ip in
  let path := os_path_join pro_dir filename in
  let device := device_dict ip username password platform role script_dir in
  let evs :=
    fst (attempt ip username password platform role script_dir pro_dir env) in
  filename = platform +:+ "-" +:+ role +:+ "-" +:+ ip +:+ "-config.txt"
  /\ (Str.startswith "/" platform = false -> clean_dir pro_dir = true ->
      path = pro_dir +:+ "/" +:+ filename)
  /\ (forall e, e ∈ evs -> touches_files e = true ->
      written_path e = Some path)
  /\ (forall username' password' script_dir' env' e e',
        e ∈ evs ->
        e' ∈ fst (attempt ip username' password' platform role script_dir'
                    pro_dir env') ->
        touches_files e = true -> touches_files e' = true ->
        written_path e = written_path e')
  /\ (forall se output w,
        session device platform env = (se, Ok output) ->
        env_open env path = Ok tt ->
        env_write env path output = Ok tt ->
        files (exec w evs) = <[path := output]> (files w)
        /\ file_content (exec w evs) path = output).
Proof.
  cbv zeta. split; [reflexivity|]. split; [|split; [|split]].
  - intros Hp Hd. unfold os_path_join, config_filename.
    destruct platform as [|c platform].
    + change (Str.startswith "/" (EmptyString +:+ ?s))
        with (Str.startswith "/" s).
      change (Str.startswith "/" ("-" +:+ ?s)) with false. cbv iota.
      unfold clean_dir in Hd.
      destruct pro_dir as [|d pro_dir]; [discriminate|]. simpl Str.is_empty.
      cbv iota. destruct (Str.last_char (String d pro_dir)) as [l|];
        [|discriminate].
      unfold not_slash, Path.is_slash, Str.slash in Hd.
      apply negb_true_iff, Ascii.eqb_neq in Hd.
      destruct l as [[] [] [] [] [] [] [] []]; try reflexivity.
      contradiction Hd. reflexivity.
    + change (Str.startswith "/" (String c platform +:+ ?s))
        with (Str.startswith "/" (String c platform)).
      rewrite Hp. unfold clean_dir in Hd.
      destruct pro_dir as [|d pro_dir]; [discriminate|]. simpl Str.is_empty.
      cbv iota. destruct (Str.last_char (String d pro_dir)) as [l|];
        [|discriminate].
      unfold not_slash, Path.is_slash, Str.slash in Hd.
      apply negb_true_iff, Ascii.eqb_neq in Hd.
      destruct l as [[] [] [] [] [] [] [] []]; try reflexivity.
      contradiction Hd. reflexivity.
  - intros e. apply attempt_written_path.
  - intros username' password' script_dir' env' e e' He He' Ht Ht'.
    rewrite (attempt_written_path _ _ _ _ _ _ _ _ _ He Ht).
    rewrite (attempt_written_path _ _ _ _ _ _ _ _ _ He' Ht').
    reflexivity.
  - intros se output w Hs Ho Hw.
    assert (files (exec w (fst (attempt ip username password platform role
                                  script_dir pro_dir env)))
            = <[os_path_join pro_dir (config_filename platform role ip)
                := output]> (files w)) as Hfiles.
    { rewrite attempt_unfold. cbv zeta. rewrite Hs, Ho, Hw. simpl.
      pose proof (session_files
                    (device_dict ip username password platform role script_dir)
                    platform env) as Hse.
      rewrite Hs in Hse. simpl in Hse.
      rewrite exec_app, !exec_cons.
      rewrite exec_files.
      2:{ eapply Forall_impl; [apply git_commit_and_push_kinds|].
          intros [] H; try discriminate H; reflexivity. }
      simpl. unfold file_content. simpl. rewrite lookup_insert_eq. simpl.
      rewrite insert_insert_eq, (exec_files _ se Hse). reflexivity. }
    split; [exact Hfiles|].
    unfold file_content. rewrite Hfiles, lookup_insert_eq. reflexivity.
Qed.

(** The file held an older, longer configuration: after the attempt it
    holds the fetched text only, and the other file is untouched. *)
Example config_writer_overwrites :
  let env := Sample.fine "<R1>" "nothing to commit, working tree clean" in
  let path := "/opt/backup/xxx/huawei-core-10.0.0.1-config.txt" in
  let w := {| cwd := "/opt/backup";
              files := {[ path := "sysname OLD-NAME and many more lines";
                          "/opt/backup/xxx/README" := "notes" ]};
              sessions := 0; log := []; shell := [] |} in
  let w' := exec w (fst (attempt "10.0.0.1" "admin" "pw" "huawei" "core"
                           "/opt/backup" "/opt/backup/xxx" env)) in
  file_content w' path = "sysname R1"
  /\ file_content w' "/opt/backup/xxx/README" = "notes".
Proof. cbv zeta. split; vm_compute; reflexivity. Qed.

(** ** Pagination and fetch commands (lines 64-78) *)

Lemma sent_app evs1 evs2 : sent (evs1 ++ evs2) = sent evs1 ++ sent evs2.
Proof. apply List.filter_app. Qed.

Lemma sent_post post : Forall (fun e => is_post e = true) post -> sent post = [].
Proof.
  induction 1 as [|e post He _ IH]; [reflexivity|].
  simpl. rewrite IH. destruct e; try discriminate He; reflexivity.
Qed.

Lemma sent_attempt ip username password platform role script_dir pro_dir env :
  sent (fst (attempt ip username password platform role script_dir pro_dir env))
  = match env_connect env
            (device_dict ip username password platform role script_dir) with
    | Raise _ => []
    | Ok _ => sent (fst ((negotiate platform ;; fetch platform) env))
    end.
Proof.
  destruct (attempt_events ip username password platform role script_dir
              pro_dir env) as (post & Hpost & ->).
  destruct (env_connect env _); [|reflexivity].
  change (sent (EConnect ?d true :: ?l)) with (sent l).
  rewrite sent_app.
  change (sent (EDisconnect :: post)) with (sent post).
  rewrite (sent_post post Hpost). apply app_nil_r.
Qed.

(** A huawei device whose prompt asks for no confirmation: the fetch
    command is the only command sent. *)
Lemma huawei_without_confirmation :
  let env := Sample.fine "<R1>" "nothing to commit, working tree clean" in
  let evs := fst (attempt "10.0.0.1" "admin" "pw" "huawei" "core"
                    "/opt/backup" "/opt/backup/xxx" env) in
  env_find_prompt env = Ok "<R1>"
  /\ sent evs = [ESendCommand "display current" 1800]
  /\ sent (fst (attempt "10.0.0.2" "admin" "pw" "ruijie_os" "core"
                  "/opt/backup" "/opt/backup/xxx" env))
     = [ESendCommand "show running-config" 1800].
Proof. cbv zeta. repeat split. Qed.

Local Ltac elem_of_small_list H :=
  repeat (apply elem_of_cons in H as [H|H]; [discriminate H|]);
  try (apply elem_of_nil in H; contradiction).

(** Case analysis on every answer of the device in the goal. *)
Local Ltac dialogue_cases :=
  repeat first
    [ progress simpl
    | match goal with
      | |- context [match env_send_command_expect ?e ?c ?x with _ => _ end] =>
          destruct (env_send_command_expect e c x)
      | |- context [match env_send_command ?e ?c ?t with _ => _ end] =>
          destruct (env_send_command e c t)
      end ].

(** C9, as the code has it.  In every attempt whose session answers
    [find_prompt] with a prompt that contains [Y/N], the commands sent
    to a huawei device are, in order and as far as the device answers,
    [N], [screen-length 0 temporary] and the fetch command
    [display current]; to a ruijie_os device, [N], [terminal width 256],
    [terminal length 0] and [show running-config]: when the fetch
    command is sent, the whole pagination sequence was sent before it.
    With a prompt without [Y/N] the fetch command is the only command. *)
Theorem pagination_before_fetch
    (ip username password role script_dir pro_dir : string) (env : Env)
    (prompt : string) :
  env_find_prompt env = Ok prompt ->
  let huawei :=
    sent (fst (attempt ip username password "huawei" role script_dir
                 pro_dir env)) in
  let ruijie :=
    sent (fst (attempt ip username password "ruijie_os" role script_dir
                 pro_dir env)) in
  huawei `prefix_of` dialogue "huawei" prompt
  /\ (fetch_command "huawei" ∈ huawei -> huawei = dialogue "huawei" prompt)
  /\ ruijie `prefix_of` dialogue "ruijie_os" prompt
  /\ (fetch_command "ruijie_os" ∈ ruijie ->
      ruijie = dialogue "ruijie_os" prompt)
  /\ dialogue "huawei" "[Y/N]:"
     = [ESendCommandExpect "N" ">";
        ESendCommandExpect "screen-length 0 temporary" ">";
        ESendCommand "display current" 1800]
  /\ dialogue "ruijie_os" "[Y/N]:"
     = [ESendCommandExpect "N" ">";
        ESendCommandExpect "terminal width 256" "#";
        ESendCommandExpect "terminal length 0" "#";
        ESendCommand "show running-config" 1800].
Proof.
  intros Hprompt huawei ruijie. subst huawei ruijie.
  rewrite !sent_attempt.
  split; [|split; [|split; [|split; [|split; reflexivity]]]].
  - destruct (env_connect env _); [|apply prefix_nil].
    unfold negotiate, fetch, bind, find_prompt, send_command_expect,
      send_command, call, ret, dialogue.
    rewrite Hprompt.
    destruct (Str.contains "Y/N" prompt); dialogue_cases;
      first [exists []; reflexivity | eexists; reflexivity].
  - destruct (env_connect env _); [|intros H; elem_of_small_list H].
    unfold negotiate, fetch, bind, find_prompt, send_command_expect,
      send_command, call, ret, dialogue.
    rewrite Hprompt.
    destruct (Str.contains "Y/N" prompt); dialogue_cases;
      first [reflexivity | intros H; elem_of_small_list H].
  - destruct (env_connect env _); [|apply prefix_nil].
    unfold negotiate, fetch, bind, find_prompt, send_command_expect,
      send_command, call, ret, dialogue.
    rewrite Hprompt.
    destruct (Str.contains "Y/N" prompt); dialogue_cases;
      first [exists []; reflexivity | eexists; reflexivity].
  - destruct (env_connect env _); [|intros H; elem_of_small_list H].
    unfold negotiate, fetch, bind, find_prompt, send_command_expect,
      send_command, call, ret, dialogue.
    rewrite Hprompt.
    destruct (Str.contains "Y/N" prompt); dialogue_cases;
      first [reflexivity | intros H; elem_of_small_list H].
Qed.

(** ** The retry loop (lines 54-93) *)

Lemma attempts_app evs1 evs2 :
  attempts (evs1 ++ evs2) = (attempts evs1 + attempts evs2)%nat.
Proof. unfold attempts. rewrite List.filter_app, length_app. reflexivity. Qed.

Lemma attempts_none (P : Event -> bool) evs :
  (forall e, P e = true -> is_connect e = false) ->
  Forall (fun e => P e = true) evs -> attempts evs = 0%nat.
Proof.
  intros HP H. induction H as [|e evs He _ IH]; [reflexivity|].
  unfold attempts in *. simpl. rewrite (HP e He). exact IH.
Qed.

Lemma attempt_attempts ip username password platform role script_dir pro_dir env :
  attempts (fst (attempt ip username password platform role script_dir
                   pro_dir env)) = 1%nat.
Proof.
  destruct (attempt_events ip username password platform role script_dir
              pro_dir env) as (post & Hpost & ->).
  destruct (env_connect env _); [|reflexivity].
  change (attempts (EConnect ?d true :: ?l)) with (S (attempts l)).
  rewrite attempts_app.
  change (attempts (EDisconnect :: post)) with (attempts post).
  rewrite (attempts_none is_io), (attempts_none is_post);
    [reflexivity | | assumption | | apply session_io];
    intros [] H; try discriminate H; reflexivity.
Qed.

Lemma attempts_retry_handler ip k msg : attempts (retry_handler ip k msg) = 0%nat.
Proof. unfold retry_handler. destruct (k <? max_retries - 1)%nat; reflexivity. Qed.

(** While the iterations fail with exceptions that line 86 catches, the
    loop goes on with the next value of [retry_count]. *)
Lemma retry_loop_failures body ip envs failed rest :
  (forall k, k ∈ failed -> caught (snd (body (envs k)))) ->
  retry_loop body ip envs (failed ++ rest) =
  (flat_map (failed_iteration body ip envs) failed
   ++ fst (retry_loop body ip envs rest),
   snd (retry_loop body ip envs rest)).
Proof.
  induction failed as [|k failed IH]; intros H.
  - simpl. destruct (retry_loop body ip envs rest). reflexivity.
  - destruct (H k) as [msg Hk]; [left|].
    simpl. unfold failed_iteration at 1.
    destruct (body (envs k)) as [evs r]. simpl in Hk. subst r.
    rewrite IH by (intros j Hj; apply H; right; exact Hj).
    simpl. rewrite <- !app_assoc. reflexivity.
Qed.

(** An iteration that completes ends the loop: no later attempt. *)
Lemma retry_loop_success body ip envs k rest :
  snd (body (envs k)) = Ok tt ->
  retry_loop body ip envs (k :: rest) = (fst (body (envs k)), Ok tt).
Proof.
  intros H. simpl. destruct (body (envs k)) as [evs r]. simpl in H.
  subst r. reflexivity.
Qed.

(** No exception that line 86 catches leaves the loop. *)
Lemma retry_loop_result body ip envs counts :
  snd (retry_loop body ip envs counts) = Ok tt
  \/ exists msg, snd (retry_loop body ip envs counts)
                 = Raise (BaseException msg).
Proof.
  induction counts as [|k counts IH]; [left; reflexivity|].
  simpl. destruct (body (envs k)) as [evs [[]|[msg|msg]]].
  - left. reflexivity.
  - destruct (retry_loop body ip envs counts) as [evs' r]. exact IH.
  - right. exists msg. reflexivity.
Qed.

Lemma backup_config_unfold
    ip username password platform role script_dir pro_dir envs :
  backup_config ip username password platform role script_dir pro_dir envs =
  let loop :=
    retry_loop (attempt ip username password platform role script_dir pro_dir)
               ip envs (seq 0 max_retries) in
  (SemAcquire :: fst loop ++ [SemRelease], snd loop).
Proof.
  unfold backup_config. destruct (retry_loop _ _ _ _). reflexivity.
Qed.

Lemma attempts_failed_iterations
    ip username password platform role script_dir pro_dir envs counts :
  attempts (flat_map
              (failed_iteration
                 (attempt ip username password platform role script_dir pro_dir)
                 ip envs) counts) = length counts.
Proof.
  induction counts as [|k counts IH]; [reflexivity|].
  simpl. rewrite attempts_app. unfold failed_iteration at 1.
  rewrite attempts_app, attempt_attempts, attempts_retry_handler, IH.
  reflexivity.
Qed.

Lemma backup_config_all_fail
    ip username password platform role script_dir pro_dir envs :
  (forall k, (k < max_retries)%nat ->
     caught (snd (attempt ip username password platform role script_dir
                    pro_dir (envs k)))) ->
  backup_config ip username password platform role script_dir pro_dir envs =
  (SemAcquire
     :: flat_map
          (failed_iteration
             (attempt ip username password platform role script_dir pro_dir)
             ip envs) (seq 0 max_retries)
     ++ [SemRelease],
   Ok tt).
Proof.
  intros Hfail. rewrite backup_config_unfold. cbv zeta.
  pose proof (retry_loop_failures
                (attempt ip username password platform role script_dir pro_dir)
                ip envs (seq 0 max_retries) []) as Hloop.
  rewrite app_nil_r in Hloop. rewrite Hloop.
  - cbn [fst snd retry_loop]. rewrite app_nil_r. reflexivity.
  - intros k Hk. apply Hfail. apply elem_of_seq in Hk. lia.
Qed.

(** C2. When every iteration of the loop fails with an exception that
    line 86 catches, [backup_config] makes exactly [max_retries = 5]
    attempts: its events are the semaphore entry, the five failed
    iterations for [retry_count] from 0 to 4 and the semaphore exit.
    The last records logged are the error of the fifth attempt and the
    permanent failure of line 93, after which nothing but the semaphore
    exit happens; the function returns normally. *)
Theorem retry_bound
    (ip username password platform role script_dir pro_dir : string)
    (envs : nat -> Env) :
  (forall k, (k < max_retries)%nat ->
     caught (snd (attempt ip username password platform role script_dir
                    pro_dir (envs k)))) ->
  let body := attempt ip username password platform role script_dir pro_dir in
  let run :=
    backup_config ip username password platform role script_dir pro_dir envs in
  max_retries = 5%nat
  /\ snd run = Ok tt
  /\ attempts (fst run) = 5%nat
  /\ fst run = SemAcquire
               :: flat_map (failed_iteration body ip envs) [0; 1; 2; 3; 4]%nat
               ++ [SemRelease]
  /\ exists before,
       fst run =
       before
       ++ [ELog ERROR ("Error backing up " +:+ ip +:+ ": "
                       +:+ message (snd (body (envs 4%nat))));
           ELog ERROR ("Max retries reached for " +:+ ip
                       +:+ ", backup failed.");
           SemRelease].
Proof.
  intros Hfail body run. subst body run.
  rewrite (backup_config_all_fail _ _ _ _ _ _ _ _ Hfail). cbn [fst snd].
  split; [reflexivity|]. split; [reflexivity|]. split; [|split].
  - change (attempts (SemAcquire :: ?l)) with (attempts l).
    rewrite attempts_app, attempts_failed_iterations. reflexivity.
  - reflexivity.
  - change (seq 0 max_retries) with ([0; 1; 2; 3]%nat ++ [4%nat]).
    rewrite flat_map_app.
    exists (SemAcquire
              :: flat_map
                   (failed_iteration
                      (attempt ip username password platform role script_dir
                         pro_dir) ip envs) [0; 1; 2; 3]%nat
              ++ fst (attempt ip username password platform role script_dir
                        pro_dir (envs 4%nat))).
    simpl flat_map at 2. unfold failed_iteration at 2. unfold retry_handler.
    simpl. rewrite app_nil_r, <- !app_assoc. reflexivity.
Qed.

Lemma retry_bound_witness :
  let body := attempt "10.0.0.1" "admin" "pw" "huawei" "core" "/opt/backup"
                "/opt/backup/xxx" in
  let envs := fun _ : nat => Sample.unreachable in
  let run := backup_config "10.0.0.1" "admin" "pw" "huawei" "core"
               "/opt/backup" "/opt/backup/xxx" envs in
  max_retries = 5%nat
  /\ snd run = Ok tt
  /\ attempts (fst run) = 5%nat
  /\ fst run = SemAcquire
               :: flat_map (failed_iteration body "10.0.0.1" envs)
                    [0; 1; 2; 3; 4]%nat
               ++ [SemRelease]
  /\ exists before,
       fst run =
       before
       ++ [ELog ERROR ("Error backing up " +:+ "10.0.0.1" +:+ ": "
                       +:+ message (snd (body (envs 4%nat))));
           ELog ERROR ("Max retries reached for " +:+ "10.0.0.1"
                       +:+ ", backup failed.");
           SemRelease].
Proof.
  exact (retry_bound "10.0.0.1" "admin" "pw" "huawei" "core" "/opt/backup"
           "/opt/backup/xxx" (fun _ => Sample.unreachable)
           (fun k _ => ex_intro _ "TCP connection to device failed" eq_refl)).
Defined.

(** *** The semaphore bounds the sessions *)

Lemma sum_list_with_insert {A} (f : A -> nat) (l : list A) i x y :
  l !! i = Some x ->
  (sum_list_with f (<[i := y]> l) + f x = sum_list_with f l + f y)%nat.
Proof.
  revert i. induction l as [|a l IH]; intros [|i] H; try discriminate H.
  - injection H as ->. simpl. lia.
  - simpl in *. specialize (IH i H). lia.
Qed.

Lemma wf_cons ph e rest :
  wf ph (e :: rest) = true ->
  legal ph e = true /\ wf (advance ph e) rest = true.
Proof. simpl. intros H. apply andb_true_iff in H. exact H. Qed.

Lemma sessions_apply_event w e ph :
  legal ph e = true ->
  (sessions (apply_event w e)
   + match ph with Inside n => n | _ => 0 end
   = sessions w
     + match advance ph e with Inside n => n | _ => 0 end
     + match ph, e with Inside 1, EDisconnect => (1 - sessions w) | _, _ => 0 end)%nat.
Proof.
  destruct ph as [|n|], e; try discriminate; simpl; try lia;
    try (destruct established); try discriminate;
    destruct n as [|[|n]]; try discriminate; simpl; lia.
Qed.

Lemma inv_perform capacity s i t e rest v :
  Inv capacity s ->
  tasks s !! i = Some t -> todo t = e :: rest ->
  (v + match advance (phase t) e with Inside _ => 1 | _ => 0 end
   = sem_value s + holding t)%nat ->
  Inv capacity (perform s i t e rest v).
Proof.
  intros [Hwf Hsem Hses] Hi Ht Hv.
  pose proof (Forall_lookup_1 _ _ _ _ Hwf Hi) as Hwt. simpl in Hwt.
  rewrite Ht in Hwt. apply wf_cons in Hwt as [Hlegal Hrest].
  set (t' := {| phase := advance (phase t) e; todo := rest;
                outcome := outcome t |}).
  pose proof (sum_list_with_insert holding (tasks s) i t t' Hi) as Hh.
  pose proof (sum_list_with_insert open_sessions (tasks s) i t t' Hi) as Ho.
  pose proof (sessions_apply_event (world s) e (phase t) Hlegal) as Hs.
  split; simpl; fold t'.
  - apply Forall_insert; [exact Hwf | exact Hrest].
  - unfold holders in *.
    change (holding t')
      with (match advance (phase t) e with Inside _ => 1 | _ => 0 end)%nat
      in Hh.
    lia.
  - unfold in_flight in *.
    change (open_sessions t')
      with (match advance (phase t) e with Inside n => n | _ => 0 end)%nat
      in Ho.
    change (open_sessions t)
      with (match phase t with Inside n => n | _ => 0 end)%nat in Ho.
    assert (match phase t with Inside n => n | _ => 0 end
            <= sum_list_with open_sessions (tasks s))%nat.
    { change (open_sessions t <= sum_list_with open_sessions (tasks s))%nat.
      clear -Hi. revert i Hi.
      induction (tasks s) as [|a l IH]; intros [|i] Hi; try discriminate Hi.
      - injection Hi as ->. simpl. lia.
      - simpl in *. specialize (IH i Hi). lia. }
    destruct (phase t) as [|[|[|n]]|], e; simpl in *; lia.
Qed.

Lemma inv_step preemptive capacity s s' :
  Inv capacity s -> step preemptive s s' -> Inv capacity s'.
Proof.
  intros HI Hstep.
  destruct Hstep as [s i t e rest _ _ Hi Ht
                    | s i t rest v _ _ Hi Ht Hv
                    | s i t rest _ _ Hi Ht Hv
                    | s i t rest _ _ Hi Ht
                    | s i t e rest _ _ Hi Ht He
                    | s i _ _ _
                    | s _ _];
    try (destruct HI; split; assumption).
  - apply (inv_perform capacity s i t SemAcquire rest v HI Hi Ht).
    destruct HI as [Hwf _ _].
    pose proof (Forall_lookup_1 _ _ _ _ Hwf Hi) as Hwt. simpl in Hwt.
    rewrite Ht in Hwt. apply wf_cons in Hwt as [Hlegal _].
    unfold holding.
    destruct (phase t) as [|[|[|n]]|]; simpl in *;
      try discriminate Hlegal; lia.
  - apply (inv_perform capacity s i t SemRelease rest _ HI Hi Ht).
    destruct HI as [Hwf _ _].
    pose proof (Forall_lookup_1 _ _ _ _ Hwf Hi) as Hwt. simpl in Hwt.
    rewrite Ht in Hwt. apply wf_cons in Hwt as [Hlegal _].
    unfold holding.
    destruct (phase t) as [|[|[|n]]|]; simpl in *;
      try discriminate Hlegal; lia.
  - apply (inv_perform capacity s i t e rest _ HI Hi Ht).
    destruct HI as [Hwf _ _].
    pose proof (Forall_lookup_1 _ _ _ _ Hwf Hi) as Hwt. simpl in Hwt.
    rewrite Ht in Hwt. apply wf_cons in Hwt as [Hlegal _].
    unfold holding.
    destruct (phase t) as [|[|[|n]]|], e; simpl in *;
      try discriminate Hlegal; try discriminate He;
      try destruct established; simpl; lia.
Qed.

Lemma sum_list_with_pending (f : Task -> nat) runs :
  (forall run, f (task_of run) = 0%nat) ->
  sum_list_with f (map task_of runs) = 0%nat.
Proof.
  intros Hf. induction runs as [|run runs IH]; [reflexivity|].
  simpl. rewrite Hf, IH. reflexivity.
Qed.

Lemma inv_start capacity runs w :
  Forall (fun run => wf Pending (fst run) = true) runs ->
  sessions w = 0%nat ->
  Inv capacity (start capacity runs w).
Proof.
  intros Hwf Hw. split; simpl.
  - apply Forall_map. exact Hwf.
  - unfold holders. rewrite sum_list_with_pending by reflexivity. lia.
  - unfold in_flight. rewrite sum_list_with_pending by reflexivity.
    exact Hw.
Qed.

Lemma inv_reachable preemptive capacity runs w s :
  Forall (fun run => wf Pending (fst run) = true) runs ->
  sessions w = 0%nat ->
  reachable preemptive capacity runs w s -> Inv capacity s.
Proof.
  intros Hwf Hw Hs.
  eapply (rtc_ind_r (Inv capacity)); [| |exact Hs].
  - apply inv_start; assumption.
  - intros y z _ Hstep Hy. eapply inv_step; eassumption.
Qed.

(** A task has at most one session open. *)
Lemma wf_open n evs : wf (Inside n) evs = true -> (n <= 1)%nat.
Proof.
  revert n. induction evs as [|e evs IH]; intros n H; [discriminate|].
  apply wf_cons in H as [Hl Hw].
  destruct e; simpl in Hw;
    try (apply IH; exact Hw);
    destruct n as [|[|n]]; try lia; try discriminate Hl.
  destruct established; [discriminate Hl|]. apply (IH _ Hw).
Qed.

Lemma in_flight_holders ts :
  Forall (fun t => wf (phase t) (todo t) = true) ts ->
  (in_flight ts <= holders ts)%nat.
Proof.
  induction 1 as [|t ts Ht _ IH]; [reflexivity|].
  unfold in_flight, holders in *. simpl.
  unfold open_sessions at 1, holding at 1.
  destruct (phase t) as [|n|]; try lia.
  apply wf_open in Ht. lia.
Qed.

(** *** The tasks of [main] are well formed *)

Lemma wf_unfold ph e rest :
  wf ph (e :: rest) = legal ph e && wf (advance ph e) rest.
Proof. reflexivity. Qed.

Lemma wf_neutral n evs rest :
  Forall (fun e => neutral e = true) evs ->
  wf (Inside n) (evs ++ rest) = wf (Inside n) rest.
Proof.
  induction 1 as [|e evs He _ IH]; [reflexivity|].
  rewrite <- app_comm_cons, wf_unfold.
  assert (legal (Inside n) e = true /\ advance (Inside n) e = Inside n)
    as [-> ->].
  { destruct e; try discriminate He; destruct n as [|[|n]];
      try (split; reflexivity);
      destruct established; try discriminate He; split; reflexivity. }
  exact IH.
Qed.

Lemma transparent_app evs1 evs2 :
  transparent evs1 -> transparent evs2 -> transparent (evs1 ++ evs2).
Proof. intros H1 H2 rest. rewrite <- app_assoc, H1, H2. reflexivity. Qed.

Lemma transparent_neutral evs :
  Forall (fun e => neutral e = true) evs -> transparent evs.
Proof. intros H rest. apply wf_neutral, H. Qed.

Lemma attempt_transparent
    ip username password platform role script_dir pro_dir env :
  transparent
    (fst (attempt ip username password platform role script_dir pro_dir env)).
Proof.
  destruct (attempt_events ip username password platform role script_dir
              pro_dir env) as (post & Hpost & ->).
  destruct (env_connect env _).
  - intros rest. rewrite <- !app_comm_cons, wf_unfold.
    cbn [legal advance andb].
    rewrite <- app_assoc, wf_neutral.
    2:{ eapply Forall_impl; [apply session_io|].
        intros [] H; try discriminate H; reflexivity. }
    rewrite <- app_comm_cons, wf_unfold. cbn [legal advance andb pred].
    apply wf_neutral. eapply Forall_impl; [exact Hpost|].
    intros [] H; try discriminate H; reflexivity.
  - apply transparent_neutral. repeat constructor.
Qed.

Lemma retry_handler_transparent ip k msg : transparent (retry_handler ip k msg).
Proof.
  apply transparent_neutral. unfold retry_handler.
  destruct (k <? max_retries - 1)%nat; repeat constructor.
Qed.

Lemma retry_loop_transparent
    ip username password platform role script_dir pro_dir envs counts :
  transparent
    (fst (retry_loop
            (attempt ip username password platform role script_dir pro_dir)
            ip envs counts)).
Proof.
  induction counts as [|k counts IH]; [intros rest; reflexivity|].
  cbn [retry_loop].
  pose proof (attempt_transparent ip username password platform role
                script_dir pro_dir (envs k)) as Ha.
  destruct (attempt ip username password platform role script_dir pro_dir
              (envs k)) as [evs [[]|[msg|msg]]]; cbn [fst] in *;
    try exact Ha.
  destruct (retry_loop _ ip envs counts) as [evs' r]. cbn [fst] in *.
  apply transparent_app; [exact Ha|].
  apply transparent_app; [apply retry_handler_transparent | exact IH].
Qed.

Lemma backup_config_wf
    ip username password platform role script_dir pro_dir envs :
  wf Pending
     (fst (backup_config ip username password platform role script_dir
             pro_dir envs)) = true.
Proof.
  rewrite backup_config_unfold. cbv zeta. cbn [fst].
  rewrite wf_unfold. cbn [legal advance andb].
  rewrite retry_loop_transparent. reflexivity.
Qed.

Lemma main_tasks_wf script_dir pro_dir rows :
  Forall (fun run => wf Pending (fst run) = true)
         (main_tasks script_dir pro_dir rows).
Proof.
  unfold main_tasks. apply Forall_map, Forall_forall.
  intros [row envs] _. apply backup_config_wf.
Qed.

(** *** A schedule, as a function: task [i] performs its next event *)

Lemma perform_schedule s i j t e rest v :
  perform (schedule s j) i t e rest v = perform s i t e rest v.
Proof. reflexivity. Qed.

Lemma fire_rtc preemptive s i : rtc (step preemptive) s (fire s i).
Proof.
  unfold fire.
  destruct (cancelled s) eqn:Hc; [apply rtc_refl|].
  destruct (tasks s !! i) as [t|] eqn:Hi;
    [|destruct (running s) as [j|]; [destruct (Nat.eqb j i)|];
      apply rtc_refl].
  destruct (todo t) as [|e rest] eqn:Ht;
    [destruct (running s) as [j|]; [destruct (Nat.eqb j i)|];
     apply rtc_refl|].
  assert (rtc (step preemptive) (schedule s (Some i))
              match e with
              | SemAcquire =>
                  match sem_value s with
                  | S v => perform s i t SemAcquire rest v
                  | O => s
                  end
              | SemRelease => perform s i t SemRelease rest (S (sem_value s))
              | _ => perform s i t e rest (sem_value s)
              end \/ (e = SemAcquire /\ sem_value s = 0%nat)) as Hgo.
  { destruct e;
      try (left; apply rtc_once;
           apply (step_event preemptive (schedule s (Some i)) i t _ rest);
           first [reflexivity | exact Hc | exact Hi | exact Ht]).
    - destruct (sem_value s) as [|v] eqn:Hv; [right; split; reflexivity|].
      left. apply rtc_once.
      apply (step_acquire preemptive (schedule s (Some i)) i t rest v);
        first [reflexivity | exact Hc | exact Hi | exact Ht | exact Hv].
    - left. apply rtc_once.
      apply (step_release preemptive (schedule s (Some i)) i t rest);
        first [reflexivity | exact Hc | exact Hi | exact Ht]. }
  destruct (running s) as [j|] eqn:Hr.
  - destruct (Nat.eqb_spec j i) as [->|]; [|apply rtc_refl].
    assert (schedule s (Some i) = s) as Hs
      by (destruct s; simpl in *; subst; reflexivity).
    rewrite Hs in Hgo.
    destruct Hgo as [Hgo|[-> ->]]; [|apply rtc_refl].
    destruct e; exact Hgo.
  - destruct Hgo as [Hgo|[-> ->]]; [|apply rtc_refl].
    eapply rtc_l; [eapply step_dispatch; eassumption|].
    destruct e; exact Hgo.
Qed.

Lemma fire_all_rtc preemptive order s :
  rtc (step preemptive) s (fire_all order s).
Proof.
  revert s. induction order as [|i order IH]; intros s; [apply rtc_refl|].
  simpl. etrans; [apply fire_rtc | apply IH].
Qed.

Lemma yield_rtc s : rtc (step true) s (yield s).
Proof.
  unfold yield. destruct (cancelled s) eqn:Hc; [apply rtc_refl|].
  destruct (running s) as [i|] eqn:Hr; [|apply rtc_refl].
  apply rtc_once. apply (step_preempt true s i); auto.
Qed.

Lemma play_rtc moves s : rtc (step true) s (play moves s).
Proof.
  revert s. induction moves as [|[i|] moves IH]; intros s;
    [apply rtc_refl| |]; simpl.
  - etrans; [apply fire_rtc | apply IH].
  - etrans; [apply yield_rtc | apply IH].
Qed.

Lemma play_reachable capacity runs w moves :
  reachable true capacity runs w (play moves (start capacity runs w)).
Proof. apply play_rtc. Qed.

Lemma fire_all_reachable preemptive capacity runs w order :
  reachable preemptive capacity runs w
            (fire_all order (start capacity runs w)).
Proof. apply fire_all_rtc. Qed.

(** C3. In every state the loop can reach, whatever the number of
    devices, the capacity of the semaphore and the points at which
    tasks are switched (asyncio's, or any others), the device sessions
    open at that point are at most as many as the tasks inside
    [async with semaphore], which are at most the capacity; the counter
    of the semaphore and the tasks inside always add up to the
    capacity.  The script sets the capacity to 10. *)
Theorem sessions_bounded (preemptive : bool) (capacity : nat)
    (script_dir pro_dir : string) (rows : list (Row * (nat -> Env)))
    (fs : gmap string string) (s : Loop) :
  reachable preemptive capacity (main_tasks script_dir pro_dir rows)
            (boot script_dir fs) s ->
  (sessions (world s) <= capacity)%nat
  /\ sessions (world s) = in_flight (tasks s)
  /\ (in_flight (tasks s) <= holders (tasks s))%nat
  /\ (holders (tasks s) <= capacity)%nat
  /\ (sem_value s + holders (tasks s) = capacity)%nat
  /\ MAX_CONCURRENT_BACKUPS = 10%nat.
Proof.
  intros Hs.
  apply inv_reachable in Hs as [Hwf Hsem Hses];
    [|apply main_tasks_wf|reflexivity].
  pose proof (in_flight_holders _ Hwf) as Hle.
  repeat split; try assumption; lia.
Qed.

Example sample_sessions :
  let s := play sample_moves sample_start in
  sessions (world s) = 1%nat /\ holders (tasks s) = 2%nat
  /\ sem_value s = 8%nat.
Proof. vm_compute. repeat split. Qed.

Lemma sessions_bounded_witness :
  let s := play sample_moves sample_start in
  (sessions (world s) <= MAX_CONCURRENT_BACKUPS)%nat
  /\ sessions (world s) = in_flight (tasks s)
  /\ (in_flight (tasks s) <= holders (tasks s))%nat
  /\ (holders (tasks s) <= MAX_CONCURRENT_BACKUPS)%nat
  /\ (sem_value s + holders (tasks s) = MAX_CONCURRENT_BACKUPS)%nat
  /\ MAX_CONCURRENT_BACKUPS = 10%nat.
Proof.
  exact (sessions_bounded true MAX_CONCURRENT_BACKUPS "/opt/backup"
           "/opt/backup/xxx" sample_rows ∅ _
           (play_reachable _ _ _ sample_moves)).
Defined.

(** *** Under asyncio's scheduling the tasks run one after the other *)

Lemma serial_suffix a l : serial (a ++ l) -> serial l.
Proof.
  induction a as [|x a IH]; [trivial|].
  intros H. inversion H; subst. apply IH. assumption.
Qed.

Lemma serial_between i b j c :
  serial (i :: b ++ j :: c) -> i ∈ c -> j = i.
Proof.
  revert i. induction b as [|x b IH]; intros i H Hi.
  - inversion H as [|? ? _ Hhead]; subst.
    assert (head (j :: c) = Some i) as E by (apply Hhead; right; exact Hi).
    injection E as ->. reflexivity.
  - inversion H as [|? ? Htail Hhead]; subst.
    assert (head (x :: b ++ j :: c) = Some i) as E.
    { apply Hhead. right. apply elem_of_app. right. right. exact Hi. }
    injection E as ->. apply (IH i Htail Hi).
Qed.

(** In chronological order: between two events of one task there is no
    event of another. *)
Lemma serial_no_interleaving ids l1 i l2 j l3 l4 :
  serial (rev ids) ->
  ids = l1 ++ i :: l2 ++ j :: l3 ++ i :: l4 ->
  j = i.
Proof.
  intros H ->.
  repeat (rewrite ?rev_app_distr, ?rev_unit in H; simpl in H;
          rewrite <- ?app_assoc in H; simpl in H).
  apply serial_suffix in H.
  apply (serial_between i (rev l3) j (rev l2 ++ i :: rev l1) H).
  apply elem_of_app. right. left.
Qed.

Lemma ids_perform s i t e rest v :
  ids (perform s i t e rest v) = ids s ++ [i].
Proof. unfold ids. simpl. rewrite map_app. reflexivity. Qed.

Lemma advance_not_pending ph e :
  legal ph e = true -> advance ph e <> Pending.
Proof.
  destruct ph as [|n|], e; try discriminate; simpl;
    try destruct established; discriminate.
Qed.

Lemma wf_done ph : wf ph [] = true -> ph = Done.
Proof. destruct ph; try discriminate. reflexivity. Qed.

Lemma coop_perform capacity s i t e rest v :
  Inv capacity s -> Coop s ->
  cancelled s = false -> running s = Some i ->
  tasks s !! i = Some t -> todo t = e :: rest ->
  Coop (perform s i t e rest v).
Proof.
  intros [Hwf _ _] [Hidle Hfresh Hrun Hser] Hc Hr Hi Ht.
  pose proof (Forall_lookup_1 _ _ _ _ Hwf Hi) as Hwt. simpl in Hwt.
  rewrite Ht in Hwt. apply wf_cons in Hwt as [Hlegal Hrest].
  assert (i < length (tasks s))%nat as Hlen
    by (apply lookup_lt_is_Some; eauto).
  split.
  - intros _ j t' Hj Hnot. simpl in Hj, Hnot.
    destruct (decide (j = i)) as [->|Hne].
    + rewrite list_lookup_insert_eq in Hj by exact Hlen.
      injection Hj as <-. simpl. right.
      destruct rest; [apply wf_done, Hrest | contradiction Hnot; reflexivity].
    + rewrite list_lookup_insert_ne in Hj by congruence.
      apply (Hidle Hc j t' Hj). rewrite Hr. congruence.
  - intros j t' Hj Hp. simpl in Hj. rewrite ids_perform.
    destruct (decide (j = i)) as [->|Hne].
    + rewrite list_lookup_insert_eq in Hj by exact Hlen.
      injection Hj as <-. simpl in Hp.
      contradiction (advance_not_pending _ _ Hlegal Hp).
    + rewrite list_lookup_insert_ne in Hj by congruence.
      intros [Hin|Hin]%elem_of_app.
      * apply (Hfresh j t' Hj Hp Hin).
      * apply list_elem_of_singleton in Hin. contradiction.
  - intros _ j Hj. simpl in Hj.
    destruct rest as [|e' rest]; [discriminate|]. injection Hj as <-.
    split.
    + eexists. split; [simpl; apply list_lookup_insert_eq, Hlen|].
      simpl. discriminate.
    + intros _. rewrite ids_perform, rev_unit. reflexivity.
  - rewrite ids_perform, rev_unit. constructor; [exact Hser|].
    intros Hin. apply (Hrun Hc i Hr).
    apply list_elem_of_In, in_rev, list_elem_of_In. exact Hin.
Qed.

Lemma coop_step capacity s s' :
  Inv capacity s -> Coop s -> step false s s' -> Coop s'.
Proof.
  intros HI HC Hstep.
  destruct Hstep as [s i t e rest Hc Hr Hi Ht
                    | s i t rest v Hc Hr Hi Ht Hv
                    | s i t rest Hc Hr Hi Ht Hv
                    | s i t rest Hc Hr Hi Ht
                    | s i t e rest Hc Hr Hi Ht He
                    | s i Hp _ _
                    | s _ _];
    try (eapply coop_perform; eassumption);
    try discriminate Hp.
  - (* dispatch *)
    destruct HI as [Hwf _ _]. destruct HC as [Hidle Hfresh Hrun Hser].
    split; try assumption.
    + intros _ j t' Hj Hnot. apply (Hidle Hc j t' Hj).
      rewrite Hr. discriminate.
    + intros _ j Hj. simpl in Hj. injection Hj as <-. split.
      * exists t. split; [exact Hi | rewrite Ht; discriminate].
      * intros Hin. exfalso.
        destruct (Hidle Hc i t Hi) as [Hp|Hd]; [rewrite Hr; discriminate| |].
        -- apply (Hfresh i t Hi Hp Hin).
        -- pose proof (Forall_lookup_1 _ _ _ _ Hwf Hi) as Hwt. simpl in Hwt.
           rewrite Hd, Ht in Hwt. discriminate Hwt.
  - (* the task waits for the semaphore *)
    destruct HI as [Hwf _ _]. destruct HC as [Hidle Hfresh Hrun Hser].
    split; try assumption.
    + intros _ j t' Hj _. simpl in Hj.
      destruct (decide (j = i)) as [->|Hne].
      * rewrite Hi in Hj. injection Hj as <-. left.
        pose proof (Forall_lookup_1 _ _ _ _ Hwf Hi) as Hwt. simpl in Hwt.
        rewrite Ht in Hwt. apply wf_cons in Hwt as [Hlegal _].
        destruct (phase t) as [|[|[|n]]|]; try discriminate Hlegal.
        reflexivity.
      * apply (Hidle Hc j t' Hj). rewrite Hr. congruence.
    + intros _ j Hj. discriminate Hj.
  - (* cancellation *)
    destruct HC as [Hidle Hfresh Hrun Hser].
    split; try assumption; intros Hx; discriminate Hx.
Qed.

Lemma coop_start capacity runs w : Coop (start capacity runs w).
Proof.
  split.
  - intros _ j t Hj _. simpl in Hj. apply list_lookup_fmap_Some in Hj
      as (run & -> & _). left. reflexivity.
  - intros j t _ _ Hin. inversion Hin.
  - intros _ i Hi. discriminate Hi.
  - constructor.
Qed.

Lemma coop_reachable capacity runs w s :
  Forall (fun run => wf Pending (fst run) = true) runs ->
  sessions w = 0%nat ->
  reachable false capacity runs w s -> Inv capacity s /\ Coop s.
Proof.
  intros Hwf Hw Hs.
  eapply (rtc_ind_r (fun s => Inv capacity s /\ Coop s)); [| |exact Hs].
  - split; [apply inv_start; assumption | apply coop_start].
  - intros y z _ Hstep [HI HC]. split.
    + eapply inv_step; eassumption.
    + eapply coop_step; eassumption.
Qed.

(** C1. In every state that asyncio's scheduling of the tasks of [main]
    can reach, the events of a task are never separated by an event of
    another task: if task [i] performed [e1] and later [e3], every event
    [e2] performed in between is an event of task [i] too.  In
    particular no event of another device, and so no stage, commit or
    push of another file, falls between the stage, the commit and the
    push of one file. *)
Theorem git_transactions_serial (capacity : nat) (script_dir pro_dir : string)
    (rows : list (Row * (nat -> Env))) (fs : gmap string string) (s : Loop) :
  reachable false capacity (main_tasks script_dir pro_dir rows)
            (boot script_dir fs) s ->
  serial (rev (ids s))
  /\ forall l1 l2 l3 l4 i j e1 e2 e3,
       history s = l1 ++ (i, e1) :: l2 ++ (j, e2) :: l3 ++ (i, e3) :: l4 ->
       j = i.
Proof.
  intros Hs.
  apply coop_reachable in Hs as [_ [_ _ _ Hser]];
    [|apply main_tasks_wf|reflexivity].
  split; [exact Hser|].
  intros l1 l2 l3 l4 i j e1 e2 e3 Hh.
  apply (serial_no_interleaving (ids s) (map fst l1) i (map fst l2) j
           (map fst l3) (map fst l4) Hser).
  unfold ids. rewrite Hh.
  repeat (rewrite ?map_app; simpl). reflexivity.
Qed.

Example sample_run_git_steps :
  let s := fire_all sample_order sample_start in
  Forall (fun t => phase t = Done) (tasks s)
  /\ List.filter (fun x => is_subprocess (snd x)) (history s)
     = [(1%nat, ESubprocess "git add ruijie_os-edge-10.0.0.2-config.txt");
        (1%nat, ESubprocess
                  (commit_command "ruijie_os-edge-10.0.0.2-config.txt"
                     "2024-01-01 00:00:00.000000"));
        (1%nat, ESubprocess "git push")].
Proof. vm_compute. repeat split; repeat constructor. Qed.

Lemma git_transactions_serial_witness :
  let s := fire_all sample_order sample_start in
  serial (rev (ids s))
  /\ forall l1 l2 l3 l4 i j e1 e2 e3,
       history s = l1 ++ (i, e1) :: l2 ++ (j, e2) :: l3 ++ (i, e3) :: l4 ->
       j = i.
Proof.
  exact (git_transactions_serial MAX_CONCURRENT_BACKUPS "/opt/backup"
           "/opt/backup/xxx" sample_rows ∅ _
           (fire_all_reachable false _ _ _ sample_order)).
Defined.

(** The serial order rests on asyncio's scheduling: were the thread
    taken from a task between two subprocesses, the git steps of two
    files would interleave. *)
Example preemption_would_interleave :
  let moves := replicate 10 (Some 0%nat) ++ [None]
               ++ replicate 10 (Some 1%nat) ++ [None]
               ++ replicate 2 (Some 0%nat) in
  let s := play moves
             (start MAX_CONCURRENT_BACKUPS
                (main_tasks "/opt/backup" "/opt/backup/xxx" quick_rows)
                (boot "/opt/backup" ∅)) in
  map fst (List.filter (fun x => is_subprocess (snd x)) (history s))
  = [0; 1; 0]%nat.
Proof. vm_compute. reflexivity. Qed.

(** *** Every task performs its own events, and none is abandoned *)

Lemma events_of_app j h1 h2 :
  events_of j (h1 ++ h2) = events_of j h1 ++ events_of j h2.
Proof. unfold events_of. rewrite List.filter_app, map_app. reflexivity. Qed.

Lemma settled_start capacity runs w : Settled runs (start capacity runs w).
Proof.
  split; simpl.
  - apply length_map.
  - intros j t run Hj Hrun. rewrite list_lookup_fmap, Hrun in Hj.
    injection Hj as <-. split; reflexivity.
Qed.

Lemma settled_perform runs s i t e rest v :
  Settled runs s -> tasks s !! i = Some t -> todo t = e :: rest ->
  Settled runs (perform s i t e rest v).
Proof.
  intros [Hlen Htr] Hi Ht.
  assert (i < length (tasks s))%nat as Hlt
    by (apply lookup_lt_is_Some; eauto).
  split; simpl.
  - rewrite length_insert. exact Hlen.
  - intros j t' run Hj Hrun. rewrite events_of_app.
    destruct (decide (j = i)) as [->|Hne].
    + rewrite list_lookup_insert_eq in Hj by exact Hlt. injection Hj as <-.
      simpl. destruct (Htr i t run Hi Hrun) as [E1 E2].
      unfold events_of at 2. simpl. rewrite Nat.eqb_refl. simpl.
      rewrite <- app_assoc. simpl. rewrite <- Ht. split; assumption.
    + rewrite list_lookup_insert_ne in Hj by congruence.
      unfold events_of at 2. simpl.
      assert (Nat.eqb i j = false) as -> by (apply Nat.eqb_neq; congruence).
      simpl. rewrite app_nil_r. apply (Htr j t' run Hj Hrun).
Qed.

Lemma settled_step preemptive runs s s' :
  Settled runs s -> step preemptive s s' -> Settled runs s'.
Proof.
  intros HS Hstep.
  destruct Hstep; try (eapply settled_perform; eassumption);
    destruct HS; split; assumption.
Qed.

Lemma settled_reachable preemptive capacity runs w s :
  reachable preemptive capacity runs w s -> Settled runs s.
Proof.
  intros Hs. eapply (rtc_ind_r (Settled runs)); [| |exact Hs].
  - apply settled_start.
  - intros y z _ Hstep Hy. eapply settled_step; eassumption.
Qed.

(** When no coroutine ends with an exception, [gather] never has one to
    deliver and the run is never cancelled. *)
Lemma never_cancelled preemptive capacity runs w s :
  Forall (fun run => is_raise (snd run) = false) runs ->
  reachable preemptive capacity runs w s ->
  gather_exception s = false /\ cancelled s = false.
Proof.
  intros Hok Hs.
  assert (rtc (step preemptive) (start capacity runs w) s
          /\ gather_exception s = false /\ cancelled s = false) as (_ & H);
    [|exact H].
  eapply (rtc_ind_r (fun s => rtc (step preemptive) (start capacity runs w) s
                              /\ gather_exception s = false
                              /\ cancelled s = false)); [| |exact Hs].
  - split; [apply rtc_refl | split; reflexivity].
  - intros y z _ Hstep (Hy & Hg & Hc).
    split; [eapply rtc_r; eassumption|].
    pose proof (settled_reachable _ _ _ _ _ Hy) as [Hlen Htr].
    assert (forall i t e rest v,
              tasks y !! i = Some t ->
              gather_exception (perform y i t e rest v) = false
              /\ cancelled (perform y i t e rest v) = false) as Hperform.
    { intros i t e rest v Hi. simpl. split; [|exact Hc].
      destruct rest; [|exact Hg]. rewrite Hg. simpl.
      assert (is_Some (runs !! i)) as [run Hrun].
      { apply lookup_lt_is_Some. rewrite <- Hlen.
        apply lookup_lt_is_Some. eauto. }
      destruct (Htr i t run Hi Hrun) as [_ ->].
      rewrite Forall_forall in Hok. apply Hok.
      apply list_elem_of_lookup. eauto. }
    destruct Hstep; try (eapply Hperform; eassumption);
      try (split; assumption).
    congruence.
Qed.

Lemma holders_idle ts :
  Forall (fun t => phase t = Pending \/ phase t = Done) ts ->
  holders ts = 0%nat.
Proof.
  induction 1 as [|t ts [Ht|Ht] _ IH]; [reflexivity| |];
    unfold holders in *; simpl; unfold holding at 1; rewrite Ht; exact IH.
Qed.

Lemma holders_one ts i t :
  ts !! i = Some t ->
  (forall j t', ts !! j = Some t' -> j <> i ->
                phase t' = Pending \/ phase t' = Done) ->
  holders ts = holding t.
Proof.
  revert i. induction ts as [|a ts IH]; intros [|i] Hi Hidle;
    try discriminate Hi.
  - injection Hi as ->. unfold holders. simpl.
    fold (holders ts). rewrite holders_idle; [lia|].
    apply Forall_lookup_2. intros j t' Hj.
    apply (Hidle (S j) t' Hj). discriminate.
  - unfold holders. simpl. fold (holders ts).
    rewrite (IH i Hi).
    + unfold holding at 1.
      destruct (Hidle 0%nat a eq_refl) as [-> | ->]; [discriminate|..];
        reflexivity.
    + intros j t' Hj Hne. apply (Hidle (S j) t' Hj). congruence.
Qed.

(** Under asyncio's scheduling, with a capacity of at least one and as
    long as the run is not cancelled, the loop can always go on until
    every task is done: no task waits for another for ever. *)
Lemma coop_progress capacity s :
  (1 <= capacity)%nat -> Inv capacity s -> Coop s -> cancelled s = false ->
  Forall (fun t => phase t = Done) (tasks s) \/ exists s', step false s s'.
Proof.
  intros Hcap [Hwf Hsem Hses] [Hidle Hfresh Hrun Hser] Hc.
  destruct (running s) as [i|] eqn:Hr.
  - right. destruct (Hrun Hc i eq_refl) as [(t & Hi & Hne) _].
    destruct (todo t) as [|e rest] eqn:Ht; [contradiction|].
    destruct e;
      try (lazymatch type of Ht with
           | todo t = ?e :: _ =>
               eexists; apply (step_event false s i t e rest);
               (assumption || reflexivity)
           end).
    + destruct (sem_value s) as [|v] eqn:Hv.
      * exfalso.
        pose proof (Forall_lookup_1 _ _ _ _ Hwf Hi) as Hwt. simpl in Hwt.
        rewrite Ht in Hwt. apply wf_cons in Hwt as [Hlegal _].
        assert (holders (tasks s) = holding t) as Hh.
        { apply (holders_one _ i t Hi). intros j t' Hj Hne'.
          apply (Hidle Hc j t' Hj). congruence. }
        unfold holding in Hh.
        destruct (phase t) as [|[|[|n]]|]; try discriminate Hlegal. lia.
      * eexists. eapply (step_acquire false s i t rest v); assumption.
    + eexists. eapply (step_release false s i t rest); assumption.
  - assert (Forall (fun t => phase t = Done) (tasks s)
            \/ Exists (fun t => todo t <> []) (tasks s)) as [Hd|He].
    { clear -Hwf. induction Hwf as [|t ts Ht _ IH]; [left; constructor|].
      destruct (todo t) as [|e rest] eqn:E.
      - apply wf_done in Ht.
        destruct IH as [IH|IH]; [left; constructor; assumption|].
        right. right. exact IH.
      - right. left. rewrite E. discriminate. }
    + left. exact Hd.
    + right. apply Exists_exists in He as (t & Hin & Hne).
      apply list_elem_of_lookup in Hin as [i Hi].
      destruct (todo t) as [|e rest] eqn:Ht; [contradiction|].
      eexists. eapply (step_dispatch false s i t e rest); assumption.
Qed.

(** ** Which errors reach the retry loop *)

Lemma backup_config_result
    ip username password platform role script_dir pro_dir envs :
  let run :=
    backup_config ip username password platform role script_dir pro_dir envs in
  snd run = Ok tt \/ exists msg, snd run = Raise (BaseException msg).
Proof.
  cbv zeta. rewrite backup_config_unfold. cbv zeta. cbn [snd].
  apply retry_loop_result.
Qed.

Lemma retry_loop_head body ip envs k rest :
  exists tail,
    fst (retry_loop body ip envs (k :: rest)) = fst (body (envs k)) ++ tail.
Proof.
  cbn [retry_loop]. destruct (body (envs k)) as [evs [[]|[msg|msg]]].
  - exists []. symmetry. apply app_nil_r.
  - destruct (retry_loop body ip envs rest) as [evs' r].
    eexists. reflexivity.
  - exists []. symmetry. apply app_nil_r.
Qed.

Lemma seq_split k n :
  (k < n)%nat -> seq 0 n = seq 0 k ++ k :: seq (S k) (n - S k).
Proof.
  intros H. replace n with (k + S (n - S k))%nat at 1 by lia.
  rewrite seq_app. reflexivity.
Qed.

(** An exception caught at line 86 in iteration [k], after [k] failed
    iterations: the events of the attempt are followed by the two
    records of the handler and then by the next attempt, or, after the
    last iteration, by the exit of the semaphore. *)
Lemma retry_loop_catches
    ip username password platform role script_dir pro_dir envs k msg :
  let body := attempt ip username password platform role script_dir pro_dir in
  let run :=
    backup_config ip username password platform role script_dir pro_dir envs in
  (k < max_retries)%nat ->
  (forall j, (j < k)%nat -> caught (snd (body (envs j)))) ->
  snd (body (envs k)) = Raise (Exception msg) ->
  exists before after,
    fst run = before ++ fst (body (envs k)) ++ retry_handler ip k msg ++ after
    /\ attempts before = k
    /\ (forall k', k' = S k -> (k' < max_retries)%nat ->
        exists after', after = fst (body (envs k')) ++ after')
    /\ (S k = max_retries -> after = [SemRelease]).
Proof.
  intros body run Hk Hbefore Hfail. subst run.
  rewrite backup_config_unfold. cbv zeta. cbn [fst].
  rewrite (seq_split k max_retries Hk).
  change (seq 0 k ++ k :: ?l) with (seq 0 k ++ [k] ++ l).
  rewrite app_assoc.
  rewrite (retry_loop_failures body ip envs (seq 0 k ++ [k])).
  2:{ intros j [Hj|Hj]%elem_of_app.
      - apply Hbefore. apply elem_of_seq in Hj. lia.
      - apply list_elem_of_singleton in Hj as ->. exists msg. exact Hfail. }
  cbn [fst]. rewrite flat_map_app. cbn [flat_map].
  unfold failed_iteration at 2. rewrite Hfail. cbn [message].
  exists (SemAcquire :: flat_map (failed_iteration body ip envs) (seq 0 k)).
  exists (fst (retry_loop body ip envs (seq (S k) (max_retries - S k)))
          ++ [SemRelease]).
  split; [|split; [|split]].
  - rewrite app_nil_r, <- !app_assoc. reflexivity.
  - change (attempts (SemAcquire :: ?l)) with (attempts l).
    subst body. rewrite attempts_failed_iterations. apply length_seq.
  - intros k' -> Hnext.
    replace (max_retries - S k)%nat with (S (max_retries - S (S k)))
      by lia.
    cbn [seq].
    destruct (retry_loop_head body ip envs (S k)
                (seq (S (S k)) (max_retries - S (S k)))) as [tail ->].
    eexists. rewrite <- app_assoc. reflexivity.
  - intros <-. rewrite Nat.sub_diag. reflexivity.
Qed.

Lemma pipeline_result filename pro_dir env :
  env_chdir env pro_dir = Ok tt -> env_chdir env ".." = Ok tt ->
  interrupted (snd (git_steps filename env)) = false ->
  snd (git_commit_and_push filename pro_dir env) = Ok tt.
Proof.
  intros Hcd Hup Hint. rewrite git_commit_and_push_unfold, Hcd, Hup.
  destruct (git_steps filename env) as [es [[]|[msg|msg]]];
    try discriminate Hint; reflexivity.
Qed.

(** An attempt whose session and write succeed ends normally whatever
    the git processes answer or raise, so the loop ends there: errors
    of the git steps do not reach line 86 and are not retried. *)
Lemma git_errors_end_the_loop
    ip username password platform role script_dir pro_dir envs k se output :
  let body := attempt ip username password platform role script_dir pro_dir in
  let run :=
    backup_config ip username password platform role script_dir pro_dir envs in
  let device := device_dict ip username password platform role script_dir in
  let filename := config_filename platform role ip in
  let path := os_path_join pro_dir filename in
  (k < max_retries)%nat ->
  (forall j, (j < k)%nat -> caught (snd (body (envs j)))) ->
  session device platform (envs k) = (se, Ok output) ->
  env_open (envs k) path = Ok tt ->
  env_write (envs k) path output = Ok tt ->
  env_chdir (envs k) pro_dir = Ok tt ->
  env_chdir (envs k) ".." = Ok tt ->
  interrupted (snd (git_steps filename (envs k))) = false ->
  snd (body (envs k)) = Ok tt
  /\ snd run = Ok tt
  /\ attempts (fst run) = S k.
Proof.
  intros body run device filename path Hk Hbefore Hs Ho Hw Hcd Hup Hint.
  assert (snd (body (envs k)) = Ok tt) as Hok.
  { subst body. rewrite attempt_unfold. cbv zeta.
    fold device filename path. rewrite Hs, Ho, Hw. cbn [snd].
    apply pipeline_result; assumption. }
  split; [exact Hok|]. subst run.
  rewrite backup_config_unfold. cbv zeta. cbn [fst snd].
  rewrite (seq_split k max_retries Hk).
  rewrite (retry_loop_failures body ip envs (seq 0 k)).
  2:{ intros j Hj. apply Hbefore. apply elem_of_seq in Hj. lia. }
  rewrite (retry_loop_success body ip envs k _ Hok). cbn [fst snd].
  split; [reflexivity|].
  change (attempts (SemAcquire :: ?l)) with (attempts l).
  rewrite !attempts_app. subst body.
  rewrite attempts_failed_iterations, attempt_attempts, length_seq.
  change (attempts [SemRelease]) with 0%nat. lia.
Qed.

(** A device that answers, with git processes that all fail: one
    attempt, no record of the retry handler, a normal return. *)
Lemma git_failure_not_retried :
  let run := backup_config "10.0.0.1" "admin" "pw" "huawei" "core"
               "/opt/backup" "/opt/backup/xxx" (fun _ => failing_git) in
  let f := "huawei-core-10.0.0.1-config.txt" in
  snd run = Ok tt
  /\ attempts (fst run) = 1%nat
  /\ List.filter is_log (fst run)
     = [ELog INFO "Config saved to huawei-core-10.0.0.1-config.txt";
        ELog ERROR
          (git_error_message (add_command f)
             (Sample.proc 128 EmptyString "fatal: not a git repository"));
        ELog ERROR "huawei-core-10.0.0.1-config.txt Submission Failed";
        ELog ERROR
          (git_error_message push_command
             (Sample.proc 1 EmptyString "fatal: no upstream"))]
  /\ snd (backup_config "10.0.0.1" "admin" "pw" "huawei" "core"
            "/opt/backup" "/opt/backup/xxx" (fun _ => no_subprocess)) = Ok tt
  /\ attempts
       (fst (backup_config "10.0.0.1" "admin" "pw" "huawei" "core"
               "/opt/backup" "/opt/backup/xxx" (fun _ => no_subprocess)))
     = 1%nat.
Proof. cbv zeta. repeat split. Qed.

Lemma main_tasks_return script_dir pro_dir rows :
  Forall (fun run => interrupted (snd run) = false)
         (main_tasks script_dir pro_dir rows) ->
  Forall (fun run => is_raise (snd run) = false)
         (main_tasks script_dir pro_dir rows).
Proof.
  unfold main_tasks. rewrite !Forall_map. intros Hall.
  eapply Forall_impl; [exact Hall|]. intros [row envs] H. simpl in *.
  destruct (backup_config_result (row_ip row) (row_username row)
              (row_password row) (row_platform row) (row_role row)
              script_dir pro_dir envs) as [E|[msg E]];
    cbv zeta in E; rewrite E in *; [reflexivity | discriminate H].
Qed.

(** C7, as the code has it.  An exception of class [Exception] that an
    attempt raises (from the connection, the negotiation, the fetch or
    the write) is caught at line 86 and logged with the address of the
    device; while fewer than five attempts were made a warning with the
    attempt count follows and then the next attempt, and after the fifth
    the permanent failure is logged and the loop ends.  Errors of the
    git steps, exit codes and exceptions of [subprocess.run] alike, are
    logged inside [git_commit_and_push] and do not reach line 86: the
    attempt ends normally and is not retried.  No such exception leaves
    [backup_config]; so, under asyncio's scheduling with a capacity of
    at least one and no task interrupted, the run is never cancelled,
    the loop can go on until every task is done, and every task performs
    the events of its own coroutine, whatever happened to the others. *)
Theorem failures_stay_in_their_task (capacity : nat)
    (script_dir pro_dir : string) (rows : list (Row * (nat -> Env)))
    (fs : gmap string string) (s : Loop) :
  (1 <= capacity)%nat ->
  Forall (fun run => interrupted (snd run) = false)
         (main_tasks script_dir pro_dir rows) ->
  reachable false capacity (main_tasks script_dir pro_dir rows)
            (boot script_dir fs) s ->
  (forall ip username password platform role envs k msg,
     let body :=
       attempt ip username password platform role script_dir pro_dir in
     let run :=
       backup_config ip username password platform role script_dir pro_dir
         envs in
     (k < max_retries)%nat ->
     (forall j, (j < k)%nat -> caught (snd (body (envs j)))) ->
     snd (body (envs k)) = Raise (Exception msg) ->
     exists before after,
       fst run
       = before ++ fst (body (envs k))
         ++ [ELog ERROR ("Error backing up " +:+ ip +:+ ": " +:+ msg);
             if (k <? max_retries - 1)%nat
             then ELog WARNING
                    ("Retrying backup for " +:+ ip +:+ " ("
                     +:+ pretty (k + 1)%nat +:+ "/" +:+ pretty max_retries
                     +:+ ")")
             else ELog ERROR
                    ("Max retries reached for " +:+ ip
                     +:+ ", backup failed.")]
         ++ after
       /\ attempts before = k
       /\ (forall k', k' = S k -> (k' < max_retries)%nat ->
           exists after', after = fst (body (envs k')) ++ after')
       /\ (S k = max_retries -> after = [SemRelease]))
  /\ (forall ip username password platform role envs k se output,
        let body :=
          attempt ip username password platform role script_dir pro_dir in
        let run :=
          backup_config ip username password platform role script_dir
            pro_dir envs in
        let path := os_path_join pro_dir (config_filename platform role ip) in
        (k < max_retries)%nat ->
        (forall j, (j < k)%nat -> caught (snd (body (envs j)))) ->
        session (device_dict ip username password platform role script_dir)
                platform (envs k) = (se, Ok output) ->
        env_open (envs k) path = Ok tt ->
        env_write (envs k) path output = Ok tt ->
        env_chdir (envs k) pro_dir = Ok tt ->
        env_chdir (envs k) ".." = Ok tt ->
        interrupted
          (snd (git_steps (config_filename platform role ip) (envs k)))
        = false ->
        snd (body (envs k)) = Ok tt
        /\ snd run = Ok tt
        /\ attempts (fst run) = S k)
  /\ (forall ip username password platform role envs,
        let run :=
          backup_config ip username password platform role script_dir
            pro_dir envs in
        snd run = Ok tt \/ exists msg, snd run = Raise (BaseException msg))
  /\ cancelled s = false
  /\ gather_exception s = false
  /\ (Forall (fun t => phase t = Done) (tasks s)
      \/ exists s', step false s s')
  /\ (forall j t run,
        tasks s !! j = Some t ->
        main_tasks script_dir pro_dir rows !! j = Some run ->
        events_of j (history s) ++ todo t = fst run).
Proof.
  intros Hcap Hint Hs.
  split; [|split; [|split]].
  - intros ip username password platform role envs k msg.
    apply retry_loop_catches.
  - intros ip username password platform role envs k se output.
    apply git_errors_end_the_loop.
  - intros ip username password platform role envs.
    apply backup_config_result.
  - destruct (never_cancelled _ _ _ _ _ (main_tasks_return _ _ _ Hint) Hs)
      as [Hg Hc].
    pose proof (settled_reachable _ _ _ _ _ Hs) as [_ Htr].
    apply coop_reachable in Hs as [HI HC];
      [|apply main_tasks_wf|reflexivity].
    split; [exact Hc|]. split; [exact Hg|]. split.
    + apply (coop_progress capacity s Hcap HI HC Hc).
    + intros j t run Hj Hrun. apply (Htr j t run Hj Hrun).
Qed.

(** The first sample task has failed for good; the second has not yet
    started and can. *)
Example sample_permanent_failure :
  let s := fire_all (replicate 17 0%nat) sample_start in
  map phase (tasks s) = [Done; Pending]
  /\ last (events_of 0 (history s)) = Some SemRelease
  /\ List.filter is_log (events_of 0 (history s))
     = flat_map (fun k => retry_handler "10.0.0.1" k
                            "TCP connection to device failed")
                [0; 1; 2; 3; 4]%nat.
Proof. vm_compute. repeat split. Qed.

Lemma failures_stay_in_their_task_witness :
  let s := fire_all (replicate 17 0%nat) sample_start in
  let script_dir := "/opt/backup" in
  let pro_dir := "/opt/backup/xxx" in
  (forall ip username password platform role envs k msg,
     let body :=
       attempt ip username password platform role script_dir pro_dir in
     let run :=
       backup_config ip username password platform role script_dir pro_dir
         envs in
     (k < max_retries)%nat ->
     (forall j, (j < k)%nat -> caught (snd (body (envs j)))) ->
     snd (body (envs k)) = Raise (Exception msg) ->
     exists before after,
       fst run
       = before ++ fst (body (envs k))
         ++ [ELog ERROR ("Error backing up " +:+ ip +:+ ": " +:+ msg);
             if (k <? max_retries - 1)%nat
             then ELog WARNING
                    ("Retrying backup for " +:+ ip +:+ " ("
                     +:+ pretty (k + 1)%nat +:+ "/" +:+ pretty max_retries
                     +:+ ")")
             else ELog ERROR
                    ("Max retries reached for " +:+ ip
                     +:+ ", backup failed.")]
         ++ after
       /\ attempts before = k
       /\ (forall k', k' = S k -> (k' < max_retries)%nat ->
           exists after', after = fst (body (envs k')) ++ after')
       /\ (S k = max_retries -> after = [SemRelease]))
  /\ (forall ip username password platform role envs k se output,
        let body :=
          attempt ip username password platform role script_dir pro_dir in
        let run :=
          backup_config ip username password platform role script_dir
            pro_dir envs in
        let path := os_path_join pro_dir (config_filename platform role ip) in
        (k < max_retries)%nat ->
        (forall j, (j < k)%nat -> caught (snd (body (envs j)))) ->
        session (device_dict ip username password platform role script_dir)
                platform (envs k) = (se, Ok output) ->
        env_open (envs k) path = Ok tt ->
        env_write (envs k) path output = Ok tt ->
        env_chdir (envs k) pro_dir = Ok tt ->
        env_chdir (envs k) ".." = Ok tt ->
        interrupted
          (snd (git_steps (config_filename platform role ip) (envs k)))
        = false ->
        snd (body (envs k)) = Ok tt
        /\ snd run = Ok tt
        /\ attempts (fst run) = S k)
  /\ (forall ip username password platform role envs,
        let run :=
          backup_config ip username password platform role script_dir
            pro_dir envs in
        snd run = Ok tt \/ exists msg, snd run = Raise (BaseException msg))
  /\ cancelled s = false
  /\ gather_exception s = false
  /\ (Forall (fun t => phase t = Done) (tasks s)
      \/ exists s', step false s s')
  /\ (forall j t run,
        tasks s !! j = Some t ->
        main_tasks script_dir pro_dir sample_rows !! j = Some run ->
        events_of j (history s) ++ todo t = fst run).
Proof.
  refine (failures_stay_in_their_task MAX_CONCURRENT_BACKUPS "/opt/backup"
            "/opt/backup/xxx" sample_rows ∅ _ _ _
            (fire_all_reachable false _ _ _ (replicate 17 0%nat))).
  - unfold MAX_CONCURRENT_BACKUPS. lia.
  - repeat constructor.
Defined.

Lemma pagination_before_fetch_witness :
  let env := Sample.fine "Change now? [Y/N]:"
               "nothing to commit, working tree clean" in
  let prompt := "Change now? [Y/N]:" in
  let huawei :=
    sent (fst (attempt "10.0.0.1" "admin" "pw" "huawei" "core" "/opt/backup"
                 "/opt/backup/xxx" env)) in
  let ruijie :=
    sent (fst (attempt "10.0.0.1" "admin" "pw" "ruijie_os" "core"
                 "/opt/backup" "/opt/backup/xxx" env)) in
  huawei `prefix_of` dialogue "huawei" prompt
  /\ (fetch_command "huawei" ∈ huawei -> huawei = dialogue "huawei" prompt)
  /\ ruijie `prefix_of` dialogue "ruijie_os" prompt
  /\ (fetch_command "ruijie_os" ∈ ruijie ->
      ruijie = dialogue "ruijie_os" prompt)
  /\ dialogue "huawei" "[Y/N]:"
     = [ESendCommandExpect "N" ">";
        ESendCommandExpect "screen-length 0 temporary" ">";
        ESendCommand "display current" 1800]
  /\ dialogue "ruijie_os" "[Y/N]:"
     = [ESendCommandExpect "N" ">";
        ESendCommandExpect "terminal width 256" "#";
        ESendCommandExpect "terminal length 0" "#";
        ESendCommand "show running-config" 1800].
Proof.
  exact (pagination_before_fetch "10.0.0.1" "admin" "pw" "core" "/opt/backup"
           "/opt/backup/xxx"
           (Sample.fine "Change now? [Y/N]:"
              "nothing to commit, working tree clean")
           "Change now? [Y/N]:" eq_refl).
Defined.

(** * Part IV: further properties

    The rest of the script ([setup_logging], [clone_repo], the beginning
    of [main]) and more on the retry loop, the git pipeline and the
    event loop. *)

(** ** [str.split] and the name of the repository directory *)

Lemma split_not_nil sep s : split sep s <> [].
Proof.
  destruct s as [|c s]; simpl; [easy|].
  destruct (Ascii.eqb c sep); [easy|].
  destruct (split sep s); easy.
Qed.

Lemma join_cons_char sep c piece pieces :
  join sep (String c piece :: pieces) = String c (join sep (piece :: pieces)).
Proof. destruct pieces; reflexivity. Qed.

Lemma all_chars_app p a b :
  Str.all_chars p (a +:+ b) = Str.all_chars p a && Str.all_chars p b.
Proof.
  induction a as [|c a IH]; [reflexivity|].
  rewrite StrFacts.app_cons. simpl. rewrite IH. apply andb_assoc.
Qed.

Lemma split_pieces sep s :
  Forall (fun piece => Str.all_chars (differs sep) piece = true) (split sep s).
Proof.
  induction s as [|c s IH]; simpl.
  - repeat constructor.
  - destruct (Ascii.eqb c sep) eqn:Hc.
    + constructor; [reflexivity | exact IH].
    + destruct (split sep s) as [|piece pieces].
      * repeat constructor. simpl. unfold differs. rewrite Hc. reflexivity.
      * inversion IH; subst. constructor; [|assumption].
        simpl. unfold differs at 1. rewrite Hc. simpl. assumption.
Qed.

Lemma join_split sep s : join sep (split sep s) = s.
Proof.
  induction s as [|c s IH]; [reflexivity|].
  simpl. destruct (Ascii.eqb c sep) eqn:Hc.
  - apply Ascii.eqb_eq in Hc. subst c.
    destruct (split sep s) as [|piece pieces] eqn:Hs.
    + now destruct (split_not_nil sep s).
    + change (join sep (EmptyString :: piece :: pieces))
        with (String sep (join sep (piece :: pieces))).
      now rewrite IH.
  - destruct (split sep s) as [|piece pieces] eqn:Hs.
    + now destruct (split_not_nil sep s).
    + rewrite join_cons_char. now rewrite IH.
Qed.

Lemma split_plain sep piece :
  Str.all_chars (differs sep) piece = true -> split sep piece = [piece].
Proof.
  induction piece as [|c piece IH]; [reflexivity|].
  simpl. unfold differs at 1. intros H. apply andb_true_iff in H as [Hc H].
  apply negb_true_iff in Hc. rewrite Hc, (IH H). reflexivity.
Qed.

Lemma split_app_sep sep piece s :
  Str.all_chars (differs sep) piece = true ->
  split sep (piece +:+ String sep s) = piece :: split sep s.
Proof.
  induction piece as [|c piece IH]; intros H.
  - change (EmptyString +:+ String sep s) with (String sep s).
    simpl. now rewrite Ascii.eqb_refl.
  - simpl in H. apply andb_true_iff in H as [Hc H].
    unfold differs in Hc. apply negb_true_iff in Hc.
    rewrite StrFacts.app_cons. simpl. rewrite Hc, (IH H). reflexivity.
Qed.

Lemma split_join sep pieces :
  pieces <> [] ->
  Forall (fun piece => Str.all_chars (differs sep) piece = true) pieces ->
  split sep (join sep pieces) = pieces.
Proof.
  induction pieces as [|piece pieces IH]; [easy|].
  intros _ H. inversion H as [|? ? Hp Hps]; subst.
  destruct pieces as [|piece' pieces].
  - simpl. now apply split_plain.
  - change (join sep (piece :: piece' :: pieces))
      with (piece +:+ String sep (join sep (piece' :: pieces))).
    rewrite split_app_sep by assumption.
    f_equal. now apply IH.
Qed.

Lemma split_length sep s : length (split sep s) = S (occurrences sep s).
Proof.
  induction s as [|c s IH]; [reflexivity|].
  simpl. destruct (Ascii.eqb c sep).
  - simpl. now rewrite IH.
  - destruct (split sep s); simpl in *; congruence.
Qed.

(** X5. [split] and [join] are inverse to each other. *)
Theorem split_join_round_trip (sep : ascii) (s : string) :
  join sep (split sep s) = s
  /\ length (split sep s) = S (occurrences sep s)
  /\ Forall (fun piece => Str.all_chars (differs sep) piece = true)
            (split sep s)
  /\ (forall pieces,
        pieces <> [] ->
        Forall (fun piece => Str.all_chars (differs sep) piece = true) pieces ->
        split sep (join sep pieces) = pieces).
Proof.
  split; [apply join_split|].
  split; [apply split_length|].
  split; [apply split_pieces|].
  intros pieces. apply split_join.
Qed.

Lemma all_chars_impl (p q : ascii -> bool) s :
  (forall c, p c = true -> q c = true) ->
  Str.all_chars p s = true -> Str.all_chars q s = true.
Proof.
  intros Hpq. induction s as [|c s IH]; [easy|].
  simpl. intros H. apply andb_true_iff in H as [Hc H].
  now rewrite (Hpq c Hc), IH.
Qed.

Lemma last_split_differs sep s :
  Str.all_chars (differs sep) (List.last (split sep s) EmptyString) = true.
Proof.
  pose proof (split_pieces sep s) as H.
  pose proof (split_not_nil sep s) as Hn.
  destruct (split sep s) as [|p ps]; [easy|].
  clear Hn. revert p H. induction ps as [|q ps IH]; intros p H.
  - now inversion H.
  - inversion H; subst. change (List.last (p :: q :: ps) EmptyString)
      with (List.last (q :: ps) EmptyString). now apply IH.
Qed.

Lemma hd_split_prefix sep s :
  exists rest, s = hd EmptyString (split sep s) +:+ rest.
Proof.
  pose proof (join_split sep s) as H.
  destruct (split sep s) as [|p [|q ps]].
  - exists s. reflexivity.
  - simpl in *. exists EmptyString. now rewrite StrFacts.app_nil_r.
  - change (join sep (p :: q :: ps))
      with (p +:+ String sep (join sep (q :: ps))) in H.
    simpl. eexists. symmetry. exact H.
Qed.

Lemma pdir_no_slash url_path :
  Str.all_chars not_slash (pdir_of url_path) = true.
Proof.
  unfold pdir_of.
  pose proof (last_split_differs "/" url_path) as H.
  destruct (hd_split_prefix "." (List.last (split "/" url_path) EmptyString))
    as [rest Hr].
  rewrite Hr, all_chars_app in H. apply andb_true_iff in H as [H _].
  exact H.
Qed.

Lemma pdir_no_dot url_path :
  Str.all_chars (differs ".") (pdir_of url_path) = true.
Proof.
  unfold pdir_of.
  pose proof (split_pieces "." (List.last (split "/" url_path) EmptyString))
    as H.
  destruct (split "." (List.last (split "/" url_path) EmptyString)).
  - reflexivity.
  - now inversion H.
Qed.

(** X6. The repository directory is a direct child of the script
    directory. *)
Theorem pdir_is_a_name (url_path script_dir : string) :
  let pdir := pdir_of url_path in
  Str.all_chars not_slash pdir = true
  /\ Str.all_chars (differs ".") pdir = true
  /\ (clean_dir script_dir = true -> Str.is_empty pdir = false ->
      os_path_join script_dir pdir = script_dir +:+ "/" +:+ pdir
      /\ Path.dirname (os_path_join script_dir pdir) = script_dir)
  /\ pdir_of "/network/xxx.git" = "xxx"
  /\ pdir_of "/network/" = EmptyString
  /\ pdir_of "/network/.git" = EmptyString.
Proof.
  intros pdir.
  split; [apply pdir_no_slash|].
  split; [apply pdir_no_dot|].
  split; [|repeat split; reflexivity].
  intros Hd He.
  assert (clean_name pdir = true) as Hn.
  { unfold clean_name. rewrite He. simpl. apply pdir_no_slash. }
  split; [now apply join_clean | now apply dirname_join].
Qed.

(** ** More on the retry loop of [backup_config] *)

Lemma retry_loop_attempts
    ip username password platform role script_dir pro_dir envs counts :
  let evs :=
    fst (retry_loop
           (attempt ip username password platform role script_dir pro_dir)
           ip envs counts) in
  (attempts evs <= length counts)%nat
  /\ (counts <> [] -> 1 <= attempts evs)%nat.
Proof.
  induction counts as [|k counts IH]; cbn [retry_loop];
    [split; [unfold attempts; simpl; lia|easy]|].
  pose proof (attempt_attempts ip username password platform role script_dir
                pro_dir (envs k)) as Ha.
  destruct (attempt ip username password platform role script_dir pro_dir
              (envs k)) as [evs [[]|[msg|msg]]]; cbn [fst snd length] in Ha |- *.
  - rewrite Ha. split; lia.
  - destruct (retry_loop _ ip envs counts) as [evs' r'].
    cbn [fst] in *. destruct IH as [IH _].
    rewrite !attempts_app, attempts_retry_handler, Ha. split; lia.
  - rewrite Ha. split; lia.
Qed.

(** X9. Whatever the devices, the disk and git answer, [backup_config]
    calls [ConnectHandler] at least once and at most five times. *)
Theorem attempts_bounded
    (ip username password platform role script_dir pro_dir : string)
    (envs : nat -> Env) :
  let run :=
    backup_config ip username password platform role script_dir pro_dir envs in
  (1 <= attempts (fst run) <= 5)%nat.
Proof.
  intros run. subst run. rewrite backup_config_unfold. cbn [fst].
  change (SemAcquire :: ?l) with ([SemAcquire] ++ l).
  rewrite !attempts_app.
  destruct (retry_loop_attempts ip username password platform role script_dir
              pro_dir envs (seq 0 max_retries)) as [Hle Hge].
  rewrite length_seq in Hle. unfold max_retries in *.
  specialize (Hge ltac:(easy)).
  change (attempts [SemAcquire]) with 0%nat.
  change (attempts [SemRelease]) with 0%nat. lia.
Qed.

Lemma retry_loop_stops body ip envs k rest :
  (forall msg, snd (body (envs k)) <> Raise (Exception msg)) ->
  retry_loop body ip envs (k :: rest) = body (envs k).
Proof.
  intros H. simpl. destruct (body (envs k)) as [evs [[]|[msg|msg]]];
    try reflexivity.
  now destruct (H msg).
Qed.

(** X10. The loop ends with the first attempt that does not raise an
    [Exception]. *)
Theorem first_uncaught_attempt_ends_the_loop
    (ip username password platform role script_dir pro_dir : string)
    (envs : nat -> Env) (k : nat) :
  let body := attempt ip username password platform role script_dir pro_dir in
  let run :=
    backup_config ip username password platform role script_dir pro_dir envs in
  (k < max_retries)%nat ->
  (forall j, (j < k)%nat -> caught (snd (body (envs j)))) ->
  (forall msg, snd (body (envs k)) <> Raise (Exception msg)) ->
  run = (SemAcquire
           :: flat_map (failed_iteration body ip envs) (seq 0 k)
           ++ fst (body (envs k)) ++ [SemRelease],
         snd (body (envs k)))
  /\ attempts (fst run) = S k
  /\ (snd (body (envs k)) = Ok tt
      \/ exists msg, snd (body (envs k)) = Raise (BaseException msg)).
Proof.
  intros body run Hk Hfail Hstop.
  assert (run = (SemAcquire
           :: flat_map (failed_iteration body ip envs) (seq 0 k)
           ++ fst (body (envs k)) ++ [SemRelease],
         snd (body (envs k)))) as Hrun.
  { subst run. rewrite backup_config_unfold. cbn zeta.
    rewrite (seq_split k max_retries) by exact Hk.
    fold body. rewrite retry_loop_failures.
    - rewrite retry_loop_stops by exact Hstop. cbn [fst snd].
      now rewrite <- app_assoc.
    - intros j Hj. apply Hfail. apply elem_of_seq in Hj. lia. }
  split; [exact Hrun|]. split.
  - rewrite Hrun. cbn [fst].
    change (SemAcquire :: ?l) with ([SemAcquire] ++ l).
    rewrite !attempts_app. subst body.
    rewrite attempts_failed_iterations, attempt_attempts, length_seq.
    change (attempts [SemAcquire]) with 0%nat.
    change (attempts [SemRelease]) with 0%nat. lia.
  - destruct (snd (body (envs k))) as [[]|[msg|msg]]; eauto.
    now destruct (Hstop msg).
Qed.

Lemma first_uncaught_attempt_ends_the_loop_witness :
  let body := attempt "10.0.0.1" "admin" "pw" "huawei" "core" "/opt/backup"
                "/opt/backup/xxx" in
  let run := backup_config "10.0.0.1" "admin" "pw" "huawei" "core"
               "/opt/backup" "/opt/backup/xxx" second_time in
  run = (SemAcquire
           :: flat_map (failed_iteration body "10.0.0.1" second_time) (seq 0 1)
           ++ fst (body (second_time 1%nat)) ++ [SemRelease],
         snd (body (second_time 1%nat)))
  /\ attempts (fst run) = 2%nat
  /\ (snd (body (second_time 1%nat)) = Ok tt
      \/ exists msg, snd (body (second_time 1%nat)) = Raise (BaseException msg)).
Proof.
  apply (first_uncaught_attempt_ends_the_loop "10.0.0.1" "admin" "pw" "huawei"
           "core" "/opt/backup" "/opt/backup/xxx" second_time 1).
  - unfold max_retries. lia.
  - intros j Hj. assert (j = 0%nat) as -> by lia.
    eexists. vm_compute. reflexivity.
  - intros msg. vm_compute. discriminate.
Defined.

(** ** Sessions and the semaphore are given back *)

Lemma exec_sessions w evs :
  Forall (fun e => neutral e = true) evs -> sessions (exec w evs) = sessions w.
Proof.
  intros H. revert w. induction H as [|e evs He _ IH]; intros w; [easy|].
  rewrite exec_cons, IH.
  destruct e as [| |d [|]| | | | | | | | |]; simpl in *; easy.
Qed.

Lemma io_neutral evs :
  Forall (fun e => is_io e = true) evs -> Forall (fun e => neutral e = true) evs.
Proof.
  intros H. eapply Forall_impl; [exact H|].
  intros [| |d [|]| | | | | | | | |]; simpl; easy.
Qed.

Lemma post_neutral evs :
  Forall (fun e => is_post e = true) evs ->
  Forall (fun e => neutral e = true) evs.
Proof.
  intros H. eapply Forall_impl; [exact H|].
  intros [| |d [|]| | | | | | | | |]; simpl; easy.
Qed.

Lemma attempt_sessions
    ip username password platform role script_dir pro_dir env w :
  sessions
    (exec w (fst (attempt ip username password platform role script_dir
                    pro_dir env)))
  = sessions w.
Proof.
  destruct (attempt_events ip username password platform role script_dir
              pro_dir env) as (post & Hpost & ->).
  destruct (env_connect env _); [|reflexivity].
  rewrite exec_cons, exec_app, exec_cons.
  rewrite (exec_sessions _ post) by now apply post_neutral.
  simpl. rewrite exec_sessions; [reflexivity|].
  apply io_neutral, session_io.
Qed.

Lemma attempt_no_sem ip username password platform role script_dir pro_dir env :
  Forall (fun e => is_sem e = false)
    (fst (attempt ip username password platform role script_dir pro_dir env)).
Proof.
  destruct (attempt_events ip username password platform role script_dir
              pro_dir env) as (post & Hpost & ->).
  destruct (env_connect env _); [|repeat constructor].
  constructor; [reflexivity|]. apply Forall_app. split.
  - eapply Forall_impl; [apply session_io|].
    intros [| |d [|]| | | | | | | | |]; simpl; easy.
  - constructor; [reflexivity|].
    eapply Forall_impl; [exact Hpost|].
    intros [| |d [|]| | | | | | | | |]; simpl; easy.
Qed.

Lemma retry_loop_gives_back
    ip username password platform role script_dir pro_dir envs counts :
  let evs :=
    fst (retry_loop
           (attempt ip username password platform role script_dir pro_dir)
           ip envs counts) in
  (forall w, sessions (exec w evs) = sessions w)
  /\ Forall (fun e => is_sem e = false) evs.
Proof.
  induction counts as [|k counts IH]; cbn [retry_loop];
    [split; [easy|constructor]|].
  pose proof (attempt_no_sem ip username password platform role script_dir
                pro_dir (envs k)) as Hs.
  pose proof (fun w => attempt_sessions ip username password platform role
                         script_dir pro_dir (envs k) w) as Ha.
  destruct (attempt ip username password platform role script_dir pro_dir
              (envs k)) as [evs [[]|[msg|msg]]]; cbn [fst] in *;
    try (split; assumption).
  destruct (retry_loop _ ip envs counts) as [evs' r'].
  cbn [fst] in *. destruct IH as [IH1 IH2]. split.
  - intros w. rewrite !exec_app, IH1.
    rewrite (exec_sessions _ (retry_handler _ _ _)); [apply Ha|].
    unfold retry_handler. repeat constructor.
    now destruct (_ <? _)%nat.
  - rewrite !Forall_app. repeat split; try assumption.
    unfold retry_handler. repeat constructor.
    now destruct (_ <? _)%nat.
Qed.

(** X11. However [backup_config] ends, it has closed every session it
    opened and has left the semaphore it entered. *)
Theorem backup_config_gives_back
    (ip username password platform role script_dir pro_dir : string)
    (envs : nat -> Env) :
  let run :=
    backup_config ip username password platform role script_dir pro_dir envs in
  (forall w, sessions (exec w (fst run)) = sessions w)
  /\ exists inside,
       fst run = SemAcquire :: inside ++ [SemRelease]
       /\ Forall (fun e => is_sem e = false) inside.
Proof.
  intros run. subst run. rewrite backup_config_unfold. cbn [fst].
  destruct (retry_loop_gives_back ip username password platform role
              script_dir pro_dir envs (seq 0 max_retries)) as [H1 H2].
  split.
  - intros w. rewrite exec_cons, exec_app.
    change (sessions (exec ?x [SemRelease])) with (sessions x).
    rewrite H1. reflexivity.
  - eexists. split; [reflexivity | exact H2].
Qed.

(** ** What a failed attempt leaves behind *)

Lemma session_commands device platform env :
  commands (fst (session device platform env)) = [].
Proof.
  rewrite session_unfold. destruct (env_connect env device); [|reflexivity].
  cbn [fst]. change (EConnect device true :: ?l) with ([EConnect device true] ++ l).
  rewrite !commands_app. simpl.
  pose proof (session_io platform env) as H.
  induction H as [|e evs He _ IH]; [reflexivity|].
  destruct e; simpl in *; try discriminate; exact IH.
Qed.

(** X12. An attempt that fails in the session or in opening the
    backup file ends with the session: the exception leaves it, the
    script has opened and written no file and started no command.  An
    attempt that fails in the write has opened the backup file (with
    ['w+']) and completed no write; the exception leaves it and no git
    command is started. *)
Theorem failed_attempt_leaves
    (ip username password platform role script_dir pro_dir : string)
    (env : Env) :
  let device := device_dict ip username password platform role script_dir in
  let path := os_path_join pro_dir (config_filename platform role ip) in
  let body := attempt ip username password platform role script_dir pro_dir in
  let se := fst (session device platform env) in
  (forall e, snd (session device platform env) = Raise e ->
     body env = (se, Raise e))
  /\ (forall output e,
        snd (session device platform env) = Ok output ->
        env_open env path = Raise e ->
        body env = (se, Raise e))
  /\ (forall output e,
        snd (session device platform env) = Ok output ->
        env_open env path = Ok tt ->
        env_write env path output = Raise e ->
        body env = (se ++ [EOpen path], Raise e)
        /\ commands (fst (body env)) = []
        /\ List.filter touches_files (fst (body env)) = [EOpen path])
  /\ Forall (fun ev => touches_files ev = false) se
  /\ commands se = [].
Proof.
  intros device path body se. subst body se.
  pose proof (attempt_unfold ip username password platform role script_dir
                pro_dir env) as Hu. cbn zeta in Hu. fold device path in Hu.
  pose proof (session_files device platform env) as Hf.
  pose proof (session_commands device platform env) as Hc.
  destruct (session device platform env) as [se rs]. cbn [fst snd] in *.
  split; [|split; [|split; [|split; [exact Hf | exact Hc]]]].
  - intros e ->. now rewrite Hu.
  - intros output e -> Ho. now rewrite Hu, Ho.
  - intros output e -> Ho Hw. rewrite Hu, Ho, Hw. cbn [fst snd].
    split; [reflexivity|]. split.
    + rewrite commands_app, Hc. reflexivity.
    + rewrite List.filter_app. cbn [List.filter touches_files app].
      replace (List.filter touches_files se) with (@nil Event);
        [reflexivity|].
      clear -Hf. induction Hf as [|ev evs Hev _ IH]; [reflexivity|].
      cbn [List.filter]. now rewrite Hev.
Qed.

Example disk_full_opens_without_writing :
  let path := "/opt/backup/xxx/huawei-core-10.0.0.1-config.txt" in
  let run := backup_config "10.0.0.1" "admin" "pw" "huawei" "core"
               "/opt/backup" "/opt/backup/xxx" (fun _ => disk_full) in
  let unreachable :=
    backup_config "10.0.0.1" "admin" "pw" "huawei" "core"
      "/opt/backup" "/opt/backup/xxx" (fun _ => Sample.unreachable) in
  attempts (fst run) = 5%nat
  /\ commands (fst run) = []
  /\ List.filter touches_files (fst run)
     = [EOpen path; EOpen path; EOpen path; EOpen path; EOpen path]
  /\ attempts (fst unreachable) = 5%nat
  /\ List.filter touches_files (fst unreachable) = [].
Proof. vm_compute. repeat split; reflexivity. Qed.

(** ** Exceptions inside the git pipeline *)

Lemma git_steps_add_raises filename env e :
  env_run env (add_command filename) = Raise e ->
  git_steps filename env = ([ESubprocess (add_command filename)], Raise e).
Proof.
  intros Ha. unfold git_steps, bind, datetime_now, subprocess_run, call.
  rewrite Ha. reflexivity.
Qed.

Lemma git_steps_commit_raises filename env pa e :
  env_run env (add_command filename) = Ok pa ->
  env_run env (commit_command filename (env_now env)) = Raise e ->
  git_steps filename env =
  (ESubprocess (add_command filename)
     :: exit_log (add_command filename) pa
     ++ [ESubprocess (commit_command filename (env_now env))],
   Raise e).
Proof.
  intros Ha Hc.
  unfold git_steps, bind, datetime_now, subprocess_run, call, exit_log,
    logging_error, emit, ret.
  rewrite Ha. cbn [app]. destruct (returncode pa =? 0); rewrite Hc; reflexivity.
Qed.

(** X14. An exception of [subprocess.run] ends the pipeline: the steps
    after it are not run, one error is logged and the call returns. *)
Theorem git_exception_skips_the_rest (filename pro_dir : string) (env : Env)
    (msg : string) :
  env_chdir env pro_dir = Ok tt ->
  env_chdir env ".." = Ok tt ->
  let run := git_commit_and_push filename pro_dir env in
  let caught_log := ELog ERROR ("Error committing and pushing: " +:+ msg) in
  (env_run env (add_command filename) = Raise (Exception msg) ->
   run = ([EChdir pro_dir; ESubprocess (add_command filename);
           caught_log; EChdir ".."], Ok tt))
  /\ (forall pa,
        env_run env (add_command filename) = Ok pa ->
        env_run env (commit_command filename (env_now env))
        = Raise (Exception msg) ->
        run = (EChdir pro_dir :: ESubprocess (add_command filename)
                 :: exit_log (add_command filename) pa
                 ++ [ESubprocess (commit_command filename (env_now env));
                     caught_log; EChdir ".."], Ok tt)
        /\ commands (fst run) = [add_command filename;
                                 commit_command filename (env_now env)])
  /\ (forall pa pc,
        env_run env (add_command filename) = Ok pa ->
        env_run env (commit_command filename (env_now env)) = Ok pc ->
        env_run env push_command = Raise (Exception msg) ->
        run = (EChdir pro_dir :: ESubprocess (add_command filename)
                 :: exit_log (add_command filename) pa
                 ++ [ESubprocess (commit_command filename (env_now env));
                     log_outcome filename
                       (classify filename (commit_result (stdout pc)));
                     ESubprocess push_command;
                     caught_log; EChdir ".."], Ok tt)).
Proof.
  intros Hin Hout run caught_log. subst run.
  rewrite git_commit_and_push_unfold, Hin, Hout.
  split; [|split].
  - intros Ha. rewrite (git_steps_add_raises _ _ _ Ha). reflexivity.
  - intros pa Ha Hc. rewrite (git_steps_commit_raises _ _ _ _ Ha Hc).
    cbn [handled fst snd]. split.
    + cbn [app]. rewrite <- app_assoc. reflexivity.
    + cbn [fst]. unfold exit_log.
      destruct (returncode pa =? 0); reflexivity.
  - intros pa pc Ha Hc Hp. rewrite (git_steps_completed _ _ _ _ Ha Hc), Hp.
    cbn [handled fst snd app]. rewrite <- app_assoc. reflexivity.
Qed.

Lemma git_exception_skips_the_rest_witness :
  let env := no_subprocess in
  let run := git_commit_and_push "f.txt" "/opt/backup/xxx" env in
  let caught_log :=
    ELog ERROR ("Error committing and pushing: "
                +:+ "[Errno 12] Cannot allocate memory") in
  (env_run env (add_command "f.txt")
   = Raise (Exception "[Errno 12] Cannot allocate memory") ->
   run = ([EChdir "/opt/backup/xxx"; ESubprocess (add_command "f.txt");
           caught_log; EChdir ".."], Ok tt))
  /\ (forall pa,
        env_run env (add_command "f.txt") = Ok pa ->
        env_run env (commit_command "f.txt" (env_now env))
        = Raise (Exception "[Errno 12] Cannot allocate memory") ->
        run = (EChdir "/opt/backup/xxx" :: ESubprocess (add_command "f.txt")
                 :: exit_log (add_command "f.txt") pa
                 ++ [ESubprocess (commit_command "f.txt" (env_now env));
                     caught_log; EChdir ".."], Ok tt)
        /\ commands (fst run) = [add_command "f.txt";
                                 commit_command "f.txt" (env_now env)])
  /\ (forall pa pc,
        env_run env (add_command "f.txt") = Ok pa ->
        env_run env (commit_command "f.txt" (env_now env)) = Ok pc ->
        env_run env push_command
        = Raise (Exception "[Errno 12] Cannot allocate memory") ->
        run = (EChdir "/opt/backup/xxx" :: ESubprocess (add_command "f.txt")
                 :: exit_log (add_command "f.txt") pa
                 ++ [ESubprocess (commit_command "f.txt" (env_now env));
                     log_outcome "f.txt"
                       (classify "f.txt" (commit_result (stdout pc)));
                     ESubprocess push_command;
                     caught_log; EChdir ".."], Ok tt)).
Proof.
  apply (git_exception_skips_the_rest "f.txt" "/opt/backup/xxx" no_subprocess
           "[Errno 12] Cannot allocate memory"); reflexivity.
Defined.

(** ** Under asyncio's scheduling the backups run one at a time *)

Lemma coop_holders s :
  Coop s -> cancelled s = false -> (holders (tasks s) <= 1)%nat.
Proof.
  intros [Hidle _ Hrun _] Hc.
  destruct (running s) as [i|] eqn:Hr.
  - destruct (Hrun Hc i eq_refl) as [(t & Hi & _) _].
    rewrite (holders_one _ i t Hi).
    + unfold holding. destruct (phase t); lia.
    + intros j t' Hj Hne. apply (Hidle Hc j t' Hj). congruence.
  - rewrite holders_idle; [lia|].
    apply Forall_lookup_2. intros j t Hj. apply (Hidle Hc j t Hj). discriminate.
Qed.

Lemma step_tasks preemptive s s' :
  step preemptive s s' -> cancelled s' = false \/ tasks s' = tasks s.
Proof.
  intros Hstep. destruct Hstep; simpl; auto.
Qed.

Lemma coop_one_holder capacity runs w s :
  Forall (fun run => wf Pending (fst run) = true) runs ->
  sessions w = 0%nat ->
  reachable false capacity runs w s -> (holders (tasks s) <= 1)%nat.
Proof.
  intros Hwf Hw Hs.
  eapply (rtc_ind_r (fun s => holders (tasks s) <= 1)%nat); [| |exact Hs].
  - simpl. unfold holders. rewrite sum_list_with_pending by reflexivity. lia.
  - intros y z Hy Hstep IH.
    destruct (step_tasks _ _ _ Hstep) as [Hc|Ht]; [|now rewrite Ht].
    apply coop_holders; [|exact Hc].
    apply (coop_reachable capacity runs w); try assumption.
    eapply rtc_r; eassumption.
Qed.

(** X16. Under asyncio's scheduling the backups run one at a time: at
    most one task is inside the semaphore, at most one session is open,
    and a task that comes to the semaphore never waits. *)
Theorem asyncio_runs_one_backup_at_a_time (capacity : nat)
    (script_dir pro_dir : string) (rows : list (Row * (nat -> Env)))
    (fs : gmap string string) (s : Loop) :
  reachable false capacity (main_tasks script_dir pro_dir rows)
            (boot script_dir fs) s ->
  (holders (tasks s) <= 1)%nat
  /\ (sessions (world s) <= 1)%nat
  /\ (capacity - 1 <= sem_value s)%nat
  /\ (forall i t rest,
        cancelled s = false ->
        running s = Some i -> tasks s !! i = Some t ->
        todo t = SemAcquire :: rest ->
        sem_value s = capacity).
Proof.
  intros Hs.
  pose proof (main_tasks_wf script_dir pro_dir rows) as Hwf.
  pose proof (coop_one_holder capacity _ (boot script_dir fs) s Hwf eq_refl Hs)
    as Hone.
  destruct (coop_reachable capacity _ (boot script_dir fs) s Hwf eq_refl Hs)
    as [[Hwfs Hsem Hses] [Hidle _ _ _]].
  pose proof (in_flight_holders _ Hwfs) as Hfl.
  split; [exact Hone|]. split; [lia|]. split; [lia|].
  intros i t rest Hc Hr Hi Ht.
  pose proof (Forall_lookup_1 _ _ _ _ Hwfs Hi) as Hwt. simpl in Hwt.
  rewrite Ht in Hwt. apply wf_cons in Hwt as [Hlegal _].
  assert (holders (tasks s) = holding t) as Hh.
  { apply (holders_one _ i t Hi). intros j t' Hj Hne.
    apply (Hidle Hc j t' Hj). congruence. }
  unfold holding in Hh.
  destruct (phase t) as [|[|[|n]]|]; try discriminate Hlegal. lia.
Qed.

Lemma asyncio_runs_one_backup_at_a_time_witness :
  let s := fire_all (replicate 20 0%nat ++ replicate 3 1%nat) sample_start in
  (holders (tasks s) <= 1)%nat
  /\ (sessions (world s) <= 1)%nat
  /\ (MAX_CONCURRENT_BACKUPS - 1 <= sem_value s)%nat
  /\ (forall i t rest,
        cancelled s = false ->
        running s = Some i -> tasks s !! i = Some t ->
        todo t = SemAcquire :: rest ->
        sem_value s = MAX_CONCURRENT_BACKUPS).
Proof.
  apply (asyncio_runs_one_backup_at_a_time MAX_CONCURRENT_BACKUPS
           "/opt/backup" "/opt/backup/xxx" sample_rows ∅).
  apply fire_all_reachable.
Defined.

Example one_session_while_ten_are_allowed :
  let s := fire_all (replicate 17 0%nat ++ replicate 3 1%nat) sample_start in
  map phase (tasks s) = [Done; Inside 1]
  /\ sessions (world s) = 1%nat /\ sem_value s = 9%nat.
Proof. vm_compute. repeat split; reflexivity. Qed.

(** ** When every task is done *)

(** X19. When every task is done the semaphore is back at its capacity,
    no session is open, and every task has performed the events of its
    own coroutine, all of them and in order. *)
Theorem finished_run_is_clean (preemptive : bool) (capacity : nat)
    (script_dir pro_dir : string) (rows : list (Row * (nat -> Env)))
    (fs : gmap string string) (s : Loop) :
  reachable preemptive capacity (main_tasks script_dir pro_dir rows)
            (boot script_dir fs) s ->
  Forall (fun t => phase t = Done) (tasks s) ->
  sem_value s = capacity
  /\ sessions (world s) = 0%nat
  /\ length (tasks s) = length rows
  /\ (forall j run,
        main_tasks script_dir pro_dir rows !! j = Some run ->
        events_of j (history s) = fst run).
Proof.
  intros Hs Hdone.
  pose proof (main_tasks_wf script_dir pro_dir rows) as Hwf.
  destruct (inv_reachable preemptive capacity _ (boot script_dir fs) s Hwf
              eq_refl Hs) as [Hwfs Hsem Hses].
  destruct (settled_reachable _ _ _ _ _ Hs) as [Hlen Htr].
  assert (holders (tasks s) = 0%nat) as Hh.
  { apply holders_idle. eapply Forall_impl; [exact Hdone|]. auto. }
  pose proof (in_flight_holders _ Hwfs) as Hfl.
  split; [lia|]. split; [lia|]. split.
  - rewrite Hlen. unfold main_tasks. apply length_map.
  - intros j run Hrun.
    assert (is_Some (tasks s !! j)) as [t Hj].
    { apply lookup_lt_is_Some. rewrite Hlen. apply lookup_lt_is_Some. eauto. }
    destruct (Htr j t run Hj Hrun) as [Hev _].
    pose proof (Forall_lookup_1 _ _ _ _ Hdone Hj) as Hd. simpl in Hd.
    pose proof (Forall_lookup_1 _ _ _ _ Hwfs Hj) as Hwt. simpl in Hwt.
    rewrite Hd in Hwt. destruct (todo t) as [|e rest]; [|discriminate Hwt].
    now rewrite app_nil_r in Hev.
Qed.

Lemma finished_run_is_clean_witness :
  let s := fire_all sample_order sample_start in
  sem_value s = MAX_CONCURRENT_BACKUPS
  /\ sessions (world s) = 0%nat
  /\ length (tasks s) = length sample_rows
  /\ (forall j run,
        main_tasks "/opt/backup" "/opt/backup/xxx" sample_rows !! j
        = Some run ->
        events_of j (history s) = fst run).
Proof.
  apply (finished_run_is_clean false MAX_CONCURRENT_BACKUPS "/opt/backup"
           "/opt/backup/xxx" sample_rows ∅).
  - apply fire_all_reachable.
  - vm_compute. repeat constructor.
Defined.

(** ** Where the git commands run *)

Lemma in_repo_stays pro_dir d evs rest :
  Forall (fun e => stays e = true) evs ->
  in_repo pro_dir d (evs ++ rest) = in_repo pro_dir d rest.
Proof.
  induction 1 as [|e evs He _ IH]; [reflexivity|].
  destruct e; simpl in *; try discriminate He; exact IH.
Qed.

Lemma in_repo_body pro_dir evs rest :
  Forall (fun e => is_chdir e = false) evs ->
  in_repo pro_dir pro_dir (evs ++ rest) = in_repo pro_dir pro_dir rest.
Proof.
  induction 1 as [|e evs He _ IH]; [reflexivity|].
  destruct e; simpl in *; try discriminate He;
    rewrite ?String.eqb_refl; exact IH.
Qed.

Lemma stays_no_chdir evs :
  Forall (fun e => stays e = true) evs ->
  Forall (fun e => is_chdir e = false) evs.
Proof.
  intros H. eapply Forall_impl; [exact H|].
  intros e He. now destruct e.
Qed.

Lemma session_stays device platform env :
  Forall (fun e => stays e = true) (fst (session device platform env)).
Proof.
  rewrite session_unfold. destruct (env_connect env device);
    [|repeat constructor].
  cbn [fst]. constructor; [reflexivity|]. apply Forall_app. split.
  - eapply Forall_impl; [apply session_io|]. intros e He. now destruct e.
  - repeat constructor.
Qed.

(** The events of an attempt: events that stay where the process is,
    then the git pipeline, which is empty when [os.chdir(pro_dir)]
    fails. *)
Lemma attempt_shape ip username password platform role script_dir pro_dir env :
  exists pre pipe,
    fst (attempt ip username password platform role script_dir pro_dir env)
    = pre ++ pipe
    /\ Forall (fun e => stays e = true) pre
    /\ (pipe = []
        \/ exists body,
             Forall (fun e => is_chdir e = false) body
             /\ pipe = EChdir pro_dir :: body
                       ++ match env_chdir env ".." with
                          | Ok _ => [EChdir ".."]
                          | Raise _ => []
                          end).
Proof.
  pose proof (attempt_unfold ip username password platform role script_dir
                pro_dir env) as Hu. cbn zeta in Hu. rewrite Hu. clear Hu.
  pose proof (session_stays
                (device_dict ip username password platform role script_dir)
                platform env) as Hs.
  destruct (session _ platform env) as [se [output|e]]; cbn [fst] in Hs.
  2:{ exists se, []. rewrite app_nil_r. auto. }
  destruct (env_open env _).
  2:{ exists se, []. rewrite app_nil_r. auto. }
  destruct (env_write env _ output).
  2:{ eexists (se ++ [EOpen _]), []. rewrite app_nil_r. cbn [fst].
      split; [reflexivity|]. split; [|auto].
      apply Forall_app. split; [exact Hs | repeat constructor]. }
  cbn [fst].
  eexists (se ++ [EOpen _; EWrite _ output; ELog INFO _]), _.
  split; [rewrite <- app_assoc; reflexivity|].
  split; [apply Forall_app; split; [exact Hs | repeat constructor]|].
  destruct (env_chdir env pro_dir) as [[]|e] eqn:Hin.
  - right.
    destruct (git_commit_and_push_body (config_filename platform role ip)
                pro_dir env Hin) as (body & Hb & _ & ->).
    exists body. auto.
  - left. now rewrite (git_commit_and_push_no_repository _ _ _ _ Hin).
Qed.

Lemma attempt_in_repo
    ip username password platform role script_dir pro_dir env d rest :
  Str.startswith "/" pro_dir = true ->
  (forall d', in_repo pro_dir d' rest = true) ->
  in_repo pro_dir d
    (fst (attempt ip username password platform role script_dir pro_dir env)
     ++ rest) = true.
Proof.
  intros Habs Hrest.
  destruct (attempt_shape ip username password platform role script_dir
              pro_dir env) as (pre & pipe & -> & Hpre & Hpipe).
  rewrite <- app_assoc, in_repo_stays by exact Hpre.
  destruct Hpipe as [->|(body & Hb & ->)]; [apply Hrest|].
  cbn [app in_repo]. rewrite chdir_target_absolute by exact Habs.
  rewrite <- app_assoc, in_repo_body by exact Hb.
  destruct (env_chdir env ".."); apply Hrest.
Qed.

Lemma retry_handler_stays ip k msg :
  Forall (fun e => stays e = true) (retry_handler ip k msg).
Proof.
  unfold retry_handler. repeat constructor. now destruct (_ <? _)%nat.
Qed.

Lemma retry_loop_in_repo
    ip username password platform role script_dir pro_dir envs counts d rest :
  Str.startswith "/" pro_dir = true ->
  (forall d', in_repo pro_dir d' rest = true) ->
  in_repo pro_dir d
    (fst (retry_loop
            (attempt ip username password platform role script_dir pro_dir)
            ip envs counts)
     ++ rest) = true.
Proof.
  intros Habs Hrest. revert d.
  induction counts as [|k counts IH]; intros d; cbn [retry_loop];
    [apply Hrest|].
  pose proof (fun d rest =>
                attempt_in_repo ip username password platform role script_dir
                  pro_dir (envs k) d rest Habs) as Ha.
  destruct (attempt ip username password platform role script_dir pro_dir
              (envs k)) as [evs [[]|[msg|msg]]]; cbn [fst] in *;
    try (apply Ha, Hrest).
  destruct (retry_loop _ ip envs counts) as [evs' r']. cbn [fst] in *.
  rewrite <- !app_assoc. apply Ha. intros d'.
  rewrite in_repo_stays by apply retry_handler_stays. apply IH.
Qed.

Lemma main_tasks_in_repo script_dir pro_dir rows :
  Str.startswith "/" pro_dir = true ->
  Forall (fun run => forall d, in_repo pro_dir d (fst run) = true)
         (main_tasks script_dir pro_dir rows).
Proof.
  intros Habs. unfold main_tasks. apply Forall_map, Forall_forall.
  intros [row envs] _ d. rewrite backup_config_unfold. cbn [fst in_repo].
  apply retry_loop_in_repo; [exact Habs | reflexivity].
Qed.

Lemma in_repo_step pro_dir w e rest :
  in_repo pro_dir (cwd w) (e :: rest) = true ->
  in_repo pro_dir (cwd (apply_event w e)) rest = true
  /\ (Forall (fun dc => fst dc = pro_dir) (shell w) ->
      Forall (fun dc => fst dc = pro_dir) (shell (apply_event w e))).
Proof.
  destruct e as [| |dev [|]| | | | | | | | |]; simpl; intros H;
    try (split; [exact H | auto]).
  apply andb_true_iff in H as [Hd H]. apply String.eqb_eq in Hd.
  split; [exact H|]. intros Hs. apply Forall_app. split; [exact Hs|].
  repeat constructor. exact Hd.
Qed.

Lemma idle_task_is_pending capacity s i t e rest :
  Inv capacity s -> Coop s -> cancelled s = false -> running s = None ->
  tasks s !! i = Some t -> todo t = e :: rest -> phase t = Pending.
Proof.
  intros [Hwf _ _] [Hidle _ _ _] Hc Hr Hi Ht.
  destruct (Hidle Hc i t Hi) as [Hp|Hd]; [rewrite Hr; discriminate|exact Hp|].
  pose proof (Forall_lookup_1 _ _ _ _ Hwf Hi) as Hwt. simpl in Hwt.
  rewrite Hd, Ht in Hwt. discriminate Hwt.
Qed.

Lemma repo_perform capacity pro_dir s i t e rest v :
  Inv capacity s -> Repo pro_dir s ->
  cancelled s = false -> running s = Some i ->
  tasks s !! i = Some t -> todo t = e :: rest ->
  Repo pro_dir (perform s i t e rest v).
Proof.
  intros [Hwf _ _] [Hshell Hpend Hrun] Hc Hr Hi Ht.
  pose proof (Forall_lookup_1 _ _ _ _ Hwf Hi) as Hwt. simpl in Hwt.
  rewrite Ht in Hwt. apply wf_cons in Hwt as [Hlegal _].
  assert (i < length (tasks s))%nat as Hlen
    by (apply lookup_lt_is_Some; eauto).
  pose proof (Hrun Hc i t Hr Hi) as Hin. rewrite Ht in Hin.
  apply in_repo_step in Hin as [Hin Hsh].
  split.
  - simpl. apply Hsh, Hshell.
  - intros j t' Hj Hp. simpl in Hj.
    destruct (decide (j = i)) as [->|Hne].
    + rewrite list_lookup_insert_eq in Hj by exact Hlen.
      injection Hj as <-. simpl in Hp.
      contradiction (advance_not_pending _ _ Hlegal Hp).
    + rewrite list_lookup_insert_ne in Hj by congruence.
      apply (Hpend j t' Hj Hp).
  - intros _ j t' Hj Hi'. simpl in Hj, Hi'.
    destruct rest as [|e' rest]; [discriminate|]. injection Hj as <-.
    rewrite list_lookup_insert_eq in Hi' by exact Hlen.
    injection Hi' as <-. simpl. exact Hin.
Qed.

Lemma repo_step capacity pro_dir s s' :
  Inv capacity s -> Coop s -> Repo pro_dir s -> step false s s' ->
  Repo pro_dir s'.
Proof.
  intros HI HC HR Hstep.
  destruct Hstep as [s i t e rest Hc Hr Hi Ht
                    | s i t rest v Hc Hr Hi Ht Hv
                    | s i t rest Hc Hr Hi Ht Hv
                    | s i t rest Hc Hr Hi Ht
                    | s i t e rest Hc Hr Hi Ht He
                    | s i Hp _ _
                    | s _ _];
    try (eapply repo_perform; eassumption);
    try discriminate Hp.
  - (* dispatch *)
    pose proof (idle_task_is_pending _ _ _ _ _ _ HI HC Hc Hr Hi Ht) as Hp.
    destruct HR as [Hshell Hpend Hrun]. split; try assumption.
    intros _ j t' Hj Hj'. simpl in Hj, Hj'. injection Hj as <-.
    rewrite Hi in Hj'. injection Hj' as <-. apply (Hpend i t Hi Hp).
  - (* the task waits for the semaphore *)
    destruct HR as [Hshell Hpend Hrun]. split; try assumption.
    intros _ j t' Hj. discriminate Hj.
  - (* cancellation *)
    destruct HR as [Hshell Hpend Hrun]. split; try assumption.
    intros Hx. discriminate Hx.
Qed.

Lemma repo_start capacity pro_dir runs w :
  Forall (fun run => forall d, in_repo pro_dir d (fst run) = true) runs ->
  shell w = [] ->
  Repo pro_dir (start capacity runs w).
Proof.
  intros Hruns Hw. split; simpl.
  - rewrite Hw. constructor.
  - intros j t Hj _. apply list_lookup_fmap_Some in Hj as (run & -> & Hrun).
    simpl. apply (Forall_lookup_1 _ _ _ _ Hruns Hrun).
  - intros _ i t Hi. discriminate Hi.
Qed.

Lemma repo_reachable capacity pro_dir runs w s :
  Forall (fun run => wf Pending (fst run) = true) runs ->
  Forall (fun run => forall d, in_repo pro_dir d (fst run) = true) runs ->
  sessions w = 0%nat -> shell w = [] ->
  reachable false capacity runs w s -> Repo pro_dir s.
Proof.
  intros Hwf Hruns Hw Hsh Hs.
  eapply (rtc_ind_r (Repo pro_dir)); [| |exact Hs].
  - now apply repo_start.
  - intros y z Hy Hstep IH.
    destruct (coop_reachable capacity runs w y Hwf Hw Hy) as [HI HC].
    eapply repo_step; eassumption.
Qed.

(** X17. Under asyncio's scheduling every git command of every device
    runs in the repository directory, whatever the devices, the disk
    and git answer. *)
Theorem git_runs_in_the_repository (capacity : nat)
    (script_dir pro_dir : string) (rows : list (Row * (nat -> Env)))
    (fs : gmap string string) (s : Loop) :
  Str.startswith "/" pro_dir = true ->
  reachable false capacity (main_tasks script_dir pro_dir rows)
            (boot script_dir fs) s ->
  Forall (fun dc => fst dc = pro_dir) (shell (world s))
  /\ length (shell (world s))
     = length (List.filter (fun x => is_subprocess (snd x)) (history s)).
Proof.
  intros Habs Hs. split.
  - apply (repo_reachable capacity pro_dir
             (main_tasks script_dir pro_dir rows) (boot script_dir fs) s);
      try reflexivity; try assumption.
    + apply main_tasks_wf.
    + now apply main_tasks_in_repo.
  - eapply (rtc_ind_r
              (fun s => length (shell (world s))
                        = length (List.filter
                                    (fun x => is_subprocess (snd x))
                                    (history s)))); [| |exact Hs].
    + reflexivity.
    + intros y z _ Hstep IH.
      assert (forall i t e rest v,
                length (shell (world (perform y i t e rest v)))
                = length (List.filter (fun x => is_subprocess (snd x))
                            (history (perform y i t e rest v)))) as Hp.
      { intros i t e rest v. simpl. rewrite List.filter_app, length_app, <- IH.
        destruct e as [| |dev [|]| | | | | | | | |]; simpl;
          rewrite ?length_app; simpl; lia. }
      destruct Hstep; try apply Hp; exact IH.
Qed.

Lemma git_runs_in_the_repository_witness :
  let s := fire_all sample_order sample_start in
  Forall (fun dc => fst dc = "/opt/backup/xxx") (shell (world s))
  /\ length (shell (world s))
     = length (List.filter (fun x => is_subprocess (snd x)) (history s)).
Proof.
  apply (git_runs_in_the_repository MAX_CONCURRENT_BACKUPS "/opt/backup"
           "/opt/backup/xxx" sample_rows ∅).
  - reflexivity.
  - apply fire_all_reachable.
Defined.

(** If a call could suspend between [os.chdir(pro_dir)] and
    [os.chdir('..')], a git command of one device could run outside the
    repository: the first task changes back to the parent while the
    second is between its [git add] and its [git commit]. *)
Example preemption_would_misplace_git :
  let moves := replicate 9 (Some 0%nat) ++ [None]
               ++ replicate 10 (Some 1%nat) ++ [None]
               ++ replicate 6 (Some 0%nat) ++ [Some 1%nat] in
  let s := play moves
             (start MAX_CONCURRENT_BACKUPS
                (main_tasks "/opt/backup" "/opt/backup/xxx" quick_rows)
                (boot "/opt/backup" ∅)) in
  List.filter (fun dc => negb (String.eqb (fst dc) "/opt/backup/xxx"))
              (shell (world s))
  = [("/opt/backup",
      commit_command "huawei-edge-10.0.0.2-config.txt"
        "2024-01-01 00:00:00.000000")].
Proof. vm_compute. reflexivity. Qed.

(** ** Where the process is between two backups *)

Lemma attempt_home
    fs ip username password platform role script_dir pro_dir env home rest :
  resolve fs (resolve fs home pro_dir) ".." = home ->
  env_chdir env ".." = Ok tt ->
  cwd_after fs home
    (fst (attempt ip username password platform role script_dir pro_dir env)
     ++ rest)
  = cwd_after fs home rest.
Proof.
  intros Hparent Hup.
  destruct (attempt_shape ip username password platform role script_dir
              pro_dir env) as (pre & pipe & -> & Hpre & Hpipe).
  rewrite <- app_assoc, cwd_after_app.
  rewrite (cwd_after_no_chdir fs home pre) by now apply stays_no_chdir.
  destruct Hpipe as [->|(body & Hb & ->)]; [reflexivity|].
  rewrite Hup. cbn [app cwd_after].
  rewrite <- app_assoc, cwd_after_app.
  rewrite (cwd_after_no_chdir fs _ body Hb).
  cbn [app cwd_after]. now rewrite Hparent.
Qed.

Lemma retry_loop_home
    fs ip username password platform role script_dir pro_dir envs counts home
    rest :
  resolve fs (resolve fs home pro_dir) ".." = home ->
  (forall k, k ∈ counts -> env_chdir (envs k) ".." = Ok tt) ->
  cwd_after fs home
    (fst (retry_loop
            (attempt ip username password platform role script_dir pro_dir)
            ip envs counts)
     ++ rest)
  = cwd_after fs home rest.
Proof.
  intros Hparent.
  induction counts as [|k counts IH]; intros Hup; cbn [retry_loop];
    [reflexivity|].
  pose proof (fun rest =>
                attempt_home fs ip username password platform role script_dir
                  pro_dir (envs k) home rest Hparent
                  (Hup k (list_elem_of_here _ _))) as Ha.
  destruct (attempt ip username password platform role script_dir pro_dir
              (envs k)) as [evs [[]|[msg|msg]]]; cbn [fst] in *;
    try apply Ha.
  destruct (retry_loop _ ip envs counts) as [evs' r']. cbn [fst] in *.
  rewrite <- !app_assoc, Ha, cwd_after_app.
  rewrite (cwd_after_no_chdir fs home (retry_handler ip k msg))
    by apply stays_no_chdir, retry_handler_stays.
  apply IH. intros k' Hk'. apply Hup. now apply list_elem_of_further.
Qed.

Lemma main_tasks_home fs script_dir pro_dir rows home :
  resolve fs (resolve fs home pro_dir) ".." = home ->
  Forall (fun r => forall k, (k < max_retries)%nat ->
                             env_chdir (snd r k) ".." = Ok tt) rows ->
  Forall (fun run => cwd_after fs home (fst run) = home)
         (main_tasks script_dir pro_dir rows).
Proof.
  intros Hparent Hup. unfold main_tasks. apply Forall_map.
  eapply Forall_impl; [exact Hup|].
  intros [row envs] Hk. rewrite backup_config_unfold.
  cbn [fst snd cwd_after] in *.
  rewrite retry_loop_home; try assumption; [reflexivity|].
  intros k Hin. apply Hk. apply elem_of_seq in Hin. lia.
Qed.

Lemma here_perform fs home s i t e rest v :
  here fs home (perform s i t e rest v)
  = cwd_after fs (here fs home s) [e].
Proof.
  unfold here. cbn [history perform]. now rewrite map_app, cwd_after_app.
Qed.

Lemma cwd_after_cons fs d e rest :
  cwd_after fs d (e :: rest) = cwd_after fs (cwd_after fs d [e]) rest.
Proof. apply (cwd_after_app fs d [e] rest). Qed.

Lemma home_perform capacity fs home s i t e rest v :
  Inv capacity s -> Home fs home s ->
  cancelled s = false -> running s = Some i ->
  tasks s !! i = Some t -> todo t = e :: rest ->
  Home fs home (perform s i t e rest v).
Proof.
  intros [Hwf _ _] [Hpend Hrun Hfree Hfresh] Hc Hr Hi Ht.
  pose proof (Forall_lookup_1 _ _ _ _ Hwf Hi) as Hwt. simpl in Hwt.
  rewrite Ht in Hwt. apply wf_cons in Hwt as [Hlegal _].
  assert (i < length (tasks s))%nat as Hlen
    by (apply lookup_lt_is_Some; eauto).
  pose proof (Hrun Hc i t Hr Hi) as Hin.
  rewrite Ht, cwd_after_cons, <- (here_perform fs home s i t e rest v) in Hin.
  split.
  - intros j t' Hj Hp. cbn [tasks perform] in Hj.
    destruct (decide (j = i)) as [->|Hne].
    + rewrite list_lookup_insert_eq in Hj by exact Hlen.
      injection Hj as <-. simpl in Hp.
      contradiction (advance_not_pending _ _ Hlegal Hp).
    + rewrite list_lookup_insert_ne in Hj by congruence.
      apply (Hpend j t' Hj Hp).
  - intros _ j t' Hj Hi'. cbn [running tasks perform] in Hj, Hi'.
    destruct rest as [|e' rest]; [discriminate|]. injection Hj as <-.
    rewrite list_lookup_insert_eq in Hi' by exact Hlen.
    injection Hi' as <-. exact Hin.
  - intros _ Hnone. cbn [running perform] in Hnone.
    destruct rest as [|e' rest]; [|discriminate]. exact Hin.
  - intros _ j t' Hj Hi' Hp. cbn [running tasks perform] in Hj, Hi'.
    destruct rest as [|e' rest]; [discriminate|]. injection Hj as <-.
    rewrite list_lookup_insert_eq in Hi' by exact Hlen.
    injection Hi' as <-. simpl in Hp.
    contradiction (advance_not_pending _ _ Hlegal Hp).
Qed.

Lemma home_step capacity fs home s s' :
  Inv capacity s -> Coop s -> Home fs home s -> step false s s' ->
  Home fs home s'.
Proof.
  intros HI HC HH Hstep.
  destruct Hstep as [s i t e rest Hc Hr Hi Ht
                    | s i t rest v Hc Hr Hi Ht Hv
                    | s i t rest Hc Hr Hi Ht Hv
                    | s i t rest Hc Hr Hi Ht
                    | s i t e rest Hc Hr Hi Ht He
                    | s i Hp _ _
                    | s _ _];
    try (eapply home_perform; eassumption);
    try discriminate Hp.
  - (* dispatch *)
    pose proof (idle_task_is_pending _ _ _ _ _ _ HI HC Hc Hr Hi Ht) as Hp.
    destruct HH as [Hpend Hrun Hfree Hfresh]. split; try assumption.
    + intros _ j t' Hj Hj'. simpl in Hj, Hj'. injection Hj as <-.
      rewrite Hi in Hj'. injection Hj' as <-.
      change (here fs home (schedule s (Some i))) with (here fs home s).
      rewrite (Hfree Hc Hr). apply (Hpend i t Hi Hp).
    + intros _ Hx. discriminate Hx.
    + intros _ j t' _ _ _.
      change (here fs home (schedule s (Some i))) with (here fs home s).
      apply (Hfree Hc Hr).
  - (* the task waits for the semaphore *)
    destruct HI as [Hwf _ _].
    pose proof (Forall_lookup_1 _ _ _ _ Hwf Hi) as Hwt. simpl in Hwt.
    rewrite Ht in Hwt. apply wf_cons in Hwt as [Hlegal _].
    assert (phase t = Pending) as Hp
      by (destruct (phase t) as [|[|[|n]]|]; try discriminate Hlegal;
          reflexivity).
    destruct HH as [Hpend Hrun Hfree Hfresh]. split; try assumption.
    + intros _ j t' Hj. discriminate Hj.
    + intros _ _. change (here fs home (schedule s None)) with (here fs home s).
      apply (Hfresh Hc i t Hr Hi Hp).
    + intros _ j t' Hj. discriminate Hj.
  - (* cancellation *)
    destruct HH as [Hpend Hrun Hfree Hfresh].
    split; try assumption; intros Hx; discriminate Hx.
Qed.

Lemma home_start capacity fs home runs w :
  Forall (fun run => cwd_after fs home (fst run) = home) runs ->
  Home fs home (start capacity runs w).
Proof.
  intros Hruns. split; simpl.
  - intros j t Hj _. apply list_lookup_fmap_Some in Hj as (run & -> & Hrun).
    simpl. apply (Forall_lookup_1 _ _ _ _ Hruns Hrun).
  - intros _ i t Hi. discriminate Hi.
  - intros _ _. reflexivity.
  - intros _ i t Hi. discriminate Hi.
Qed.

Lemma home_reachable capacity fs home runs w s :
  Forall (fun run => wf Pending (fst run) = true) runs ->
  Forall (fun run => cwd_after fs home (fst run) = home) runs ->
  sessions w = 0%nat ->
  reachable false capacity runs w s -> Home fs home s.
Proof.
  intros Hwf Hruns Hw Hs.
  eapply (rtc_ind_r (Home fs home)); [| |exact Hs].
  - now apply home_start.
  - intros y z Hy Hstep IH.
    destruct (coop_reachable capacity runs w y Hwf Hw Hy) as [HI HC].
    eapply home_step; eassumption.
Qed.

(** X18. Under asyncio's scheduling, for a repository directory that
    the kernel knows under its path and whose parent is the script
    directory, and as long as [os.chdir('..')] succeeds, the process,
    which is in the script directory when the tasks start, is there
    again whenever no task holds the thread and whenever a task starts;
    the task that holds the thread brings it back there. *)
Theorem process_returns_to_script_dir (fs : FileSystem) (capacity : nat)
    (script_dir pro_dir : string) (rows : list (Row * (nat -> Env)))
    (files_then : gmap string string) (s : Loop) :
  physical fs pro_dir ->
  Path.dirname pro_dir = script_dir ->
  Forall (fun r => forall k, (k < max_retries)%nat ->
                             env_chdir (snd r k) ".." = Ok tt) rows ->
  reachable false capacity (main_tasks script_dir pro_dir rows)
            (boot script_dir files_then) s ->
  cancelled s = false ->
  (running s = None -> here fs script_dir s = script_dir)
  /\ (forall i t, running s = Some i -> tasks s !! i = Some t ->
                  (phase t = Pending -> here fs script_dir s = script_dir)
                  /\ cwd_after fs (here fs script_dir s) (todo t)
                     = script_dir).
Proof.
  intros [Hname Hparent] Hdir Hup Hs Hc.
  assert (resolve fs (resolve fs script_dir pro_dir) ".." = script_dir)
    as Hback by now rewrite Hname, Hparent.
  destruct (home_reachable capacity fs script_dir
              (main_tasks script_dir pro_dir rows)
              (boot script_dir files_then) s)
    as [Hpend Hrun Hfree Hfresh]; try reflexivity; try assumption.
  - apply main_tasks_wf.
  - now apply main_tasks_home.
  - split; [apply (Hfree Hc)|].
    intros i t Hr Hi. split; [apply (Hfresh Hc i t Hr Hi)|].
    apply (Hrun Hc i t Hr Hi).
Qed.

Lemma process_returns_to_script_dir_witness :
  let s := fire_all (replicate 17 0%nat ++ replicate 12 1%nat) sample_start in
  (running s = None -> here lexical "/opt/backup" s = "/opt/backup")
  /\ (forall i t, running s = Some i -> tasks s !! i = Some t ->
                  (phase t = Pending ->
                   here lexical "/opt/backup" s = "/opt/backup")
                  /\ cwd_after lexical (here lexical "/opt/backup" s) (todo t)
                     = "/opt/backup").
Proof.
  apply (process_returns_to_script_dir lexical MAX_CONCURRENT_BACKUPS
           "/opt/backup" "/opt/backup/xxx" sample_rows ∅).
  - split; [intros d; reflexivity | reflexivity].
  - reflexivity.
  - repeat constructor.
  - apply fire_all_reachable.
  - reflexivity.
Defined.

Example inside_the_pipeline :
  let s := fire_all (replicate 17 0%nat ++ replicate 12 1%nat) sample_start in
  running s = Some 1%nat
  /\ here lexical "/opt/backup" s = "/opt/backup/xxx"
  /\ here lexical "/opt/backup" (fire_all sample_order sample_start)
     = "/opt/backup".
Proof. vm_compute. repeat split; reflexivity. Qed.

(** ** [clone_repo] *)

Lemma clone_repo_unfold path_exists gitlab_url script_dir pro_dir env :
  clone_repo path_exists gitlab_url script_dir pro_dir env =
  match env_chdir env script_dir with
  | Raise e => ([], Raise e)
  | Ok _ =>
      if path_exists pro_dir then ([EChdir script_dir], Ok tt)
      else
        match env_run env ("git clone " +:+ gitlab_url) with
        | Ok process =>
            if returncode process =? 0 then
              ([EChdir script_dir; ESubprocess ("git clone " +:+ gitlab_url);
                ELog INFO "Repository cloned successfully"], Ok tt)
            else
              ([EChdir script_dir; ESubprocess ("git clone " +:+ gitlab_url);
                ELog ERROR ("Error cloning repository: " +:+ stderr process)],
               Raise (BaseException "1"))
        | Raise (Exception e) =>
            ([EChdir script_dir; ESubprocess ("git clone " +:+ gitlab_url);
              ELog ERROR ("Error cloning repository: " +:+ e)],
             Raise (BaseException "1"))
        | Raise (BaseException e) =>
            ([EChdir script_dir; ESubprocess ("git clone " +:+ gitlab_url)],
             Raise (BaseException e))
        end
  end.
Proof.
  unfold clone_repo, bind, os_chdir, syscall, try_except,
    create_subprocess_shell, call, logging_error, logging_info, emit,
    sys_exit, ret.
  destruct (env_chdir env script_dir) as [[]|e]; [|reflexivity].
  destruct (path_exists pro_dir); [reflexivity|]. cbn [negb].
  destruct (env_run env _) as [process|[e|e]]; try reflexivity.
  destruct (returncode process =? 0); reflexivity.
Qed.

(** X3. A clone that does not end with exit code 0 ends the program:
    one error is logged and [SystemExit] leaves [clone_repo]. *)
Theorem clone_failure_is_fatal (path_exists : string -> bool)
    (gitlab_url script_dir pro_dir : string) (env : Env) :
  env_chdir env script_dir = Ok tt ->
  path_exists pro_dir = false ->
  let command := "git clone " +:+ gitlab_url in
  let run := clone_repo path_exists gitlab_url script_dir pro_dir env in
  (forall process,
     env_run env command = Ok process -> returncode process <> 0 ->
     run = ([EChdir script_dir; ESubprocess command;
             ELog ERROR ("Error cloning repository: " +:+ stderr process)],
            Raise (BaseException "1")))
  /\ (forall msg,
        env_run env command = Raise (Exception msg) ->
        run = ([EChdir script_dir; ESubprocess command;
                ELog ERROR ("Error cloning repository: " +:+ msg)],
               Raise (BaseException "1")))
  /\ (snd run = Ok tt <->
      exists process, env_run env command = Ok process
                      /\ returncode process = 0)
  /\ (forall msg, snd run <> Raise (Exception msg)).
Proof.
  intros Hin Hex command run. subst run.
  rewrite clone_repo_unfold, Hin, Hex. fold command.
  split; [|split; [|split]].
  - intros process -> Hrc. apply Z.eqb_neq in Hrc. now rewrite Hrc.
  - now intros msg ->.
  - destruct (env_run env command) as [process|[e|e]]; cbn [snd].
    + destruct (returncode process =? 0) eqn:Hrc; cbn [snd].
      * apply Z.eqb_eq in Hrc. split; eauto.
      * apply Z.eqb_neq in Hrc. split; [discriminate|].
        intros (p & [= <-] & Hp). contradiction.
    + split; [discriminate|]. now intros (p & [=] & _).
    + split; [discriminate|]. now intros (p & [=] & _).
  - intros msg. destruct (env_run env command) as [process|[e|e]];
      try discriminate.
    destruct (returncode process =? 0); discriminate.
Qed.

Lemma clone_failure_is_fatal_witness :
  let command := "git clone " +:+ "https://host/network/xxx.git" in
  let run := clone_repo (fun _ => false) "https://host/network/xxx.git"
               "/opt/backup" "/opt/backup/xxx" no_remote in
  (forall process,
     env_run no_remote command = Ok process -> returncode process <> 0 ->
     run = ([EChdir "/opt/backup"; ESubprocess command;
             ELog ERROR ("Error cloning repository: " +:+ stderr process)],
            Raise (BaseException "1")))
  /\ (forall msg,
        env_run no_remote command = Raise (Exception msg) ->
        run = ([EChdir "/opt/backup"; ESubprocess command;
                ELog ERROR ("Error cloning repository: " +:+ msg)],
               Raise (BaseException "1")))
  /\ (snd run = Ok tt <->
      exists process, env_run no_remote command = Ok process
                      /\ returncode process = 0)
  /\ (forall msg, snd run <> Raise (Exception msg)).
Proof.
  apply (clone_failure_is_fatal (fun _ => false)
           "https://host/network/xxx.git" "/opt/backup" "/opt/backup/xxx"
           no_remote); reflexivity.
Defined.

Example clone_fails :
  clone_repo (fun _ => false) "https://host/network/xxx.git" "/opt/backup"
    "/opt/backup/xxx" no_remote
  = ([EChdir "/opt/backup";
      ESubprocess "git clone https://host/network/xxx.git";
      ELog ERROR "Error cloning repository: fatal: repository not found"],
     Raise (BaseException "1")).
Proof. reflexivity. Qed.

(** X4. When [clone_repo] returns, the process is in the script
    directory (the one change of directory is [os.chdir(script_dir)]),
    no session is open and the repository directory is there: it was
    there already, and then nothing was run, or the clone has run in
    the script directory and exited with 0. *)
Theorem clone_repo_returns (path_exists : string -> bool)
    (gitlab_url script_dir pro_dir : string) (env : Env) (w : World) :
  Str.startswith "/" script_dir = true ->
  let command := "git clone " +:+ gitlab_url in
  let run := clone_repo path_exists gitlab_url script_dir pro_dir env in
  snd run = Ok tt ->
  cwd (exec w (fst run)) = script_dir
  /\ (forall fs d, cwd_after fs d (fst run) = resolve fs d script_dir)
  /\ sessions (exec w (fst run)) = sessions w
  /\ (path_exists pro_dir = true -> fst run = [EChdir script_dir])
  /\ (path_exists pro_dir = false ->
      shell (exec w (fst run)) = shell w ++ [(script_dir, command)]
      /\ exists process,
           env_run env command = Ok process /\ returncode process = 0).
Proof.
  intros Habs command run. subst run.
  rewrite clone_repo_unfold. fold command.
  destruct (env_chdir env script_dir) as [[]|e]; [|discriminate].
  destruct (path_exists pro_dir).
  - intros _. simpl. rewrite chdir_target_absolute by exact Habs.
    repeat split; try reflexivity; discriminate.
  - destruct (env_run env command) as [process|[e|e]]; try discriminate.
    destruct (returncode process =? 0) eqn:Hrc; [|discriminate].
    intros _. simpl. rewrite chdir_target_absolute by exact Habs.
    repeat split; try reflexivity; try discriminate.
    apply Z.eqb_eq in Hrc. eauto.
Qed.

Lemma clone_repo_returns_witness :
  let command := "git clone " +:+ "https://host/network/xxx.git" in
  let w := Sample.world "/" in
  let run := clone_repo (fun _ => false) "https://host/network/xxx.git"
               "/opt/backup" "/opt/backup/xxx" committing in
  cwd (exec w (fst run)) = "/opt/backup"
  /\ (forall fs d, cwd_after fs d (fst run) = resolve fs d "/opt/backup")
  /\ sessions (exec w (fst run)) = sessions w
  /\ ((fun _ : string => false) "/opt/backup/xxx" = true ->
      fst run = [EChdir "/opt/backup"])
  /\ ((fun _ : string => false) "/opt/backup/xxx" = false ->
      shell (exec w (fst run)) = shell w ++ [("/opt/backup", command)]
      /\ exists process,
           env_run committing command = Ok process
           /\ returncode process = 0).
Proof.
  apply (clone_repo_returns (fun _ => false) "https://host/network/xxx.git"
           "/opt/backup" "/opt/backup/xxx" committing (Sample.world "/"));
    reflexivity.
Defined.

(** ** The rows of [devices.csv] *)

Lemma fst_zip_take {A B} (l : list A) (k : list B) :
  (zip l k).*1 = take (length k) l.
Proof.
  revert k. induction l as [|x l IH]; intros [|y k]; simpl; try reflexivity.
  now rewrite IH.
Qed.

Lemma lookup_fill (l : list string) (m : gmap string (option string)) key :
  foldr (fun key d => <[key := None]> d) m l !! key
  = if decide (key ∈ l) then Some None else m !! key.
Proof.
  induction l as [|k l IH]; simpl.
  - destruct (decide (key ∈ [])) as [H|_]; [inversion H | reflexivity].
  - destruct (decide (key = k)) as [->|Hne].
    + rewrite lookup_insert_eq.
      destruct (decide (k ∈ k :: l)) as [_|H]; [reflexivity|].
      contradiction H. apply list_elem_of_here.
    + rewrite lookup_insert_ne by congruence. rewrite IH.
      destruct (decide (key ∈ l)) as [H|H];
        destruct (decide (key ∈ k :: l)) as [H'|H']; try reflexivity.
      * contradiction H'. now apply list_elem_of_further.
      * apply elem_of_cons in H' as [->|H']; contradiction.
Qed.

Lemma zipped_keys (fieldnames values : list string) key :
  is_Some (list_to_map (M := gmap string (option string))
             (reverse (zip fieldnames (map Some values))) !! key)
  <-> key ∈ take (length values) fieldnames.
Proof.
  rewrite <- (length_map Some values), <- fst_zip_take.
  rewrite <- (elem_of_reverse key (_.*1)), <- fmap_reverse.
  rewrite <- not_eq_None_Some, <- not_elem_of_list_to_map.
  split; [apply dec_stable | auto].
Qed.

(** Every row has the fields of the header, and no other. *)
Lemma dict_row_keys fieldnames values key :
  is_Some (dict_row fieldnames values !! key) <-> key ∈ fieldnames.
Proof.
  unfold dict_row. rewrite lookup_fill.
  rewrite <- (take_drop (length values) fieldnames) at 3.
  rewrite elem_of_app, <- zipped_keys.
  destruct (decide (key ∈ drop (length values) fieldnames)) as [H|H].
  - split; [auto | eauto].
  - split; [auto | intros [H'|H']; [exact H' | contradiction]].
Qed.

(** A field the line has no value for is [None]. *)
Lemma dict_row_short fieldnames values j key :
  fieldnames !! j = Some key -> (length values <= j)%nat ->
  dict_row fieldnames values !! key = Some None.
Proof.
  intros Hj Hlen. unfold dict_row. rewrite lookup_fill.
  destruct (decide (key ∈ drop (length values) fieldnames)) as [_|H];
    [reflexivity|].
  contradiction H. apply list_elem_of_lookup.
  exists (j - length values)%nat. rewrite lookup_drop.
  now replace (length values + (j - length values))%nat with j by lia.
Qed.

(** When the fields of the header differ from each other, a field has
    the value of the line at its position. *)
Lemma dict_row_value fieldnames values j key v :
  NoDup fieldnames ->
  fieldnames !! j = Some key -> values !! j = Some v ->
  dict_row fieldnames values !! key = Some (Some v).
Proof.
  intros Hnd Hj Hv. unfold dict_row. rewrite lookup_fill.
  assert (j < length values)%nat as Hlt
    by (apply lookup_lt_is_Some; eauto).
  destruct (decide (key ∈ drop (length values) fieldnames)) as [H|_].
  - exfalso. apply list_elem_of_lookup in H as [i Hi].
    rewrite lookup_drop in Hi.
    pose proof (NoDup_lookup _ _ _ _ Hnd Hj Hi). lia.
  - apply elem_of_list_to_map_1.
    + rewrite fmap_reverse, fst_zip_take, length_map.
      rewrite reverse_Permutation.
      rewrite <- (take_drop (length values) fieldnames) in Hnd.
      now apply NoDup_app in Hnd as [Hnd _].
    + apply elem_of_reverse, list_elem_of_lookup. exists j.
      rewrite lookup_zip_with, Hj. simpl.
      change (map Some values) with (Some <$> values).
      now rewrite list_lookup_fmap, Hv.
Qed.

Lemma row_fields_cases row :
  (exists r, row_fields row = Ok r)
  \/ exists key, key ∈ fields /\ row !! key = None
                 /\ row_fields row = key_error key.
Proof.
  unfold fields, row_fields.
  destruct (row !! "ip") eqn:Hip;
    [|right; exists "ip"; repeat split; [set_solver|assumption]].
  destruct (row !! "username") eqn:Hus;
    [|right; exists "username"; repeat split; [set_solver|assumption]].
  destruct (row !! "password") eqn:Hpw;
    [|right; exists "password"; repeat split; [set_solver|assumption]].
  destruct (row !! "platform") eqn:Hpl;
    [|right; exists "platform"; repeat split; [set_solver|assumption]].
  destruct (row !! "role") eqn:Hro;
    [|right; exists "role"; repeat split; [set_solver|assumption]].
  left. eauto.
Qed.

Lemma row_fields_missing row key :
  key ∈ fields -> row !! key = None ->
  exists key', key' ∈ fields /\ row !! key' = None
               /\ row_fields row = key_error key'.
Proof.
  intros Hkey Hnone.
  destruct (row_fields_cases row) as [[r Hr]|H]; [|exact H].
  exfalso. unfold row_fields, fields in *.
  destruct (row !! "ip") eqn:Hip; [|discriminate].
  destruct (row !! "username") eqn:Hus; [|discriminate].
  destruct (row !! "password") eqn:Hpw; [|discriminate].
  destruct (row !! "platform") eqn:Hpl; [|discriminate].
  destruct (row !! "role") eqn:Hro; [|discriminate].
  repeat (apply elem_of_cons in Hkey as [->|Hkey]; [congruence|]).
  inversion Hkey.
Qed.

Lemma row_fields_values row ip username password platform role :
  row !! "ip" = Some (Some ip) ->
  row !! "username" = Some (Some username) ->
  row !! "password" = Some (Some password) ->
  row !! "platform" = Some (Some platform) ->
  row !! "role" = Some role ->
  row_fields row
  = Ok {| row_ip := ip; row_username := username; row_password := password;
          row_platform := platform; row_role := text_of role |}.
Proof.
  intros Hip Hus Hpw Hpl Hro. unfold row_fields.
  now rewrite Hip, Hus, Hpw, Hpl, Hro.
Qed.

Lemma read_rows_lookup ds rows j d :
  read_rows ds = Ok rows -> ds !! j = Some d ->
  exists row, rows !! j = Some row /\ row_fields d = Ok row.
Proof.
  revert rows j. induction ds as [|d0 ds IH]; intros rows j; simpl.
  - intros _ Hj. rewrite lookup_nil in Hj. discriminate.
  - destruct (row_fields d0) as [r0|] eqn:Hr0; [|discriminate].
    destruct (read_rows ds) as [rs|]; [|discriminate].
    intros [= <-]. destruct j as [|j]; simpl.
    + intros [= <-]. eauto.
    + intros Hj. now apply IH.
Qed.

Lemma read_rows_length ds rows :
  read_rows ds = Ok rows -> length rows = length ds.
Proof.
  revert rows. induction ds as [|d ds IH]; intros rows; simpl.
  - now intros [= <-].
  - destruct (row_fields d); [|discriminate].
    destruct (read_rows ds) as [rs|]; [|discriminate].
    intros [= <-]. simpl. f_equal. now apply IH.
Qed.

Lemma read_rows_header (fieldnames : list string) rows :
  Forall (fun row => forall key, is_Some (row !! key) <-> key ∈ fieldnames)
         rows ->
  Forall (fun key => key ∈ fieldnames) fields ->
  exists rs, read_rows rows = Ok rs /\ length rs = length rows.
Proof.
  intros Hrows Hall.
  induction Hrows as [|row rows Hrow _ (rs & IH & Hlen)].
  - exists []. auto.
  - destruct (row_fields_cases row) as [[r Hr]|(key & Hkey & Hnone & _)].
    + exists (r :: rs). simpl. rewrite Hr, IH. simpl. auto.
    + exfalso. rewrite Forall_forall in Hall.
      specialize (Hall key Hkey). apply Hrow in Hall.
      rewrite Hnone in Hall. now destruct Hall.
Qed.

Lemma read_rows_no_column (fieldnames : list string) row rows key :
  (forall key, is_Some (row !! key) <-> key ∈ fieldnames) ->
  key ∈ fields -> key ∉ fieldnames ->
  exists key', key' ∈ fields /\ (key' ∉ fieldnames)
               /\ read_rows (row :: rows) = key_error key'.
Proof.
  intros Hrow Hkey Hnot.
  destruct (row_fields_missing row key Hkey) as (key' & Hk' & Hnone & Hr).
  { destruct (row !! key) eqn:E; [|reflexivity].
    contradiction Hnot. apply Hrow. eauto. }
  exists key'. split; [exact Hk'|]. split.
  - intros Hin. apply Hrow in Hin. rewrite Hnone in Hin. now destruct Hin.
  - simpl. now rewrite Hr.
Qed.

Lemma DictReader_keys (fieldnames : list string) lines :
  Forall (fun row => forall key, is_Some (row !! key) <-> key ∈ fieldnames)
         (DictReader (fieldnames :: lines)).
Proof.
  unfold DictReader. apply Forall_map, Forall_forall.
  intros values _ key. apply dict_row_keys.
Qed.

(** X7. Every row of [csv.DictReader] has the fields of the header, a
    field the line has no value for being [None].  So the rows are
    read all or none: when the header has the five columns there is
    one [Row] for each line that is not blank, with the values of the
    line; when the header lacks a column and there is a line, the
    first line raises [KeyError] and no row is kept; without lines
    nothing is raised. *)
Theorem rows_are_read_all_or_none
    (fieldnames : list string) (lines : list (list string)) :
  let rows := DictReader (fieldnames :: lines) in
  length rows = length (List.filter (fun l => negb (blank l)) lines)
  /\ Forall (fun row => forall key, is_Some (row !! key) <-> key ∈ fieldnames)
            rows
  /\ (forall values j key,
        fieldnames !! j = Some key ->
        ((length values <= j)%nat ->
         dict_row fieldnames values !! key = Some None)
        /\ (forall v, NoDup fieldnames -> values !! j = Some v ->
                      dict_row fieldnames values !! key = Some (Some v)))
  /\ (Forall (fun key => key ∈ fieldnames) fields ->
      exists rs, read_rows rows = Ok rs /\ length rs = length rows)
  /\ (forall key,
        key ∈ fields -> key ∉ fieldnames -> rows <> [] ->
        exists key', key' ∈ fields /\ (key' ∉ fieldnames)
                     /\ read_rows rows
                        = Raise (Exception ("'" +:+ key' +:+ "'")))
  /\ (rows = [] -> read_rows rows = Ok [])
  /\ (forall rs j d ip username password platform role,
        read_rows rows = Ok rs -> rows !! j = Some d ->
        d !! "ip" = Some (Some ip) ->
        d !! "username" = Some (Some username) ->
        d !! "password" = Some (Some password) ->
        d !! "platform" = Some (Some platform) ->
        d !! "role" = Some role ->
        rs !! j
        = Some {| row_ip := ip; row_username := username;
                  row_password := password; row_platform := platform;
                  row_role := text_of role |})
  /\ DictReader [] = [].
Proof.
  intros rows.
  pose proof (DictReader_keys fieldnames lines) as Hkeys. fold rows in Hkeys.
  split; [apply length_map|]. split; [exact Hkeys|]. split.
  { intros values j key Hj. split.
    - intros Hlen. now apply (dict_row_short fieldnames values j).
    - intros v Hnd Hv. now apply (dict_row_value fieldnames values j). }
  split; [now apply read_rows_header|]. split.
  - intros key Hkey Hnot Hne.
    destruct rows as [|row rows']; [contradiction|].
    inversion Hkeys as [|? ? Hrow _]; subst.
    apply (read_rows_no_column fieldnames row rows' key Hrow Hkey Hnot).
  - split; [now intros ->|]. split; [|reflexivity].
    intros rs j d ip username password platform role Hrs Hj
      Hip Hus Hpw Hpl Hro.
    destruct (read_rows_lookup _ _ _ _ Hrs Hj) as (row & -> & Hrow).
    rewrite (row_fields_values _ _ _ _ _ _ Hip Hus Hpw Hpl Hro) in Hrow.
    now injection Hrow as <-.
Qed.

Example rows_of_two_tables :
  read_rows (DictReader short_line)
  = Ok [ {| row_ip := "10.0.0.1"; row_username := "admin";
            row_password := "pw"; row_platform := "huawei";
            row_role := "core" |};
         {| row_ip := "10.0.0.2"; row_username := "admin";
            row_password := "pw"; row_platform := "huawei";
            row_role := "None" |} ]
  /\ read_rows (DictReader no_role_column) = Raise (Exception "'role'")
  /\ read_rows (DictReader [["ip"; "username"]]) = Ok [].
Proof. vm_compute. repeat split; reflexivity. Qed.

Lemma clone_repo_leaves path_exists gitlab_url script_dir pro_dir env w :
  Str.startswith "/" script_dir = true ->
  snd (clone_repo path_exists gitlab_url script_dir pro_dir env) = Ok tt ->
  cwd (exec w (fst (clone_repo path_exists gitlab_url script_dir pro_dir env)))
  = script_dir
  /\ sessions
       (exec w (fst (clone_repo path_exists gitlab_url script_dir pro_dir env)))
     = sessions w.
Proof.
  intros Habs. rewrite clone_repo_unfold.
  destruct (env_chdir env script_dir) as [[]|e]; [|discriminate].
  destruct (path_exists pro_dir).
  - intros _. simpl. now rewrite chdir_target_absolute.
  - destruct (env_run env _) as [process|[e|e]]; try discriminate.
    destruct (returncode process =? 0); [|discriminate].
    intros _. simpl. now rewrite chdir_target_absolute.
Qed.

(** ** [main] up to [asyncio.gather] *)

Lemma main_unfold gitlab_url url_path script_dir path_exists log_opened
    devices device_envs env :
  let pro_dir := os_path_join script_dir (pdir_of url_path) in
  let clone := clone_repo path_exists gitlab_url script_dir pro_dir env in
  main gitlab_url url_path script_dir path_exists log_opened devices
    device_envs env =
  match setup_logging (script_dir +:+ "/logs/backup-err.log") log_opened
          fresh_logging with
  | Raise e => ([], Raise e)
  | Ok cfg =>
      (fst clone,
       match snd clone with
       | Raise e => Raise e
       | Ok _ =>
           match devices with
           | Raise e => Raise e
           | Ok table =>
               match read_rows (DictReader table) with
               | Raise e => Raise e
               | Ok rows =>
                   Ok {| gathered_logging := cfg;
                         gathered_pro_dir := pro_dir;
                         gathered_runs :=
                           main_tasks script_dir pro_dir
                             (imap (fun i row => (row, device_envs i))
                                rows) |}
               end
           end
       end)
  end.
Proof.
  intros pro_dir clone. unfold main, bind, lift, ret.
  fold pro_dir. fold clone.
  destruct (setup_logging _ log_opened fresh_logging) as [cfg|e];
    [|reflexivity].
  destruct clone as [evs [[]|e]]; [|reflexivity].
  cbn [fst snd]. destruct devices as [table|e];
    [|now rewrite ?app_nil_r].
  destruct (read_rows (DictReader table)); now rewrite ?app_nil_r.
Qed.

Lemma clone_repo_attempts path_exists gitlab_url script_dir pro_dir env :
  attempts (fst (clone_repo path_exists gitlab_url script_dir pro_dir env))
  = 0%nat.
Proof.
  rewrite clone_repo_unfold.
  destruct (env_chdir env script_dir); [|reflexivity].
  destruct (path_exists pro_dir); [reflexivity|].
  destruct (env_run env _) as [process|[e|e]]; try reflexivity.
  destruct (returncode process =? 0); reflexivity.
Qed.

(** X8. [main] starts the backups only when the log file could be
    opened, the clone step has returned, [devices.csv] could be read
    and its header has the five columns or it has no line; then there
    is one task for each line that is not blank, in order and with
    the values of the line, and the process is in the script
    directory.  When the log file cannot be opened nothing else
    happens; before the tasks start no device is contacted. *)
Theorem main_starts_all_tasks_or_none
    (gitlab_url url_path script_dir : string) (path_exists : string -> bool)
    (log_opened : result unit) (devices : result (list (list string)))
    (device_envs : nat -> nat -> Env) (env : Env) :
  let pro_dir := os_path_join script_dir (pdir_of url_path) in
  let clone := clone_repo path_exists gitlab_url script_dir pro_dir env in
  let run :=
    main gitlab_url url_path script_dir path_exists log_opened devices
      device_envs env in
  (forall e, log_opened = Raise e -> run = ([], Raise e))
  /\ (log_opened = Ok tt ->
      fst run = fst clone
      /\ (forall e, snd clone = Raise e -> snd run = Raise e)
      /\ (forall fieldnames lines key,
            devices = Ok (fieldnames :: lines) ->
            key ∈ fields -> key ∉ fieldnames ->
            DictReader (fieldnames :: lines) <> [] ->
            is_raise (snd run) = true))
  /\ attempts (fst run) = 0%nat
  /\ (forall g,
        snd run = Ok g ->
        log_opened = Ok tt
        /\ snd clone = Ok tt
        /\ gathered_pro_dir g = pro_dir
        /\ (Str.startswith "/" script_dir = true ->
            forall w, cwd (exec w (fst run)) = script_dir
                      /\ sessions (exec w (fst run)) = sessions w)
        /\ exists table rows,
             devices = Ok table
             /\ read_rows (DictReader table) = Ok rows
             /\ length (gathered_runs g) = length (DictReader table)
             /\ forall j d ip username password platform role,
                  DictReader table !! j = Some d ->
                  d !! "ip" = Some (Some ip) ->
                  d !! "username" = Some (Some username) ->
                  d !! "password" = Some (Some password) ->
                  d !! "platform" = Some (Some platform) ->
                  d !! "role" = Some role ->
                  gathered_runs g !! j
                  = Some (backup_config ip username password platform
                            (text_of role) script_dir pro_dir
                            (device_envs j))).
Proof.
  intros pro_dir clone run. subst run.
  rewrite main_unfold. fold pro_dir. fold clone.
  split; [now intros e ->|]. split; [|split].
  - intros ->. cbn [setup_logging fst snd].
    split; [reflexivity|]. split; [now intros e ->|].
    intros fieldnames lines key -> Hkey Hnot Hne.
    destruct (snd clone); [|reflexivity].
    pose proof (DictReader_keys fieldnames lines) as Hkeys.
    destruct (DictReader (fieldnames :: lines)) as [|row rows];
      [contradiction|].
    inversion Hkeys as [|? ? Hrow _]; subst.
    destruct (read_rows_no_column fieldnames row rows key Hrow Hkey Hnot)
      as (key' & _ & _ & ->).
    reflexivity.
  - destruct log_opened as [[]|e]; cbn [setup_logging fst];
      [apply clone_repo_attempts | reflexivity].
  - intros g Hg.
    destruct log_opened as [[]|e]; cbn [setup_logging fst snd] in *;
      [|discriminate Hg].
    split; [reflexivity|].
    destruct (snd clone) as [[]|e] eqn:Hclone; [|discriminate Hg].
    split; [reflexivity|].
    destruct devices as [table|e]; [|discriminate Hg].
    destruct (read_rows (DictReader table)) as [rows|e] eqn:Hrows;
      [|discriminate Hg].
    injection Hg as <-. cbn [gathered_pro_dir gathered_runs].
    split; [reflexivity|].
    split; [intros Habs w; now apply clone_repo_leaves|].
    exists table, rows. split; [reflexivity|]. split; [exact Hrows|].
    split.
    + unfold main_tasks. rewrite length_map, length_imap.
      now apply read_rows_length.
    + intros j d ip username password platform role Hj Hip Hus Hpw Hpl Hro.
      destruct (read_rows_lookup _ _ _ _ Hrows Hj) as (row & Hrow & Hd).
      rewrite (row_fields_values _ _ _ _ _ _ Hip Hus Hpw Hpl Hro) in Hd.
      injection Hd as <-. unfold main_tasks.
      rewrite list_lookup_fmap, list_lookup_imap, Hrow. reflexivity.
Qed.

Example missing_column_starts_no_backup :
  main "https://host/network/xxx.git" "/network/xxx.git" "/opt/backup"
    (fun _ => true) (Ok tt) (Ok no_role_column) (fun _ _ => committing)
    committing
  = ([EChdir "/opt/backup"], Raise (Exception "'role'"))
  /\ main "https://host/network/xxx.git" "/network/xxx.git" "/opt/backup"
       (fun _ => true)
       (Raise (Exception "[Errno 2] No such file or directory"))
       (Ok short_line) (fun _ _ => committing) committing
     = ([], Raise (Exception "[Errno 2] No such file or directory")).
Proof. split; reflexivity. Qed.

(** ** What reaches the log file *)

Lemma records_app evs1 evs2 :
  records (evs1 ++ evs2) = records evs1 ++ records evs2.
Proof. apply omap_app. Qed.

Lemma deliver_setup log_file record :
  deliver {| root_level := INFO;
             root_handlers := [error_handler log_file] |} record
  = if serious record then [(log_file, record)] else [].
Proof. destruct record as [[] msg]; reflexivity. Qed.

Lemma written_setup log_file rs :
  written {| root_level := INFO;
             root_handlers := [error_handler log_file] |} rs
  = map (fun r => (log_file, r)) (List.filter serious rs).
Proof.
  induction rs as [|r rs IH]; [reflexivity|].
  unfold written in *. cbn [flat_map List.filter].
  rewrite IH, deliver_setup. now destruct (serious r).
Qed.

(** X1. When [setup_logging] returns, the root logger has level INFO
    and one handler, of level WARNING, on the log file: of the records
    that come to the root logger, whoever logs them, the handler
    writes the warnings and the errors, each once and in order, and no
    [INFO] record.  When the log file cannot be opened the exception
    leaves [setup_logging]. *)
Theorem log_file_holds_warnings_and_errors
    (log_file : string) (opened : result unit) (cfg : Logging)
    (rs : list (Level * string)) :
  setup_logging log_file opened fresh_logging = Ok cfg ->
  opened = Ok tt
  /\ root_level cfg = INFO
  /\ root_handlers cfg = [error_handler log_file]
  /\ written cfg rs = map (fun r => (log_file, r)) (List.filter serious rs)
  /\ (forall msg, deliver cfg (INFO, msg) = [])
  /\ (forall msg, deliver cfg (WARNING, msg) = [(log_file, (WARNING, msg))])
  /\ (forall msg, deliver cfg (ERROR, msg) = [(log_file, (ERROR, msg))])
  /\ (forall e cfg0, setup_logging log_file (Raise e) cfg0 = Raise e).
Proof.
  unfold setup_logging. destruct opened as [[]|e]; [|discriminate].
  intros [= <-]. cbn [fresh_logging root_handlers root_level app].
  repeat split; try reflexivity. apply written_setup.
Qed.

Lemma log_file_holds_warnings_and_errors_witness :
  let log_file := "/opt/backup/logs/backup-err.log" in
  let cfg := {| root_level := INFO;
                root_handlers := [error_handler log_file] |} in
  let rs := [(INFO, "Config saved to huawei-core-10.0.0.1-config.txt");
             (ERROR, "huawei-core-10.0.0.1-config.txt Submission Failed");
             (WARNING, "Retrying...")] in
  Ok tt = Ok tt
  /\ root_level cfg = INFO
  /\ root_handlers cfg = [error_handler log_file]
  /\ written cfg rs = map (fun r => (log_file, r)) (List.filter serious rs)
  /\ (forall msg, deliver cfg (INFO, msg) = [])
  /\ (forall msg, deliver cfg (WARNING, msg) = [(log_file, (WARNING, msg))])
  /\ (forall msg, deliver cfg (ERROR, msg) = [(log_file, (ERROR, msg))])
  /\ (forall e cfg0, setup_logging log_file (Raise e) cfg0 = Raise e).
Proof.
  exact (log_file_holds_warnings_and_errors "/opt/backup/logs/backup-err.log"
           (Ok tt) _ _ eq_refl).
Defined.

Example log_file_of_three_records :
  written {| root_level := INFO;
             root_handlers := [error_handler "backup-err.log"] |}
    [(INFO, "Config saved to huawei-core-10.0.0.1-config.txt");
     (ERROR, "huawei-core-10.0.0.1-config.txt Submission Failed");
     (WARNING, "Retrying...")]
  = [("backup-err.log",
      (ERROR, "huawei-core-10.0.0.1-config.txt Submission Failed"));
     ("backup-err.log", (WARNING, "Retrying..."))].
Proof. reflexivity. Qed.

Lemma session_records device platform env :
  records (fst (session device platform env)) = [].
Proof.
  rewrite session_unfold. destruct (env_connect env device); [|reflexivity].
  cbn [fst]. change (EConnect device true :: ?l)
    with ([EConnect device true] ++ l).
  rewrite !records_app. simpl.
  pose proof (session_io platform env) as H.
  induction H as [|e evs He _ IH]; [reflexivity|].
  destruct e; simpl in *; try discriminate; exact IH.
Qed.

Lemma records_exit_log command p :
  records (exit_log command p)
  = if returncode p =? 0 then []
    else [(ERROR, git_error_message command p)].
Proof. unfold exit_log. now destruct (returncode p =? 0). Qed.

(** X2. A backup whose first attempt goes through logs the saved file,
    what [git add] and [git push] complain about and the outcome of
    the commit; when git has nothing to complain about and the commit
    is acknowledged, no record of the script is a warning or an error,
    and otherwise the outcome of the commit is the only one. *)
Theorem successful_backup_logs_no_warning
    (ip username password platform role script_dir pro_dir : string)
    (envs : nat -> Env) (se : list Event)
    (output : string) (pa pc pp : CompletedProcess) :
  let device := device_dict ip username password platform role script_dir in
  let filename := config_filename platform role ip in
  let path := os_path_join pro_dir filename in
  let env := envs 0%nat in
  let run :=
    backup_config ip username password platform role script_dir pro_dir envs in
  let commit_outcome := classify filename (commit_result (stdout pc)) in
  session device platform env = (se, Ok output) ->
  env_open env path = Ok tt ->
  env_write env path output = Ok tt ->
  env_chdir env pro_dir = Ok tt ->
  env_chdir env ".." = Ok tt ->
  env_run env (add_command filename) = Ok pa ->
  env_run env (commit_command filename (env_now env)) = Ok pc ->
  env_run env push_command = Ok pp ->
  snd run = Ok tt
  /\ records (fst run)
     = (INFO, "Config saved to " +:+ filename)
       :: records (exit_log (add_command filename) pa)
       ++ records [log_outcome filename commit_outcome]
       ++ records (exit_log push_command pp)
  /\ (returncode pa = 0 -> returncode pp = 0 ->
      List.filter serious (records (fst run))
      = match commit_outcome with
        | Committed => []
        | NoChange =>
            [(WARNING,
              "Nothing to commit in the repository," +:+ filename
              +:+ " is Already exists.")]
        | Failed => [(ERROR, filename +:+ " Submission Failed")]
        end).
Proof.
  intros device filename path env run commit_outcome
    Hse Hopen Hwrite Hin Hout Ha Hc Hp.
  assert (attempt ip username password platform role script_dir pro_dir env
          = (se ++ EOpen path :: EWrite path output
                :: ELog INFO ("Config saved to " +:+ filename)
                :: EChdir pro_dir
                :: (ESubprocess (add_command filename)
                      :: exit_log (add_command filename) pa
                      ++ ESubprocess (commit_command filename (env_now env))
                      :: log_outcome filename commit_outcome
                      :: ESubprocess push_command
                      :: exit_log push_command pp)
                ++ [EChdir ".."],
             Ok tt)) as Hattempt.
  { pose proof (attempt_unfold ip username password platform role script_dir
                  pro_dir env) as Hu. cbn zeta in Hu.
    fold device filename path in Hu.
    rewrite Hu, Hse, Hopen, Hwrite, git_commit_and_push_unfold, Hin, Hout.
    rewrite (git_steps_completed filename env pa pc Ha Hc), Hp.
    cbn [handled fst snd app]. reflexivity. }
  assert (run = (SemAcquire
                   :: fst (attempt ip username password platform role
                             script_dir pro_dir env) ++ [SemRelease],
                 Ok tt)) as Hrun.
  { subst run. rewrite backup_config_unfold. cbn zeta.
    change (seq 0 max_retries) with (0%nat :: seq 1 4).
    rewrite retry_loop_success; [reflexivity|].
    fold env. now rewrite Hattempt. }
  pose proof (session_records device platform env) as Hsr.
  rewrite Hse in Hsr. cbn [fst] in Hsr.
  assert (records (fst run)
          = (INFO, "Config saved to " +:+ filename)
            :: records (exit_log (add_command filename) pa)
            ++ records [log_outcome filename commit_outcome]
            ++ records (exit_log push_command pp)) as Hrecords.
  { rewrite Hrun, Hattempt. cbn [fst].
    change (SemAcquire :: ?l) with ([SemAcquire] ++ l).
    rewrite !records_app, Hsr.
    change (EOpen path :: EWrite path output :: ELog INFO ?m :: EChdir pro_dir
              :: ?l)
      with ([EOpen path; EWrite path output; ELog INFO m; EChdir pro_dir]
              ++ l).
    rewrite !records_app.
    change (ESubprocess (add_command filename) :: ?l)
      with ([ESubprocess (add_command filename)] ++ l).
    rewrite !records_app.
    change (ESubprocess (commit_command filename (env_now env))
              :: log_outcome filename commit_outcome
              :: ESubprocess push_command :: ?l)
      with ([ESubprocess (commit_command filename (env_now env))]
              ++ [log_outcome filename commit_outcome]
              ++ [ESubprocess push_command] ++ l).
    rewrite !records_app. simpl.
    now rewrite !app_nil_r. }
  split; [now rewrite Hrun|]. split; [exact Hrecords|].
  intros Hrca Hrcp.
  rewrite Hrecords, !records_exit_log, Hrca, Hrcp. cbn [Z.eqb app].
  now destruct commit_outcome.
Qed.

Lemma successful_backup_logs_no_warning_witness :
  let filename := "huawei-core-10.0.0.1-config.txt" in
  let run := backup_config "10.0.0.1" "admin" "pw" "huawei" "core"
               "/opt/backup" "/opt/backup/xxx" (fun _ => committing) in
  let pa := Sample.proc 0 EmptyString EmptyString in
  let commit_outcome :=
    classify filename
      (commit_result
         ("[master 1a2b3c4] backup huawei-core-10.0.0.1-config.txt 2024-01-01"
          +:+ String Str.newline " 1 file changed, 2 insertions(+)")) in
  snd run = Ok tt
  /\ records (fst run)
     = (INFO, "Config saved to " +:+ filename)
       :: records (exit_log (add_command filename) pa)
       ++ records [log_outcome filename commit_outcome]
       ++ records (exit_log push_command pa)
  /\ (returncode pa = 0 -> returncode pa = 0 ->
      List.filter serious (records (fst run))
      = match commit_outcome with
        | Committed => []
        | NoChange =>
            [(WARNING,
              "Nothing to commit in the repository," +:+ filename
              +:+ " is Already exists.")]
        | Failed => [(ERROR, filename +:+ " Submission Failed")]
        end).
Proof.
  apply (successful_backup_logs_no_warning "10.0.0.1" "admin" "pw" "huawei"
           "core" "/opt/backup" "/opt/backup/xxx" (fun _ => committing)
           [EConnect (device_dict "10.0.0.1" "admin" "pw" "huawei" "core"
                        "/opt/backup") true;
            EFindPrompt; ESendCommand "display current" 1800; EDisconnect]
           "sysname R1"
           (Sample.proc 0 EmptyString EmptyString)
           (Sample.proc 0
              ("[master 1a2b3c4] backup huawei-core-10.0.0.1-config.txt 2024-01-01"
               +:+ String Str.newline " 1 file changed, 2 insertions(+)")
              EmptyString)
           (Sample.proc 0 EmptyString EmptyString)); reflexivity.
Defined.

Example committed_backup_is_silent :
  let run := backup_config "10.0.0.1" "admin" "pw" "huawei" "core"
               "/opt/backup" "/opt/backup/xxx" (fun _ => committing) in
  records (fst run)
  = [(INFO, "Config saved to huawei-core-10.0.0.1-config.txt");
     (INFO, "huawei-core-10.0.0.1-config.txt Submitted successfully")]
  /\ List.filter serious (records (fst run)) = [].
Proof. vm_compute. split; reflexivity. Qed.

(** ** The dialogue with a device of any platform *)

(** An equality test with its two outcomes. *)
Lemma eqb_cases (a b : string) :
  (String.eqb a b = true /\ a = b) \/ (String.eqb a b = false /\ a <> b).
Proof.
  destruct (String.eqb_spec a b); [left | right]; auto.
Qed.

(** X13. For every platform, the commands an attempt sends are a prefix
    of the dialogue of that platform, and the whole of it when the
    fetch command is sent. *)
Theorem dialogue_of_every_platform
    (ip username password platform role script_dir pro_dir : string)
    (env : Env) (prompt : string) :
  env_find_prompt env = Ok prompt ->
  let commands_sent :=
    sent (fst (attempt ip username password platform role script_dir
                 pro_dir env)) in
  commands_sent `prefix_of` dialogue platform prompt
  /\ (fetch_command platform ∈ commands_sent ->
      commands_sent = dialogue platform prompt)
  /\ (platform <> "ruijie_os" ->
      fetch_command platform = ESendCommand "display current" 1800)
  /\ dialogue "hp_comware" "[Y/N]:"
     = [ESendCommandExpect "N" ">";
        ESendCommandExpect "screen-length disable" ">";
        ESendCommand "display current" 1800]
  /\ (platform <> "hp_comware" -> platform <> "huawei" ->
      platform <> "ruijie_os" ->
      dialogue platform "[Y/N]:"
      = [ESendCommandExpect "N" ">"; ESendCommand "display current" 1800]).
Proof.
  intros Hprompt commands_sent. subst commands_sent.
  rewrite sent_attempt.
  assert (forall l : list Event, [] `prefix_of` l) as Hnil
    by (intros l; exists l; reflexivity).
  assert (forall (e : Event) l l', l `prefix_of` l' ->
            (e :: l) `prefix_of` (e :: l')) as Hcons
    by (intros e l l' [k ->]; exists k; reflexivity).
  destruct (eqb_cases platform "hp_comware") as [[Hhp Ehp]|[Hhp Ehp]];
  destruct (eqb_cases platform "huawei") as [[Hhu Ehu]|[Hhu Ehu]];
  destruct (eqb_cases platform "ruijie_os") as [[Hru Eru]|[Hru Eru]];
    subst; try discriminate.
  all: repeat split;
    try (intros; unfold dialogue, pagination, fetch_command;
         rewrite ?Hhp, ?Hhu, ?Hru; reflexivity);
    try (intros; congruence).
  all: destruct (env_connect env _);
    [|try apply Hnil; intros H; elem_of_small_list H].
  all: unfold negotiate, fetch, bind, find_prompt, call, send_command_expect,
         send_command, ret, dialogue, pagination, fetch_command, confirm_no.
  all: rewrite Hprompt, ?Hhp, ?Hhu, ?Hru.
  all: destruct (Str.contains "Y/N" prompt); dialogue_cases;
    try (intros H; elem_of_small_list H); try reflexivity;
    repeat (first [apply Hnil | apply Hcons]); try reflexivity.
Qed.

Lemma dialogue_of_every_platform_witness :
  let env := Sample.fine "Change now? [Y/N]:"
               "nothing to commit, working tree clean" in
  let platform := "hp_comware" in
  let commands_sent :=
    sent (fst (attempt "10.0.0.1" "admin" "pw" platform "core" "/opt/backup"
                 "/opt/backup/xxx" env)) in
  commands_sent `prefix_of` dialogue platform "Change now? [Y/N]:"
  /\ (fetch_command platform ∈ commands_sent ->
      commands_sent = dialogue platform "Change now? [Y/N]:")
  /\ (platform <> "ruijie_os" ->
      fetch_command platform = ESendCommand "display current" 1800)
  /\ dialogue "hp_comware" "[Y/N]:"
     = [ESendCommandExpect "N" ">";
        ESendCommandExpect "screen-length disable" ">";
        ESendCommand "display current" 1800]
  /\ (platform <> "hp_comware" -> platform <> "huawei" ->
      platform <> "ruijie_os" ->
      dialogue platform "[Y/N]:"
      = [ESendCommandExpect "N" ">"; ESendCommand "display current" 1800]).
Proof.
  apply (dialogue_of_every_platform "10.0.0.1" "admin" "pw" "hp_comware"
           "core" "/opt/backup" "/opt/backup/xxx"
           (Sample.fine "Change now? [Y/N]:"
              "nothing to commit, working tree clean")
           "Change now? [Y/N]:").
  reflexivity.
Defined.

Example other_platforms :
  let env := Sample.fine "Change now? [Y/N]:"
               "nothing to commit, working tree clean" in
  sent (fst (attempt "10.0.0.1" "admin" "pw" "hp_comware" "core"
               "/opt/backup" "/opt/backup/xxx" env))
  = [ESendCommandExpect "N" ">";
     ESendCommandExpect "screen-length disable" ">";
     ESendCommand "display current" 1800]
  /\ sent (fst (attempt "10.0.0.1" "admin" "pw" "cisco_ios" "core"
                  "/opt/backup" "/opt/backup/xxx" env))
     = [ESendCommandExpect "N" ">"; ESendCommand "display current" 1800].
Proof. split; reflexivity. Qed.

(** ** What the commit step looks at *)

(** X15. The commit step looks at the standard output of [git commit]
    only: its exit code and its standard error change neither what is
    logged nor what is run. *)
Theorem commit_exit_code_is_ignored (filename pro_dir : string)
    (env env' : Env) (pa pc pc' : CompletedProcess) :
  env_now env' = env_now env ->
  env_chdir env' = env_chdir env ->
  env_run env (add_command filename) = Ok pa ->
  env_run env' (add_command filename) = Ok pa ->
  env_run env (commit_command filename (env_now env)) = Ok pc ->
  env_run env' (commit_command filename (env_now env)) = Ok pc' ->
  env_run env' push_command = env_run env push_command ->
  stdout pc' = stdout pc ->
  git_steps filename env' = git_steps filename env
  /\ git_commit_and_push filename pro_dir env'
     = git_commit_and_push filename pro_dir env.
Proof.
  intros Hnow Hdir Ha Ha' Hc Hc' Hp Hout.
  rewrite <- Hnow in Hc'.
  assert (git_steps filename env' = git_steps filename env) as Hsteps.
  { rewrite (git_steps_completed filename env pa pc Ha Hc).
    rewrite (git_steps_completed filename env' pa pc' Ha' Hc').
    now rewrite Hnow, Hp, Hout. }
  split; [exact Hsteps|].
  now rewrite !git_commit_and_push_unfold, Hsteps, Hdir.
Qed.

Lemma commit_exit_code_is_ignored_witness :
  let filename := "huawei-core-10.0.0.1-config.txt" in
  let env := committing in
  let env' := Sample.with_run committing rejected_but_acknowledged in
  git_steps filename env' = git_steps filename env
  /\ git_commit_and_push filename "/opt/backup/xxx" env'
     = git_commit_and_push filename "/opt/backup/xxx" env.
Proof.
  apply (commit_exit_code_is_ignored "huawei-core-10.0.0.1-config.txt"
           "/opt/backup/xxx" committing
           (Sample.with_run committing rejected_but_acknowledged)
           (Sample.proc 0 EmptyString EmptyString)
           (Sample.proc 0
              ("[master 1a2b3c4] backup huawei-core-10.0.0.1-config.txt 2024-01-01"
               +:+ String Str.newline " 1 file changed, 2 insertions(+)")
              EmptyString)
           (Sample.proc 1
              ("[master 1a2b3c4] backup huawei-core-10.0.0.1-config.txt 2024-01-01"
               +:+ String Str.newline " 1 file changed, 2 insertions(+)")
              "error: hook declined"));
    reflexivity.
Defined.

Example failed_commit_logged_as_a_success :
  let env' := Sample.with_run committing rejected_but_acknowledged in
  env_run env'
    (commit_command "huawei-core-10.0.0.1-config.txt" (env_now env'))
  = Ok (Sample.proc 1
          ("[master 1a2b3c4] backup huawei-core-10.0.0.1-config.txt 2024-01-01"
           +:+ String Str.newline " 1 file changed, 2 insertions(+)")
          "error: hook declined")
  /\ records (fst (git_commit_and_push "huawei-core-10.0.0.1-config.txt"
                     "/opt/backup/xxx" env'))
     = [(INFO, "huawei-core-10.0.0.1-config.txt Submitted successfully")].
Proof. split; reflexivity. Qed.

(** ** The commands a backup runs *)

Lemma attempt_commands ip username password platform role script_dir pro_dir env :
  commands
    (fst (attempt ip username password platform role script_dir pro_dir env))
  `prefix_of` [add_command (config_filename platform role ip);
               commit_command (config_filename platform role ip) (env_now env);
               push_command].
Proof.
  pose proof (attempt_unfold ip username password platform role script_dir
                pro_dir env) as Hu. cbn zeta in Hu. rewrite Hu. clear Hu.
  pose proof (session_commands
                (device_dict ip username password platform role script_dir)
                platform env) as Hs.
  destruct (session _ platform env) as [se [output|e]]; cbn [fst] in Hs |- *.
  2:{ rewrite Hs. apply prefix_nil. }
  destruct (env_open env _); [|cbn [fst]; rewrite Hs; apply prefix_nil].
  destruct (env_write env _ output).
  2:{ cbn [fst]. rewrite commands_app, Hs. apply prefix_nil. }
  cbn [fst]. rewrite commands_app, Hs. cbn [app].
  change (commands (EOpen ?p :: EWrite ?q ?o :: ELog ?l ?m :: ?evs))
    with (commands evs).
  destruct (env_chdir env pro_dir) as [[]|e] eqn:Hin.
  - destruct (git_commit_and_push_body (config_filename platform role ip)
                pro_dir env Hin) as (body & _ & Hb & ->).
    change (commands (EChdir pro_dir :: ?evs)) with (commands evs).
    rewrite commands_app, Hb.
    replace (commands match env_chdir env ".." with
                      | Ok _ => [EChdir ".."]
                      | Raise _ => []
                      end) with (@nil string)
      by (destruct (env_chdir env ".."); reflexivity).
    rewrite app_nil_r. apply git_steps_commands.
  - rewrite (git_commit_and_push_no_repository _ _ _ _ Hin). apply prefix_nil.
Qed.

Lemma retry_handler_commands ip k msg : commands (retry_handler ip k msg) = [].
Proof. unfold retry_handler. now destruct (_ <? _)%nat. Qed.

Lemma retry_loop_commands
    ip username password platform role script_dir pro_dir envs counts :
  let filename := config_filename platform role ip in
  let evs :=
    fst (retry_loop
           (attempt ip username password platform role script_dir pro_dir)
           ip envs counts) in
  Forall (fun c => c = add_command filename \/ c = push_command
                   \/ exists k, k ∈ counts
                        /\ c = commit_command filename (env_now (envs k)))
         (commands evs)
  /\ (length (commands evs) <= 3 * attempts evs)%nat.
Proof.
  intros filename.
  induction counts as [|k counts IH]; cbn [retry_loop fst];
    [split; [constructor | simpl; lia]|].
  pose proof (attempt_commands ip username password platform role script_dir
                pro_dir (envs k)) as Hc.
  pose proof (attempt_attempts ip username password platform role script_dir
                pro_dir (envs k)) as Ha.
  fold filename in Hc.
  assert (Forall (fun c => c = add_command filename \/ c = push_command
                     \/ exists k', k' ∈ k :: counts
                          /\ c = commit_command filename (env_now (envs k')))
            (commands
               (fst (attempt ip username password platform role script_dir
                       pro_dir (envs k))))
          /\ (length
                (commands
                   (fst (attempt ip username password platform role
                           script_dir pro_dir (envs k)))) <= 3)%nat)
    as [Hfa Hlen].
  { split; [|apply (prefix_length _ _ Hc)].
    destruct Hc as [tail Hc].
    assert (Forall (fun c => c = add_command filename \/ c = push_command
                       \/ exists k', k' ∈ k :: counts
                            /\ c = commit_command filename
                                     (env_now (envs k')))
              [add_command filename;
               commit_command filename (env_now (envs k)); push_command])
      as Hall.
    { constructor; [left; reflexivity|].
      constructor;
        [right; right; exists k; split;
         [apply list_elem_of_here | reflexivity]|].
      constructor; [right; left; reflexivity | constructor]. }
    rewrite Hc in Hall. now apply Forall_app in Hall as [Hall _]. }
  destruct (attempt ip username password platform role script_dir pro_dir
              (envs k)) as [evs [[]|[msg|msg]]]; cbn [fst] in *;
    try (split; [exact Hfa | lia]).
  destruct (retry_loop _ ip envs counts) as [evs' r']. cbn [fst] in *.
  destruct IH as [IH1 IH2].
  rewrite !commands_app, !attempts_app, retry_handler_commands,
    attempts_retry_handler, !length_app.
  cbn [app length]. split; [|lia].
  apply Forall_app. split; [exact Hfa|].
  eapply Forall_impl; [exact IH1|].
  intros c [H|[H|(k' & Hk' & H)]]; auto.
  right. right. exists k'. split; [now apply list_elem_of_further | exact H].
Qed.

(** X20. The only commands a backup ever hands to the shell are
    [git add] and [git commit] on its own file and [git push], at most
    three for each attempt: neither the credentials nor anything the
    device or git answered is part of a command. *)
Theorem only_git_add_commit_push
    (ip username password platform role script_dir pro_dir : string)
    (envs : nat -> Env) :
  let filename := config_filename platform role ip in
  let run :=
    backup_config ip username password platform role script_dir pro_dir envs in
  Forall (fun c => c = "git add " +:+ filename
                   \/ c = "git push"
                   \/ exists k,
                        (k < 5)%nat
                        /\ c = "git commit -m " +:+ Str.dquote +:+ "backup "
                               +:+ filename +:+ " " +:+ env_now (envs k)
                               +:+ Str.dquote)
         (commands (fst run))
  /\ (length (commands (fst run)) <= 3 * attempts (fst run))%nat
  /\ (length (commands (fst run)) <= 15)%nat.
Proof.
  intros filename run.
  destruct (retry_loop_commands ip username password platform role script_dir
              pro_dir envs (seq 0 max_retries)) as [H1 H2].
  pose proof (retry_loop_attempts ip username password platform role
                script_dir pro_dir envs (seq 0 max_retries)) as [H3 _].
  rewrite length_seq in H3. unfold max_retries in H3 at 2.
  assert (commands (fst run)
          = commands
              (fst (retry_loop
                      (attempt ip username password platform role script_dir
                         pro_dir) ip envs (seq 0 max_retries)))) as Hc.
  { subst run. rewrite backup_config_unfold. cbn [fst].
    change (SemAcquire :: ?l) with ([SemAcquire] ++ l).
    rewrite !commands_app. cbn [commands omap app]. apply app_nil_r. }
  assert (attempts (fst run)
          = attempts
              (fst (retry_loop
                      (attempt ip username password platform role script_dir
                         pro_dir) ip envs (seq 0 max_retries)))) as Ha.
  { subst run. rewrite backup_config_unfold. cbn [fst].
    change (SemAcquire :: ?l) with ([SemAcquire] ++ l).
    rewrite !attempts_app.
    change (attempts [SemAcquire]) with 0%nat.
    change (attempts [SemRelease]) with 0%nat. lia. }
  rewrite Hc, Ha. split; [|split; lia].
  eapply Forall_impl; [exact H1|].
  intros c [H|[H|(k & Hk & H)]]; auto.
  right. right. exists k. split; [|exact H].
  apply elem_of_seq in Hk. unfold max_retries in Hk. lia.
Qed.

(** ** One file for each device *)

Lemma length_app_string s t :
  String.length (s +:+ t) = (String.length s + String.length t)%nat.
Proof.
  induction s as [|c s IH]; [reflexivity|].
  rewrite StrFacts.app_cons. simpl. now rewrite IH.
Qed.

Lemma app_inv_tail_string s s' t : s +:+ t = s' +:+ t -> s = s'.
Proof.
  revert s'. induction s as [|c s IH]; intros [|c' s'] H.
  - reflexivity.
  - apply (f_equal String.length) in H.
    rewrite !length_app_string in H. simpl in H. lia.
  - apply (f_equal String.length) in H.
    rewrite !length_app_string in H. simpl in H. lia.
  - rewrite !StrFacts.app_cons in H. injection H as -> H.
    now rewrite (IH s' H).
Qed.

Lemma first_piece sep p p' x x' :
  Str.all_chars (differs sep) p = true ->
  Str.all_chars (differs sep) p' = true ->
  p +:+ String sep x = p' +:+ String sep x' ->
  p = p' /\ x = x'.
Proof.
  revert p'. induction p as [|c p IH]; intros [|c' p'] Hp Hp' H.
  - change (String sep x = String sep x') in H. now injection H as ->.
  - change (String sep x = String c' (p' +:+ String sep x')) in H.
    injection H as <- _. simpl in Hp'. unfold differs at 1 in Hp'.
    now rewrite Ascii.eqb_refl in Hp'.
  - change (String c (p +:+ String sep x) = String sep x') in H.
    injection H as -> _. simpl in Hp. unfold differs at 1 in Hp.
    now rewrite Ascii.eqb_refl in Hp.
  - rewrite !StrFacts.app_cons in H. injection H as -> H.
    simpl in Hp, Hp'. apply andb_true_iff in Hp as [_ Hp].
    apply andb_true_iff in Hp' as [_ Hp'].
    destruct (IH p' Hp Hp' H) as [-> ->]. auto.
Qed.

(** X21. Two devices share a configuration file only if they have the
    same platform, role and address, provided platform and role
    contain no hyphen; with a hyphen in them two different devices can
    get the same file. *)
Theorem one_file_for_each_device
    (platform role ip platform' role' ip' : string) :
  (Str.all_chars (differs "-") platform = true ->
   Str.all_chars (differs "-") role = true ->
   Str.all_chars (differs "-") platform' = true ->
   Str.all_chars (differs "-") role' = true ->
   config_filename platform role ip = config_filename platform' role' ip' ->
   platform = platform' /\ role = role' /\ ip = ip')
  /\ config_filename "h3c-s5" "core" "10.0.0.1"
     = config_filename "h3c" "s5-core" "10.0.0.1".
Proof.
  split; [|reflexivity].
  unfold config_filename. intros Hp Hr Hp' Hr' H.
  change ("-" +:+ ?x) with (String "-" x) in H.
  apply first_piece in H as [-> H]; try assumption.
  apply first_piece in H as [-> H]; try assumption.
  change (String "-" "config.txt") with "-config.txt" in H.
  apply app_inv_tail_string in H. auto.
Qed.
